(** * saggitarius-path: the POSIX and Windows path drivers

    A shallow embedding of [src/driver/win32.ts] (which holds the text of both
    drivers: lines 1-418 are the Windows driver, lines 420-705 the POSIX one),
    the properties its specification states about it, and further
    properties of the code: of [resolve], [relative], [dirname], [basename],
    [extname], [isAbsolute] and [_makeLong].

    Modelling choices.
    - A JavaScript string is a list of characters ([str]); characters are
      8-bit ([ascii], the code units 0-255, which are the characters of
      Latin-1), and [toLowerCase] acts on them as it does in JavaScript: on
      the letters A-Z and on the capital letters of Latin-1.
    - A regular expression literal is a value of [regex], run by a
      backtracking matcher that lists all matches in the priority order of
      the JavaScript engine; [exec], [test], [replace] and [split] take the
      first one.
    - A function that can throw returns a [result]. *)

From Stdlib Require Import Ascii String List Bool Arith Lia ZArith.
Import ListNotations.


(** ** Strings *)

Abbreviation str := (list ascii) (only parsing).

Definition lit (s : string) : str := list_ascii_of_string s.
Arguments lit s%_string.

Fixpoint str_eqb (a b : str) : bool :=
  match a, b with
  | [], [] => true
  | x :: a', y :: b' => Ascii.eqb x y && str_eqb a' b'
  | _, _ => false
  end.

(** [!s] for a string: only the empty string is falsy. *)
Definition is_empty (s : str) : bool :=
  match s with [] => true | _ => false end.

(** [a || b] on strings. *)
Definition or_str (a b : str) : str := if is_empty a then b else a.

(** [s.split(c)] for a one-character separator. *)
Fixpoint split_chr (c : ascii) (s : str) : list str :=
  match s with
  | [] => [[]]
  | a :: s' =>
      if Ascii.eqb a c then [] :: split_chr c s'
      else match split_chr c s' with
           | [] => [[a]]
           | w :: ws => (a :: w) :: ws
           end
  end.

(** [arr.join(sep)]. *)
Fixpoint join_str (sep : str) (l : list str) : str :=
  match l with
  | [] => []
  | [x] => x
  | x :: l' => x ++ sep ++ join_str sep l'
  end.

(** [toLowerCase] on one character.  Among the 8-bit characters the ones
    with a lower case are the letters A-Z (65-90) and the capital letters
    of Latin-1 (192-222, the multiplication sign 215 apart); the lower case
    of each is 32 further on. *)
Definition lower_chr (a : ascii) : ascii :=
  let n := nat_of_ascii a in
  if (65 <=? n) && (n <=? 90)
     || (192 <=? n) && (n <=? 222) && negb (n =? 215)
  then ascii_of_nat (n + 32) else a.

Definition toLowerCase (s : str) : str := map lower_chr s.

(** [s.slice(0, e)]: a negative [e] counts from the end. *)
Definition slice0 (s : str) (e : Z) : str :=
  let len := Z.of_nat (length s) in
  let e' := if (e <? 0)%Z then Z.max (len + e) 0 else Z.min e len in
  firstn (Z.to_nat e') s.

(** ** Values and errors *)

(** The values a caller can pass.  An object is read through the only three
    properties the drivers look at; [root] is checked at run time by [format]
    and is any value, [dir] and [base] are strings or absent. *)
Inductive value : Type :=
| VUndefined
| VNull
| VBool (b : bool)
| VNum (n : Z)
| VStr (s : str)
| VObj (root : value) (dir base : option str).

Definition typeof (v : value) : str :=
  match v with
  | VUndefined => lit "undefined"
  | VNull => lit "object"
  | VBool _ => lit "boolean"
  | VNum _ => lit "number"
  | VStr _ => lit "string"
  | VObj _ _ _ => lit "object"
  end.

Definition truthy (v : value) : bool :=
  match v with
  | VUndefined | VNull => false
  | VBool b => b
  | VNum n => negb (n =? 0)%Z
  | VStr s => negb (is_empty s)
  | VObj _ _ _ => true
  end.

(** [TypeError msg] is an error the drivers throw themselves; [NullRead p] is
    the engine's own error for reading property [p] of [null] or
    [undefined]. *)
Inductive error : Type :=
| TypeError (msg : str)
| NullRead (prop : str).

Inductive result (A : Type) : Type :=
| Ok (a : A)
| Throw (e : error).
Arguments Ok {A} a.
Arguments Throw {A} e.

Definition bind {A B} (r : result A) (f : A -> result B) : result B :=
  match r with
  | Ok a => f a
  | Throw e => Throw e
  end.

Notation "x <- r ;; k" := (bind r (fun x => k))
  (at level 61, r at next level, right associativity).

(** lines 31-37 and 449-455 *)
Definition isString (v : value) : bool :=
  str_eqb (typeof v) (lit "string").

Definition isObject (v : value) : bool :=
  str_eqb (typeof v) (lit "object").

(** ** Regular expressions *)

(** Every quantified atom of the drivers' patterns is a character class, so
    a quantifier carries its class: [Rep c lo hi greedy] is [c{lo,hi}]
    ([hi = None] for no upper bound), greedy or lazy. *)
Inductive regex : Type :=
| Eps
| Bol
| Eol
| Rep (c : ascii -> bool) (lo : nat) (hi : option nat) (greedy : bool)
| Seq (r1 r2 : regex)
| Alt (r1 r2 : regex)
| Grp (i : nat) (r : regex).

Definition Cls (c : ascii -> bool) : regex := Rep c 1 (Some 1) true.
Definition Star (c : ascii -> bool) : regex := Rep c 0 None true.
Definition Plus (c : ascii -> bool) : regex := Rep c 1 None true.
Definition LazyStar (c : ascii -> bool) : regex := Rep c 0 None false.
Definition LazyPlus (c : ascii -> bool) : regex := Rep c 1 None false.
(** [r?] for an [r] that cannot match the empty string. *)
Definition Opt (r : regex) : regex := Alt r Eps.

Declare Scope regex_scope.
Delimit Scope regex_scope with re.
Bind Scope regex_scope with regex.
Infix "+>" := Seq (at level 61, right associativity) : regex_scope.
Infix "</>" := Alt (at level 62, right associativity) : regex_scope.

(** The state of a match attempt: the index reached, the input left and the
    captures so far. *)
Record mstate : Type := MState {
  pos : nat;
  rest : str;
  caps : nat -> option str
}.

Definition advance (st : mstate) (k : nat) : mstate :=
  MState (pos st + k) (skipn k (rest st)) (caps st).

Definition set_cap (i : nat) (v : str) (f : nat -> option str) : nat -> option str :=
  fun j => if Nat.eqb j i then Some v else f j.

(** Closing group [i], entered in state [st0], in state [st]. *)
Definition close (i : nat) (st0 st : mstate) : mstate :=
  MState (pos st) (rest st)
         (set_cap i (firstn (pos st - pos st0) (rest st0)) (caps st)).

(** The length of the longest prefix made of characters of class [c]. *)
Fixpoint span (c : ascii -> bool) (s : str) : nat :=
  match s with
  | a :: s' => if c a then S (span c s') else 0
  | [] => 0
  end.

(** The repetition counts a quantifier tries, in the order it tries them,
    when [avail] characters of its class are ahead. *)
Definition counts (lo : nat) (hi : option nat) (greedy : bool) (avail : nat)
  : list nat :=
  let top := match hi with Some h => Nat.min h avail | None => avail end in
  let l := seq lo (S top - lo) in
  if greedy then rev l else l.

(** All the ways [r] matches at [st], in backtracking order. *)
Fixpoint matches (r : regex) (st : mstate) : list mstate :=
  match r with
  | Eps => [st]
  | Bol => if Nat.eqb (pos st) 0 then [st] else []
  | Eol => if is_empty (rest st) then [st] else []
  | Rep c lo hi g => map (advance st) (counts lo hi g (span c (rest st)))
  | Seq r1 r2 => flat_map (matches r2) (matches r1 st)
  | Alt r1 r2 => matches r1 st ++ matches r2 st
  | Grp i r1 => map (close i st) (matches r1 st)
  end.

(** A pattern with its number of capture groups. *)
Record regexp : Type := RegExp { body : regex; ngroups : nat }.

(** The match array of [exec]: [groups] holds elements 1, 2, ... *)
Record rmatch : Type := RMatch {
  index : nat;
  whole : str;
  groups : list (option str)
}.

Definition start (i : nat) (s : str) : mstate := MState i s (fun _ => None).

(** [re.exec(s)] seen from index [i], where [s] is the input from [i] on:
    the first index at which the pattern matches wins. *)
Fixpoint exec_at (re : regexp) (i : nat) (s : str) : option rmatch :=
  match hd_error (matches (body re) (start i s)) with
  | Some st =>
      Some (RMatch i (firstn (pos st - i) s) (map (caps st) (seq 1 (ngroups re))))
  | None =>
      match s with
      | [] => None
      | _ :: s' => exec_at re (S i) s'
      end
  end.

Definition exec (re : regexp) (s : str) : option rmatch := exec_at re 0 s.

Definition test (re : regexp) (s : str) : bool :=
  match exec re s with Some _ => true | None => false end.

(** Element [i] (from 1) of a match array.  An unmatched group reads as
    [undefined]; the drivers read a group either under [|| ""] or where the
    group lies outside every optional part of its pattern, so the empty
    string stands for [undefined] here. *)
Definition group (m : rmatch) (i : nat) : str :=
  match nth (i - 1) (groups m) None with
  | Some s => s
  | None => []
  end.

(** [s.replace(re, by)] without the [g] flag ([by] holds no [$]). *)
Definition replace_first (re : regexp) (by_ : str) (s : str) : str :=
  match exec re s with
  | Some m => firstn (index m) s ++ by_ ++ skipn (index m + length (whole m)) s
  | None => s
  end.

(** [s.replace(re, by)] with the [g] flag.  [skip] counts the characters
    still inside the match just replaced; after an empty match the engine
    steps one character forward. *)
Fixpoint replace_from (re : regexp) (by_ : str) (i skip : nat) (s : str) : str :=
  match skip with
  | S k =>
      match s with
      | [] => []
      | _ :: s' => replace_from re by_ (S i) k s'
      end
  | 0 =>
      match hd_error (matches (body re) (start i s)) with
      | Some st =>
          by_ ++
          match s with
          | [] => []
          | a :: s' =>
              if Nat.eqb (pos st - i) 0 then a :: replace_from re by_ (S i) 0 s'
              else replace_from re by_ (S i) (pos st - i - 1) s'
          end
      | None =>
          match s with
          | [] => []
          | a :: s' => a :: replace_from re by_ (S i) 0 s'
          end
      end
  end.

Definition replace_all (re : regexp) (by_ : str) (s : str) : str :=
  replace_from re by_ 0 0 s.

(** [s.split(re)] for a pattern without capture groups.  [cur] holds the
    characters since the end of the last separator, [skip] the characters
    still inside the separator just found.  A match that ends where the
    current piece starts is not a separator. *)
Fixpoint split_from (re : regexp) (i skip : nat) (cur : str) (s : str) : list str :=
  match s with
  | [] => [cur]
  | a :: s' =>
      match skip with
      | S k => split_from re (S i) k cur s'
      | 0 =>
          match hd_error (matches (body re) (start i s)) with
          | Some st =>
              let len := pos st - i in
              if Nat.eqb len 0 then
                if is_empty cur then split_from re (S i) 0 [a] s'
                else cur :: split_from re (S i) 0 [a] s'
              else cur :: split_from re (S i) (len - 1) [] s'
          | None => split_from re (S i) 0 (cur ++ [a]) s'
          end
      end
  end.

Definition split_re (re : regexp) (s : str) : list str :=
  match s with
  | [] => if test re [] then [] else [[]]
  | _ => split_from re 0 0 [] s
  end.

(** ** Character classes *)

Definition any (_ : ascii) : bool := true.
Definition is_chr (c : ascii) (a : ascii) : bool := Ascii.eqb a c.
Definition is_slash : ascii -> bool := is_chr "/".
Definition is_dot : ascii -> bool := is_chr ".".
(** [[\\\/]] *)
Definition is_sep (a : ascii) : bool := Ascii.eqb a "\" || Ascii.eqb a "/".
(** [[a-zA-Z]] *)
Definition is_letter (a : ascii) : bool :=
  let n := nat_of_ascii a in
  ((97 <=? n) && (n <=? 122)) || ((65 <=? n) && (n <=? 90)).
Definition non (c : ascii -> bool) (a : ascii) : bool := negb (c a).
(** [[^.\/]] *)
Definition ext_chr_posix (a : ascii) : bool := negb (is_dot a || is_slash a).
(** [[^.\/\\]] *)
Definition ext_chr_win32 (a : ascii) : bool := negb (is_dot a || is_sep a).

(** ** Code shared by the two drivers *)

(** lines 43-64 and 462-483 (the same text).  [res] grows at its end. *)
Definition normalizeArray_step (allowAboveRoot : bool) (res : list str) (p : str)
  : list str :=
  if is_empty p || str_eqb p (lit ".") then res
  else if str_eqb p (lit "..") then
    if negb (Nat.eqb (length res) 0) && negb (str_eqb (last res []) (lit ".."))
    then removelast res
    else if allowAboveRoot then res ++ [lit ".."]
    else res
  else res ++ [p].

Definition normalizeArray (parts : list str) (allowAboveRoot : bool) : list str :=
  fold_left (normalizeArray_step allowAboveRoot) parts [].

(** lines 68-91 and 487-510 (the same text). *)
Fixpoint trim_start (start : nat) (arr : list str) : nat :=
  match arr with
  | [] => start
  | x :: arr' => if is_empty x then trim_start (S start) arr' else start
  end.

(** The index [end] of the last non-empty element, plus one (0 stands
    for [end = -1]). *)
Definition trim_end (arr : list str) : nat :=
  length arr - trim_start 0 (rev arr).

Definition trimArray (arr : list str) : list str :=
  let lastIndex1 := length arr in
  let start := trim_start 0 arr in
  let end1 := trim_end arr in
  if Nat.eqb start 0 && Nat.eqb end1 lastIndex1 then arr
  else if end1 <=? start then []
  else firstn (end1 - start) (skipn start arr).

(** The double quote, for the error messages that hold one. *)
Definition dq : ascii := "034"%char.

(** A string argument, or the driver's error [msg]. *)
Definition as_string (msg : str) (v : value) : result str :=
  if negb (isString v) then Throw (TypeError msg)
  else match v with
       | VStr s => Ok s
       | _ => Throw (TypeError msg)
       end.

(** [v.root]: reading a property of [null] or [undefined] throws, a
    primitive has no such property. *)
Definition get_root (v : value) : result value :=
  match v with
  | VObj r _ _ => Ok r
  | VNull | VUndefined => Throw (NullRead (lit "root"))
  | _ => Ok VUndefined
  end.

Definition get_dir (v : value) : option str :=
  match v with VObj _ d _ => d | _ => None end.

Definition get_base (v : value) : option str :=
  match v with VObj _ _ b => b | _ => None end.

(** [o || ""] for a property that is a string or absent. *)
Definition or_empty (o : option str) : str :=
  match o with Some s => s | None => [] end.

(** [s[0] === c] *)
Definition starts_with (c : ascii) (s : str) : bool :=
  match s with a :: _ => Ascii.eqb a c | [] => false end.

(** [s[s.length - 1] === c] *)
Definition ends_with (c : ascii) (s : str) : bool :=
  match rev s with a :: _ => Ascii.eqb a c | [] => false end.

(** Modelled from the spec: the shape [PathInfo] of [pathinfo.ts], which is
    not among the sources; the spec's data model gives its five fields. *)
Record PathInfo : Type := mkPathInfo {
  root : str;
  dir : str;
  base : str;
  ext : str;
  name : str
}.

(** A [PathInfo] as the object that [format] receives. *)
Definition obj_of (i : PathInfo) : value :=
  VObj (VStr (root i)) (Some (dir i)) (Some (base i)).

(** ** The POSIX driver (lines 420-705) *)

Module Posix.

Definition separator : str := lit "/".
Definition delimiter : str := lit ":".

(** line 514 *)
Definition splitPathRe : regexp :=
  RegExp
    (Bol
     +> Grp 1 (Rep is_slash 0 (Some 1) true </> Eps)
     +> Grp 2 (LazyStar any)
     +> Grp 3 ((Rep is_dot 1 (Some 2) true </> LazyPlus (non is_slash) </> Eps)
               +> Grp 4 ((Cls is_dot +> Star ext_chr_posix) </> Eps))
     +> Star is_slash
     +> Eol)%re
    4.

(** lines 517-519: [exec] gives [null] when the pattern does not match, and
    [null.slice] throws. *)
Definition splitPath (filename : str) : result (list (option str)) :=
  match exec splitPathRe filename with
  | Some m => Ok (groups m)
  | None => Throw (NullRead (lit "slice"))
  end.

(** lines 571-573 *)
Definition isAbsolute (path : str) : bool := starts_with "/" path.

(** lines 553-568 *)
Definition normalize (path : str) : str :=
  let isAbs := isAbsolute path in
  let trailingSlash := negb (is_empty path) && ends_with "/" path in
  let path := join_str (lit "/") (normalizeArray (split_chr "/" path) (negb isAbs)) in
  let path := if is_empty path && negb isAbs then lit "." else path in
  let path := if negb (is_empty path) && trailingSlash then path ++ lit "/" else path in
  (if isAbs then lit "/" else []) ++ path.

Section Driver.

Variable cwd : str.

(** lines 528-538: one turn of the loop of [resolve] on [path]; the state
    is [(resolvedPath, resolvedAbsolute)]. *)
Definition resolve_visit (path : value) (acc : str * bool) : result (str * bool) :=
  p <- as_string (lit "Arguments to path.resolve must be strings") path ;;
  if is_empty p then Ok acc
  else Ok (p ++ lit "/" ++ fst acc, starts_with "/" p).

(** line 527: the loop runs [i] from the last index down to -1, where the
    path is [cwd], while [resolvedAbsolute] is false; [rev_paths] holds the
    arguments not yet visited, last first. *)
Fixpoint resolve_loop (rev_paths : list value) (acc : str * bool) : result (str * bool) :=
  if snd acc then Ok acc
  else match rev_paths with
       | [] => resolve_visit (VStr cwd) acc
       | path :: ps => acc' <- resolve_visit path acc ;; resolve_loop ps acc'
       end.

(** lines 523-549 *)
Definition resolve (paths : list value) : result str :=
  acc <- resolve_loop (rev paths) ([], false) ;;
  let resolvedAbsolute := snd acc in
  let resolvedPath :=
    join_str (lit "/")
      (normalizeArray (split_chr "/" (fst acc)) (negb resolvedAbsolute)) in
  Ok (or_str ((if resolvedAbsolute then lit "/" else []) ++ resolvedPath) (lit ".")).

End Driver.

(** lines 576-592 *)
Fixpoint join_loop (paths : list value) (path : str) : result str :=
  match paths with
  | [] => Ok path
  | segment :: ps =>
      s <- as_string (lit "Arguments to path.join must be strings") segment ;;
      join_loop ps
        (if negb (is_empty s)
         then (if is_empty path then path ++ s else path ++ lit "/" ++ s)
         else path)
  end.

Definition join (paths : list value) : result str :=
  path <- join_loop paths [] ;;
  Ok (normalize path).

(** lines 662-681 *)
Definition format (pathObject : value) : result str :=
  if negb (isObject pathObject) then
    Throw (TypeError (lit "Parameter " ++ [dq] ++ lit "pathObject" ++ [dq]
                      ++ lit " must be an object, not " ++ typeof pathObject))
  else
    r <- get_root pathObject ;;
    let root := if truthy r then r else VStr [] in
    if negb (isString root) then
      Throw (TypeError ([dq] ++ lit "pathObject.root" ++ [dq]
                        ++ lit " must be a string or undefined, not " ++ typeof r))
    else
      let dir := if negb (is_empty (or_empty (get_dir pathObject)))
                 then or_empty (get_dir pathObject) ++ separator else [] in
      let base := or_empty (get_base pathObject) in
      Ok (dir ++ base).

(** lines 684-705 *)
Definition parse (pathString : value) : result PathInfo :=
  if negb (isString pathString) then
    Throw (TypeError (lit "Parameter " ++ [dq] ++ lit "pathString" ++ [dq]
                      ++ lit " must be a string, not " ++ typeof pathString))
  else
    match pathString with
    | VStr p =>
        allParts <- splitPath p ;;
        if negb (Nat.eqb (length allParts) 4) then
          Throw (TypeError (lit "Invalid path " ++ [dq] ++ p ++ [dq]))
        else
          let part i := or_empty (nth i allParts None) in
          Ok (mkPathInfo
                (part 0)
                (part 0 ++ slice0 (part 1) (-1))
                (part 2)
                (part 3)
                (slice0 (part 2) (Z.of_nat (length (part 2)) - Z.of_nat (length (part 3)))))
    | _ => Throw (TypeError (lit "Parameter " ++ [dq] ++ lit "pathString" ++ [dq]
                             ++ lit " must be a string, not " ++ typeof pathString))
    end.

(** lines 605-611: the index [i] of the first pair of parts that differ, or
    [length] when the first [length] parts agree; [todo] is [length - i]. *)
Fixpoint samePartsLength (todo i : nat) (a b : list str) : nat :=
  match todo with
  | 0 => i
  | S n =>
      if negb (str_eqb (nth i a []) (nth i b [])) then i
      else samePartsLength n (S i) a b
  end.

Section Relative.

Variable cwd : str.

(** lines 597-621 *)
Definition relative (from to : str) : result str :=
  from <- resolve cwd [VStr from] ;;
  let from := skipn 1 from in
  to <- resolve cwd [VStr to] ;;
  let to := skipn 1 to in
  let fromParts := trimArray (split_chr "/" from) in
  let toParts := trimArray (split_chr "/" to) in
  let length := Nat.min (length fromParts) (length toParts) in
  let samePartsLength := samePartsLength length 0 fromParts toParts in
  let outputParts := repeat (lit "..") (List.length fromParts - samePartsLength) in
  let outputParts := outputParts ++ skipn samePartsLength toParts in
  Ok (join_str (lit "/") outputParts).

End Relative.

(** lines 624-626 *)
Definition _makeLong (path : value) : value := path.

(** lines 629-645 *)
Definition dirname (path : str) : result str :=
  result <- splitPath path ;;
  let root := or_empty (nth 0 result None) in
  let dir := or_empty (nth 1 result None) in
  if is_empty root && is_empty dir then Ok (lit ".")
  else
    let dir := if negb (is_empty dir) then firstn (length dir - 1) dir else dir in
    Ok (root ++ dir).

(** lines 648-654: [f.substr(-n)] is the last [n] characters of [f], or
    all of [f] when it is shorter; an [ext] left out reads as falsy, like
    the empty string. *)
Definition basename (path ext : str) : result str :=
  result <- splitPath path ;;
  let f := or_empty (nth 2 result None) in
  if negb (is_empty ext) && str_eqb (skipn (length f - length ext) f) ext
  then Ok (firstn (length f - length ext) f)
  else Ok f.

(** lines 657-659 *)
Definition extname (path : str) : result str :=
  result <- splitPath path ;;
  Ok (or_empty (nth 3 result None)).

End Posix.

(** ** The Windows driver (lines 1-418) *)

Module Win32.

Definition separator : str := lit "\".
Definition delimiter : str := lit ";".

(** lines 95-96 *)
Definition splitDeviceRe : regexp :=
  RegExp
    (Bol
     +> Opt (Grp 1 ((Cls is_letter +> Cls (is_chr ":"))
                    </> (Rep is_sep 2 (Some 2) true +> Plus (non is_sep)
                         +> Plus is_sep +> Plus (non is_sep))))
     +> Opt (Grp 2 (Cls is_sep))
     +> Grp 3 (LazyStar any)
     +> Eol)%re
    3.

(** lines 99-100 *)
Definition splitTailRe : regexp :=
  RegExp
    (Bol
     +> Grp 1 (LazyStar any)
     +> Grp 2 ((Rep is_dot 1 (Some 2) true </> LazyPlus (non is_sep) </> Eps)
               +> Grp 3 ((Cls is_dot +> Star ext_chr_win32) </> Eps))
     +> Star is_sep
     +> Eol)%re
    3.

(** [/[\\\/]+/] (lines 136, 207, 221) *)
Definition sepsRe : regexp := RegExp (Plus is_sep) 0.
(** [/^[\\\/]+/] (line 136) *)
Definition leadingSepsRe : regexp := RegExp (Bol +> Plus is_sep)%re 0.
(** [/[\\\/]$/] (line 218) *)
Definition trailingSepRe : regexp := RegExp (Cls is_sep +> Eol)%re 0.
(** [/^[\\\/]{2}[^\\\/]/] (line 266) *)
Definition uncLikeRe : regexp :=
  RegExp (Bol +> Rep is_sep 2 (Some 2) true +> Cls (non is_sep))%re 0.
(** [/^[\\\/]{2,}/] (line 267) *)
Definition leadingSeps2Re : regexp := RegExp (Bol +> Rep is_sep 2 None true)%re 0.

(** lines 103-114: reading an element of [null] throws. *)
Definition splitPath (filename : str) : result (list str) :=
  match exec splitDeviceRe filename with
  | None => Throw (NullRead (lit "1"))
  | Some result =>
      let device := group result 1 ++ group result 2 in
      let tail := group result 3 in
      match exec splitTailRe tail with
      | None => Throw (NullRead (lit "1"))
      | Some result2 =>
          Ok [device; group result2 1; group result2 2; group result2 3]
      end
  end.

(** lines 116-121 *)
Record PathStat : Type := mkPathStat {
  device : str;
  tail : str;
  isUnc : bool;
  stat_isAbsolute : bool
}.

(** lines 123-133 *)
Definition statPath (path : str) : result PathStat :=
  match exec splitDeviceRe path with
  | None => Throw (NullRead (lit "1"))
  | Some result =>
      let device := group result 1 in
      let isUnc :=
        negb (is_empty device)
        && negb (match nth_error device 1 with
                 | Some a => Ascii.eqb a ":"
                 | None => false
                 end) in
      Ok (mkPathStat device (group result 3) isUnc
            (isUnc || negb (is_empty (group result 2))))
  end.

(** lines 135-137 *)
Definition normalizeUNCRoot (device : str) : str :=
  lit "\\" ++ replace_all sepsRe (lit "\") (replace_first leadingSepsRe [] device).

(** lines 212-237 *)
Definition normalize (path : str) : result str :=
  result <- statPath path ;;
  let device := device result in
  let isUnc := isUnc result in
  let isAbsolute := stat_isAbsolute result in
  let tail := tail result in
  let trailingSlash := test trailingSepRe tail in
  let tail := join_str (lit "\") (normalizeArray (split_re sepsRe tail) (negb isAbsolute)) in
  let tail := if is_empty tail && negb isAbsolute then lit "." else tail in
  let tail := if negb (is_empty tail) && trailingSlash then tail ++ lit "\" else tail in
  let device := if isUnc then normalizeUNCRoot device else device in
  Ok (device ++ (if isAbsolute then lit "\" else []) ++ tail).

(** lines 239-241 *)
Definition isAbsolute (path : str) : result bool :=
  result <- statPath path ;; Ok (stat_isAbsolute result).

Section Driver.

Variable cwd : str.
(** [env[k]]: the value under key [k], if any. *)
Variable env : str -> option str.

(** The variables of the loop of [resolve] (lines 141-144). *)
Record rstate : Type := mkRState {
  resolvedDevice : str;
  resolvedTail : str;
  resolvedAbsolute : bool;
  r_isUnc : bool
}.

(** How a turn of the loop ends: at its end or by [continue], or by
    [break]. *)
Inductive turn : Type :=
| Next (st : rstate)
| Break (st : rstate).

(** lines 148-163: the path of turn [i]; [arg] is [paths[i]] when
    [i >= 0]. *)
Definition resolve_path (arg : option value) (st : rstate) : value :=
  match arg with
  | Some v => v
  | None =>
      if is_empty (resolvedDevice st) then VStr cwd
      else
        let path := env (lit "=" ++ resolvedDevice st) in
        match path with
        | Some p =>
            if is_empty p
               || negb (str_eqb (toLowerCase (firstn 3 p))
                                (toLowerCase (resolvedDevice st) ++ lit "\"))
            then VStr (resolvedDevice st ++ lit "\")
            else VStr p
        | None => VStr (resolvedDevice st ++ lit "\")
        end
  end.

(** lines 165-193 *)
Definition resolve_visit (path : value) (st : rstate) : result turn :=
  p <- as_string (lit "Arguments to path.resolve must be strings") path ;;
  if is_empty p then Ok (Next st)
  else
    result <- statPath p ;;
    let st := mkRState (resolvedDevice st) (resolvedTail st) (resolvedAbsolute st)
                       (isUnc result) in
    if negb (is_empty (device result)) && negb (is_empty (resolvedDevice st))
       && negb (str_eqb (toLowerCase (device result)) (toLowerCase (resolvedDevice st)))
    then Ok (Next st)
    else
      let dev := if is_empty (resolvedDevice st) then device result
                 else resolvedDevice st in
      let tl := if negb (resolvedAbsolute st)
                then tail result ++ lit "\" ++ resolvedTail st
                else resolvedTail st in
      let ab := if negb (resolvedAbsolute st) then stat_isAbsolute result
                else resolvedAbsolute st in
      let st := mkRState dev tl ab (r_isUnc st) in
      if negb (is_empty dev) && ab then Ok (Break st) else Ok (Next st).

(** line 146: [i] runs from the last index down to -1; [rev_paths] holds the
    arguments not yet visited, last first. *)
Fixpoint resolve_loop (rev_paths : list value) (st : rstate) : result rstate :=
  match rev_paths with
  | [] =>
      t <- resolve_visit (resolve_path None st) st ;;
      match t with Next st' | Break st' => Ok st' end
  | path :: ps =>
      t <- resolve_visit (resolve_path (Some path) st) st ;;
      match t with
      | Next st' => resolve_loop ps st'
      | Break st' => Ok st'
      end
  end.

(** lines 140-210 *)
Definition resolve (paths : list value) : result str :=
  st <- resolve_loop (rev paths) (mkRState [] [] false false) ;;
  let resolvedDevice :=
    if r_isUnc st then normalizeUNCRoot (resolvedDevice st) else resolvedDevice st in
  let resolvedTail :=
    join_str (lit "\")
      (normalizeArray (split_re sepsRe (resolvedTail st)) (negb (resolvedAbsolute st))) in
  Ok (or_str (resolvedDevice ++ (if resolvedAbsolute st then lit "\" else [])
              ++ resolvedTail)
             (lit ".")).

(** lines 293-300: the index [i] of the first pair of parts that differ, or
    [length] when the first [length] parts agree; [todo] is [length - i]. *)
Fixpoint samePartsLength (todo i : nat) (a b : list str) : nat :=
  match todo with
  | 0 => i
  | S n =>
      if negb (str_eqb (nth i a []) (nth i b [])) then i
      else samePartsLength n (S i) a b
  end.

(** lines 279-314 *)
Definition relative (from to : str) : result str :=
  from <- resolve [VStr from] ;;
  to <- resolve [VStr to] ;;
  let lowerFrom := toLowerCase from in
  let lowerTo := toLowerCase to in
  let toParts := trimArray (split_chr "\" to) in
  let lowerFromParts := trimArray (split_chr "\" lowerFrom) in
  let lowerToParts := trimArray (split_chr "\" lowerTo) in
  let length := Nat.min (length lowerFromParts) (length lowerToParts) in
  let samePartsLength := samePartsLength length 0 lowerFromParts lowerToParts in
  if Nat.eqb samePartsLength 0 then Ok to
  else
    let outputParts := repeat (lit "..") (List.length lowerFromParts - samePartsLength) in
    let outputParts := outputParts ++ skipn samePartsLength toParts in
    Ok (join_str (lit "\") outputParts).

End Driver.

(** lines 244-249: the callback of [filter] throws at the first argument
    that is not a string and keeps the non-empty strings. *)
Fixpoint join_filter (paths : list value) : result (list str) :=
  match paths with
  | [] => Ok []
  | arg :: ps =>
      s <- as_string (lit "Arguments to path.join must be strings") arg ;;
      kept <- join_filter ps ;;
      Ok (if negb (is_empty s) then s :: kept else kept)
  end.

(** lines 243-271.  [paths[0]] of an empty array is [undefined], which
    [test] reads as the string "undefined". *)
Definition join (paths : list value) : result str :=
  paths <- join_filter paths ;;
  let joined := join_str (lit "\") paths in
  let first := match paths with p :: _ => p | [] => lit "undefined" end in
  let joined :=
    if negb (test uncLikeRe first) then replace_first leadingSeps2Re (lit "\") joined
    else joined in
  normalize joined.

(** lines 373-398 *)
Definition format (pathObject : value) : result str :=
  if negb (isObject pathObject) then
    Throw (TypeError (lit "Parameter " ++ [dq] ++ lit "pathObject" ++ [dq]
                      ++ lit " must be an object, not " ++ typeof pathObject))
  else
    r <- get_root pathObject ;;
    let root := if truthy r then r else VStr [] in
    if negb (isString root) then
      Throw (TypeError ([dq] ++ lit "pathObject.root" ++ [dq]
                        ++ lit " must be a string or undefined, not " ++ typeof r))
    else
      let dir := or_empty (get_dir pathObject) in
      let base := or_empty (get_base pathObject) in
      if is_empty dir then Ok base
      else if ends_with "\" dir then Ok (dir ++ base)
      else Ok (dir ++ separator ++ base).

(** lines 401-418 *)
Definition parse (pathString : value) : result PathInfo :=
  if negb (isString pathString) then
    Throw (TypeError (lit "Parameter " ++ [dq] ++ lit "pathString" ++ [dq]
                      ++ lit " must be a string, not " ++ typeof pathString))
  else
    match pathString with
    | VStr p =>
        allParts <- splitPath p ;;
        if negb (Nat.eqb (length allParts) 4) then
          Throw (TypeError (lit "Invalid path " ++ [dq] ++ p ++ [dq]))
        else
          let part i := nth i allParts [] in
          Ok (mkPathInfo
                (part 0)
                (part 0 ++ slice0 (part 1) (-1))
                (part 2)
                (part 3)
                (slice0 (part 2) (Z.of_nat (length (part 2)) - Z.of_nat (length (part 3)))))
    | _ => Throw (TypeError (lit "Parameter " ++ [dq] ++ lit "pathString" ++ [dq]
                             ++ lit " must be a string, not " ++ typeof pathString))
    end.

(** [/^[a-zA-Z]\:\\/] (line 328) *)
Definition driveRootRe : regexp :=
  RegExp (Bol +> Cls is_letter +> Cls (is_chr ":") +> Cls (is_chr "\"))%re 0.
(** [/^\\\\[^?.]/] (line 332) *)
Definition uncStartRe : regexp :=
  RegExp (Bol +> Cls (is_chr "\") +> Cls (is_chr "\")
          +> Cls (fun a => negb (is_chr "?" a || is_dot a)))%re 0.

Section LongPath.

Variable cwd : str.
Variable env : str -> option str.

(** lines 317-338 *)
Definition _makeLong (path : value) : result value :=
  if negb (isString path) then Ok path
  else
    match path with
    | VStr p =>
        if is_empty p then Ok (VStr [])
        else
          resolvedPath <- resolve cwd env [VStr p] ;;
          if test driveRootRe resolvedPath then
            Ok (VStr (lit "\\?\" ++ resolvedPath))
          else if test uncStartRe resolvedPath then
            Ok (VStr (lit "\\?\UNC\" ++ skipn 2 resolvedPath))
          else Ok path
    | _ => Ok path
    end.

End LongPath.

(** lines 341-356 *)
Definition dirname (path : str) : result str :=
  result <- splitPath path ;;
  let root := nth 0 result [] in
  let dir := nth 1 result [] in
  if is_empty root && is_empty dir then Ok (lit ".")
  else
    let dir := if negb (is_empty dir) then firstn (length dir - 1) dir else dir in
    Ok (root ++ dir).

(** lines 359-365: [f.substr(-n)] is the last [n] characters of [f], or
    all of [f] when it is shorter; an [ext] left out reads as falsy, like
    the empty string. *)
Definition basename (path ext : str) : result str :=
  result <- splitPath path ;;
  let f := nth 2 result [] in
  if negb (is_empty ext)
     && str_eqb (toLowerCase (skipn (length f - length ext) f)) (toLowerCase ext)
  then Ok (firstn (length f - length ext) f)
  else Ok f.

(** lines 368-370 *)
Definition extname (path : str) : result str :=
  result <- splitPath path ;;
  Ok (nth 3 result []).

End Win32.

(** ** The operations as the specification words them *)

(** The segment normalizer as a scan that keeps an output stack, top first;
    the result is the stack read from its bottom. *)
Fixpoint normalize_scan (allowAboveRoot : bool) (stack : list str) (parts : list str)
  : list str :=
  match parts with
  | [] => rev stack
  | p :: ps =>
      if is_empty p || str_eqb p (lit ".") then
        normalize_scan allowAboveRoot stack ps
      else if str_eqb p (lit "..") then
        match stack with
        | top :: below =>
            if str_eqb top (lit "..") then
              normalize_scan allowAboveRoot
                (if allowAboveRoot then lit ".." :: stack else stack) ps
            else normalize_scan allowAboveRoot below ps
        | [] =>
            normalize_scan allowAboveRoot
              (if allowAboveRoot then [lit ".."] else []) ps
        end
      else normalize_scan allowAboveRoot (p :: stack) ps
  end.

(** POSIX [resolve] as a scan of the arguments from last to first, then
    [cwd], that prepends each path onto the accumulator and stops at the
    first one that starts with "/"; [rev_paths] holds the arguments last
    first. *)
Fixpoint resolve_scan (cwd : str) (rev_paths : list str) (acc : str) : str * bool :=
  match rev_paths with
  | [] => (cwd ++ lit "/" ++ acc, starts_with "/" cwd)
  | p :: ps =>
      if starts_with "/" p then (p ++ lit "/" ++ acc, true)
      else resolve_scan cwd ps (p ++ lit "/" ++ acc)
  end.

Definition resolve_spec (cwd : str) (paths : list str) : str :=
  let (acc, absolute) := resolve_scan cwd (rev paths) [] in
  let normalized :=
    join_str (lit "/") (normalizeArray (split_chr "/" acc) (negb absolute)) in
  let path := (if absolute then lit "/" else []) ++ normalized in
  if is_empty path then lit "." else path.

(** Whether a call ended with an error that the driver itself throws for
    an invalid argument. *)
Definition is_invalid_argument {A} (r : result A) : bool :=
  match r with
  | Throw (TypeError _) => true
  | _ => false
  end.

(** The two invalid-argument errors of [resolve] and [join]. *)
Definition resolve_error : error :=
  TypeError (lit "Arguments to path.resolve must be strings").
Definition join_error : error :=
  TypeError (lit "Arguments to path.join must be strings").

(** A string argument that is not an absolute POSIX path. *)
Definition posix_relative (v : value) : Prop :=
  exists s, v = VStr s /\ Posix.isAbsolute s = false.

(** Where the scan of Windows [resolve] stops, in words (lines 172-193): the
    loop takes the device of the last path that names one, skips the paths
    that name another, and breaks once it has a device and has met an
    absolute path among those it does not skip. *)

(** The device and the root that [statPath] finds in a path. *)
Definition win32_device (s : str) : str :=
  match Win32.statPath s with Ok r => Win32.device r | Throw _ => [] end.

Definition win32_absolute (s : str) : bool :=
  match Win32.statPath s with Ok r => Win32.stat_isAbsolute r | Throw _ => false end.

Definition names_device (s : str) : bool := negb (is_empty (win32_device s)).

(** The device that the paths [paths] settle: the one of the last path
    that names a device, the empty string when none does. *)
Definition settled_device (paths : list str) : str :=
  match find names_device (rev paths) with
  | Some s => win32_device s
  | None => []
  end.

(** A path counts for the device [d] when it names no device or names
    [d], without regard to case. *)
Definition counts_for (d s : str) : bool :=
  is_empty (win32_device s)
  || str_eqb (toLowerCase (win32_device s)) (toLowerCase d).

(** Whether the scan of Windows [resolve] stops within [paths]: they settle
    a device, and one of those that count for it is absolute. *)
Definition win32_scan_stops (paths : list str) : bool :=
  let d := settled_device paths in
  negb (is_empty d)
  && existsb (fun s => counts_for d s && win32_absolute s) paths.

(** The same from a turn of the loop on, with the device [d] and the flag
    [a] resolved so far; [rp] holds the paths in the order of the scan. *)
Definition scan_device (d : str) (rp : list str) : str :=
  if is_empty d
  then match find names_device rp with Some s => win32_device s | None => [] end
  else d.

Definition scan_stops (d : str) (a : bool) (rp : list str) : bool :=
  let D := scan_device d rp in
  negb (is_empty D)
  && (a || existsb (fun s => counts_for D s && win32_absolute s) rp).

Definition non_empty (s : str) : bool := negb (is_empty s).

(** The non-empty segments of an accumulated path. *)
Definition segments (acc : str) : list str := filter non_empty (split_chr "/" acc).

(** Whether group [i] occurs in a pattern. *)
Fixpoint has_group (i : nat) (r : regex) : bool :=
  match r with
  | Eps | Bol | Eol | Rep _ _ _ _ => false
  | Seq r1 r2 | Alt r1 r2 => has_group i r1 || has_group i r2
  | Grp j r1 => Nat.eqb j i || has_group i r1
  end.

(** The number of leading segments that two paths share when segments are
    compared without regard to case. *)
Fixpoint common_prefix_ci (a b : list str) : nat :=
  match a, b with
  | x :: a', y :: b' =>
      if str_eqb (toLowerCase x) (toLowerCase y) then S (common_prefix_ci a' b')
      else 0
  | _, _ => 0
  end.

(** Windows [relative] on the two resolved paths, as the specification words
    it: one ".." for each segment of [from] past the common prefix, then the
    segments of [to] past it, in the case they have in [to]; [to] itself
    when no segment is shared. *)
Definition relative_spec (from to : str) : str :=
  let fromParts := trimArray (split_chr "\" from) in
  let toParts := trimArray (split_chr "\" to) in
  let shared := common_prefix_ci fromParts toParts in
  if Nat.eqb shared 0 then to
  else join_str (lit "\")
         (repeat (lit "..") (length fromParts - shared) ++ skipn shared toParts).

(** Whether a string starts with exactly two separators followed by a
    character that is not a separator. *)
Definition unc_intended (s : str) : bool :=
  match s with
  | a :: b :: c :: _ => is_sep a && is_sep b && negb (is_sep c)
  | _ => false
  end.

(** A leading run of two or more separators collapsed to one backslash. *)
Definition collapse_leading_seps (s : str) : str :=
  if 2 <=? span is_sep s then lit "\" ++ skipn (span is_sep s) s else s.

(** Windows [join] as the specification words it. *)
Definition join_spec (paths : list str) : result str :=
  let kept := filter non_empty paths in
  let joined := join_str (lit "\") kept in
  Win32.normalize
    (match kept with
     | first :: _ => if unc_intended first then joined else collapse_leading_seps joined
     | [] => collapse_leading_seps joined
     end).

(** ** The patterns read directly *)

(** Splitting at every character of a class. *)
Fixpoint split_cls (c : ascii -> bool) (s : str) : list str :=
  match s with
  | [] => [[]]
  | a :: s' =>
      if c a then [] :: split_cls c s'
      else match split_cls c s' with
           | [] => [[a]]
           | w :: ws => (a :: w) :: ws
           end
  end.

(** Whether a string starts with a drive: a letter and a colon. *)
Definition has_drive (s : str) : bool :=
  match s with
  | a :: b :: _ => is_letter a && Ascii.eqb b ":"
  | _ => false
  end.

(** The length of the UNC root at the start of a string: two separators, a
    host, separators, a share; 0 when there is none. *)
Definition unc_len (s : str) : nat :=
  match s with
  | a :: b :: s2 =>
      let n1 := span (non is_sep) s2 in
      let n2 := span is_sep (skipn n1 s2) in
      let n3 := span (non is_sep) (skipn n2 (skipn n1 s2)) in
      if is_sep a && is_sep b && (1 <=? n1) && (1 <=? n2) && (1 <=? n3)
      then 2 + n1 + n2 + n3
      else 0
  | _ => 0
  end.

(** The length of the device at the start of a string. *)
Definition device_len (s : str) : nat :=
  if has_drive s then 2 else unc_len s.

(** Whether the last, or the first, character of a string is of a class. *)
Definition ends_with_cls (c : ascii -> bool) (s : str) : bool :=
  match rev s with a :: _ => c a | [] => false end.

Definition starts_with_cls (c : ascii -> bool) (s : str) : bool :=
  match s with a :: _ => c a | [] => false end.

Definition ends_with_sep : str -> bool := ends_with_cls is_sep.

(** Every run of separators replaced by one backslash; [in_run] tells
    whether the character before was a separator. *)
Fixpoint squash_seps (in_run : bool) (s : str) : str :=
  match s with
  | [] => []
  | a :: s' =>
      if is_sep a then
        if in_run then squash_seps true s' else "\"%char :: squash_seps true s'
      else a :: squash_seps false s'
  end.

(** The UNC alternative of the device pattern. *)
Definition uncRe : regex :=
  (Rep is_sep 2 (Some 2) true +> Plus (non is_sep) +> Plus is_sep +> Plus (non is_sep))%re.

(** What [splitDeviceRe] captures: the device, the separator after it and
    the tail. *)
Definition device_of (s : str) : str := firstn (device_len s) s.

Definition after_device (s : str) : str := skipn (device_len s) s.

Definition slash_of (s : str) : str :=
  match after_device s with
  | a :: _ => if is_sep a then [a] else []
  | [] => []
  end.

Definition tail_of (s : str) : str :=
  match after_device s with
  | a :: r => if is_sep a then r else a :: r
  | [] => []
  end.

(** The state after the optional separator group [g]. *)
Definition after_slash (g : nat) (x : mstate) : mstate :=
  match rest x with
  | a :: _ => if is_sep a then close g x (advance x 1) else x
  | [] => x
  end.

(** The state after a group [g] that takes all the input left. *)
Definition take_all (g : nat) (x : mstate) : mstate :=
  close g x (advance x (length (rest x))).

(** ** Normal forms *)

(** A segment that the normalizer pushes: not empty, not "." and not "..". *)
Definition is_name (w : str) : Prop :=
  w <> [] /\ w <> lit "." /\ w <> lit "..".

(** The lists the normalizer returns: some ".." (none unless
    [allowAboveRoot]), then names. *)
Definition normal (allow : bool) (l : list str) : Prop :=
  exists k names,
    l = repeat (lit "..") k ++ names
    /\ Forall is_name names
    /\ (allow = false -> k = 0).

(** A string without a character of class [c]. *)
Definition free_of (c : ascii -> bool) (w : str) : Prop :=
  Forall (fun a => c a = false) w.

(** The segments of a path after normalization, for the separators of
    class [sepc]. *)
Definition norm_segs (sepc : ascii -> bool) (allow : bool) (t : str) : list str :=
  normalizeArray (split_cls sepc t) allow.

(** The normalized path that both [normalize] functions build from the
    segments: joined with the separator [sc], or "." when that is empty and
    the path is relative. *)
Definition norm_path (sepc : ascii -> bool) (sc : ascii) (allow : bool) (t : str)
  : str :=
  let path := join_str [sc] (norm_segs sepc allow t) in
  if is_empty path && allow then lit "." else path.

(** The same with a separator at the end when the input had one. *)
Definition norm_tail (sepc : ascii -> bool) (sc : ascii) (allow trailing : bool)
    (t : str) : str :=
  let path := norm_path sepc sc allow t in
  if negb (is_empty path) && trailing then path ++ [sc] else path.

(** What [statPath] tells about a path, read directly. *)
Definition unc_of (s : str) : bool :=
  negb (has_drive s) && negb (unc_len s =? 0).

Definition abs_of (s : str) : bool :=
  unc_of s || starts_with_cls is_sep (after_device s).

(** A first piece [cur] before a list of pieces. *)
Definition glue (cur : str) (l : list str) : list str :=
  match l with
  | [] => [cur]
  | w :: ws => (cur ++ w) :: ws
  end.

(** ** The dir and base patterns read directly *)

(** Whether a string is a segment followed by separators only. *)
Definition shape (sepc : ascii -> bool) (r : str) : bool :=
  let after := skipn (span (non sepc) r) r in
  Nat.eqb (span sepc after) (length after).

(** The length of the shortest prefix after which the rest is a segment
    followed by separators only: what the lazy dir group takes. *)
Fixpoint dir_len (sepc : ascii -> bool) (t : str) : nat :=
  if shape sepc t then 0
  else match t with
       | [] => 0
       | _ :: t' => S (dir_len sepc t')
       end.

Definition dirBody_of (sepc : ascii -> bool) (t : str) : str :=
  firstn (dir_len sepc t) t.

Definition base_of (sepc : ascii -> bool) (t : str) : str :=
  let r := skipn (dir_len sepc t) t in
  firstn (span (non sepc) r) r.

(** The base and ext groups with what follows them, and the whole pattern
    from the dir group on, for the separators [sepc], the extension
    characters [extc] and the group numbers [gd], [gb], [ge]. *)
Definition base_group (sepc extc : ascii -> bool) (gb ge : nat) : regex :=
  Grp gb ((Rep is_dot 1 (Some 2) true </> LazyPlus (non sepc) </> Eps)
          +> Grp ge ((Cls is_dot +> Star extc) </> Eps))%re.

Definition base_pat (sepc extc : ascii -> bool) (gb ge : nat) : regex :=
  (base_group sepc extc gb ge +> Star sepc +> Eol)%re.

Definition tail_pat (sepc extc : ascii -> bool) (gd gb ge : nat) : regex :=
  (Grp gd (LazyStar any) +> base_pat sepc extc gb ge)%re.

(** A pattern whose quantifiers all range over characters of class [c]. *)
Fixpoint only (c : ascii -> bool) (r : regex) : Prop :=
  match r with
  | Eps | Bol | Eol => True
  | Rep c' _ _ _ => forall a, c' a = true -> c a = true
  | Seq r1 r2 | Alt r1 r2 => only c r1 /\ only c r2
  | Grp _ r1 => only c r1
  end.

(** What POSIX [parse] finds in a path: the root, and the rest of the
    path after it. *)
Definition posix_root (s : str) : str :=
  if starts_with "/" s then lit "/" else [].

Definition posix_rest (s : str) : str := skipn (length (posix_root s)) s.

(** Whether a string starts with a host, separators and the first
    character of a share, as a UNC device does after its two separators;
    [state] is 0 before the host, 1 inside it and 2 inside the separators
    that follow it. *)
Fixpoint unc_scan (state : nat) (s : str) : bool :=
  match s with
  | [] => false
  | a :: s' =>
      match state with
      | 0 => if is_sep a then false else unc_scan 1 s'
      | 1 => if is_sep a then unc_scan 2 s' else unc_scan 1 s'
      | _ => if is_sep a then unc_scan 2 s' else true
      end
  end.

(** A drive and nothing else: a letter and a colon. *)
Definition is_bare_drive (s : str) : bool :=
  has_drive s && Nat.eqb (length s) 2.

(** ** Further readings of the code *)

(** A list without the empty strings at its start. *)
Fixpoint drop_empty (arr : list str) : list str :=
  match arr with
  | x :: arr' => if is_empty x then drop_empty arr' else arr
  | [] => []
  end.

(** The number of leading segments that two lists share. *)
Fixpoint common_prefix (a b : list str) : nat :=
  match a, b with
  | x :: a', y :: b' => if str_eqb x y then S (common_prefix a' b') else 0
  | _, _ => 0
  end.

(** ** The ext pattern read directly *)

(** The part of a string from its last "." on, if it has one. *)
Fixpoint ext_scan (b : str) : option str :=
  match b with
  | [] => None
  | a :: b' =>
      match ext_scan b' with
      | Some e => Some e
      | None => if is_dot a then Some (a :: b') else None
      end
  end.

(** The extension of a base name: the part from its last "." on, where a
    "." that is the first character of the base does not count; ".." has
    none. *)
Definition ext_of (b : str) : str :=
  if str_eqb b (lit "..") then []
  else match b with
       | [] => []
       | _ :: b' => match ext_scan b' with Some e => e | None => [] end
       end.

(** A "." followed by characters other than ".". *)
Definition is_dot_ext (e : str) : bool :=
  match e with
  | a :: w => is_dot a && forallb (non is_dot) w
  | [] => false
  end.

(** Whether the base group can stop after [k] characters of the base [b]:
    what is left is nothing or an extension. *)
Definition ext_at (b : str) (k : nat) : bool :=
  (k =? length b) || is_dot_ext (skipn k b).

(** The ext group, and what the base pattern matches once the part of the
    base before the ext group has taken [k] characters. *)
Definition ext_pat (extc : ascii -> bool) (ge : nat) : regex :=
  Grp ge ((Cls is_dot +> Star extc) </> Eps)%re.

Definition base_from (sepc extc : ascii -> bool) (gb ge : nat) (st1 : mstate)
    (k : nat) : list mstate :=
  flat_map (matches (Star sepc +> Eol)%re)
    (map (close gb st1) (matches (ext_pat extc ge) (advance st1 k))).

(** The lengths that the part before the ext group tries, in order: two
    dots or one, then one character or more of a name, then nothing. *)
Definition base_counts (sepc : ascii -> bool) (r : str) : list nat :=
  rev (seq 1 (Nat.min 2 (span is_dot r))) ++ seq 1 (span (non sepc) r) ++ [0].

(** ** The patterns of [_makeLong] read directly *)

(** A drive, a colon and a backslash at the start. *)
Definition drive_rooted (s : str) : bool :=
  match s with
  | a :: b :: c :: _ => is_letter a && Ascii.eqb b ":" && Ascii.eqb c "\"
  | _ => false
  end.

(** Two backslashes and a character other than "?" and "." at the start. *)
Definition unc_started (s : str) : bool :=
  match s with
  | a :: b :: c :: _ =>
      Ascii.eqb a "\" && Ascii.eqb b "\" && negb (Ascii.eqb c "?" || Ascii.eqb c ".")
  | _ => false
  end.

(** ** The cwd of a drive *)

(** The path that Windows [resolve] takes for the drive [d] once its
    arguments are used up (lines 157-162): the value of ["=" + d] in the
    environment when it starts with the drive and a backslash, the root of
    the drive otherwise. *)
Definition drive_cwd (env : str -> option str) (d : str) : str :=
  match env (lit "=" ++ d) with
  | Some e =>
      if is_empty e
         || negb (str_eqb (toLowerCase (firstn 3 e)) (toLowerCase d ++ lit "\"))
      then d ++ lit "\"
      else e
  | None => d ++ lit "\"
  end.

(** ** States of the loop of Windows [resolve] *)

(** Two states of the loop that differ at most in [isUnc]. *)
Definition same_resolved (a b : Win32.rstate) : Prop :=
  Win32.resolvedDevice a = Win32.resolvedDevice b
  /\ Win32.resolvedTail a = Win32.resolvedTail b
  /\ Win32.resolvedAbsolute a = Win32.resolvedAbsolute b.

(** * Properties *)

(** ** Strings and lists *)

Lemma str_eqb_spec (a b : str) : reflect (a = b) (str_eqb a b).
Proof.
  revert b; induction a as [|x a IH]; intros [|y b]; simpl;
    try (constructor; congruence).
  destruct (Ascii.eqb_spec x y) as [->|N]; simpl.
  - destruct (IH b) as [->|N]; constructor; congruence.
  - constructor; congruence.
Qed.

Lemma str_eqb_refl (a : str) : str_eqb a a = true.
Proof. destruct (str_eqb_spec a a); congruence. Qed.

Lemma last_snoc {A} (l : list A) (x d : A) : last (l ++ [x]) d = x.
Proof. apply last_last. Qed.

(** ** The segment normalizer *)

Lemma normalizeArray_fold_scan (allow : bool) (parts stack : list str) :
  fold_left (normalizeArray_step allow) parts (rev stack)
  = normalize_scan allow stack parts.
Proof.
  revert stack; induction parts as [|p ps IH]; intros stack; [reflexivity|].
  cbn [fold_left normalize_scan].
  set (res := normalizeArray_step allow (rev stack) p).
  assert (E : res = normalizeArray_step allow (rev stack) p) by reflexivity.
  clearbody res. unfold normalizeArray_step in E.
  destruct (is_empty p || str_eqb p (lit ".")); [subst res; apply IH|].
  destruct (str_eqb p (lit "..")).
  - destruct stack as [|top below].
    + simpl in E. subst res. destruct allow; [apply (IH [_]) | apply (IH [])].
    + replace (length (rev (top :: below)) =? 0) with false in E
        by (symmetry; apply Nat.eqb_neq; rewrite length_rev; simpl; lia).
      simpl rev in E. rewrite last_snoc, removelast_last in E.
      destruct (str_eqb top (lit "..")); simpl in E; subst res.
      * destruct allow; [apply (IH (_ :: top :: below)) | apply (IH (top :: below))].
      * apply IH.
  - subst res. apply (IH (p :: stack)).
Qed.

(** C1: [normalizeArray] is the left-to-right scan with an output stack that
    skips empty segments and ".", pops on ".." when the stack is non-empty
    and its top is not "..", otherwise pushes ".." when [allowAboveRoot]
    holds and drops it when not, and pushes every other segment; the three
    examples of the specification hold. *)
Theorem C1_normalizeArray_scan :
  (forall parts allowAboveRoot,
      normalizeArray parts allowAboveRoot = normalize_scan allowAboveRoot [] parts)
  /\ normalizeArray [lit "a"; lit "."; lit "b"; lit ".."] false = [lit "a"]
  /\ normalizeArray [lit ".."; lit "a"] true = [lit ".."; lit "a"]
  /\ normalizeArray [lit ".."; lit "a"] false = [lit "a"].
Proof.
  split; [|repeat split; reflexivity].
  intros parts allow. exact (normalizeArray_fold_scan allow parts []).
Qed.

(** ** Arguments that are not strings *)

Lemma isString_VStr (v : value) : isString v = true -> exists s, v = VStr s.
Proof. destruct v; try discriminate; eauto. Qed.

Lemma as_string_not_string (msg : str) (v : value) :
  isString v = false -> as_string msg v = Throw (TypeError msg).
Proof. unfold as_string; intros ->; reflexivity. Qed.

Lemma as_string_VStr (msg s : str) : as_string msg (VStr s) = Ok s.
Proof. reflexivity. Qed.

Lemma posix_join_loop_throws (pre post : list value) (v : value) (path : str) :
  isString v = false ->
  Posix.join_loop (pre ++ v :: post) path = Throw join_error.
Proof.
  intros Hv; revert path; induction pre as [|w pre IH]; intros path; simpl.
  - rewrite (as_string_not_string _ _ Hv); reflexivity.
  - destruct (as_string _ w) as [s|e] eqn:E; simpl.
    + apply IH.
    + unfold as_string in E. destruct (isString w); simpl in E.
      * destruct w; inversion E; reflexivity.
      * inversion E; reflexivity.
Qed.

Lemma win32_join_filter_throws (pre post : list value) (v : value) :
  isString v = false ->
  Win32.join_filter (pre ++ v :: post) = Throw join_error.
Proof.
  intros Hv; induction pre as [|w pre IH]; simpl.
  - rewrite (as_string_not_string _ _ Hv); reflexivity.
  - destruct (as_string _ w) as [s|e] eqn:E; simpl.
    + rewrite IH; reflexivity.
    + unfold as_string in E. destruct (isString w); simpl in E.
      * destruct w; inversion E; reflexivity.
      * inversion E; reflexivity.
Qed.

Lemma posix_resolve_loop_throws (cwd : str) (post pre : list value) (v : value)
      (acc : str) :
  isString v = false ->
  Forall posix_relative post ->
  Posix.resolve_loop cwd (rev post ++ v :: pre) (acc, false) = Throw resolve_error.
Proof.
  intros Hv Hpost. rewrite <- (rev_involutive post) in Hpost.
  apply Forall_rev in Hpost. rewrite rev_involutive in Hpost.
  revert acc; induction Hpost as [|w l [s [-> Hs]] _ IH]; intros acc.
  - simpl. unfold Posix.resolve_visit.
    rewrite (as_string_not_string _ _ Hv); reflexivity.
  - cbn [app Posix.resolve_loop snd]. unfold Posix.resolve_visit.
    rewrite as_string_VStr. cbn [bind].
    destruct (is_empty s); cbn [bind fst]; [apply IH|].
    unfold Posix.isAbsolute in Hs. rewrite Hs. apply IH.
Qed.

(** ** [format] on [null] *)

(** C10: the object guard takes [null] for an object, so [format(null)] on
    either driver does not signal the invalid-argument error for a
    non-object and fails instead when it reads the [root] property of
    [null]. *)
Theorem C10_format_null :
  isObject VNull = true
  /\ Posix.format VNull = Throw (NullRead (lit "root"))
  /\ Win32.format VNull = Throw (NullRead (lit "root"))
  /\ is_invalid_argument (Posix.format VNull) = false
  /\ is_invalid_argument (Win32.format VNull) = false.
Proof. repeat split. Qed.

(** ** Splitting at a separator *)

Lemma split_chr_not_nil (c : ascii) (s : str) : split_chr c s <> [].
Proof.
  destruct s as [|a s]; simpl; [discriminate|].
  destruct (Ascii.eqb a c); [discriminate|].
  destruct (split_chr c s); discriminate.
Qed.

Lemma split_chr_app (c : ascii) (a b : str) :
  split_chr c (a ++ c :: b) = split_chr c a ++ split_chr c b.
Proof.
  induction a as [|x a IH]; simpl.
  - rewrite Ascii.eqb_refl. reflexivity.
  - destruct (Ascii.eqb x c); [rewrite IH; reflexivity|].
    rewrite IH. pose proof (split_chr_not_nil c a) as N.
    destruct (split_chr c a); [congruence | reflexivity].
Qed.

Lemma normalizeArray_step_empty (allow : bool) (res : list str) :
  normalizeArray_step allow res [] = res.
Proof. reflexivity. Qed.

Lemma fold_normalizeArray_filter (allow : bool) (l res : list str) :
  fold_left (normalizeArray_step allow) (filter non_empty l) res
  = fold_left (normalizeArray_step allow) l res.
Proof.
  revert res; induction l as [|p l IH]; intros res; simpl; [reflexivity|].
  destruct p as [|a p]; simpl; [apply IH|].
  apply IH.
Qed.

Lemma normalizeArray_filter (allow : bool) (l : list str) :
  normalizeArray (filter non_empty l) allow = normalizeArray l allow.
Proof. apply fold_normalizeArray_filter. Qed.

(** ** POSIX [resolve] *)

Lemma segments_prepend (p acc1 acc2 : str) :
  segments acc1 = segments acc2 ->
  segments (p ++ lit "/" ++ acc1) = segments (p ++ lit "/" ++ acc2).
Proof.
  unfold segments; intros H. simpl.
  rewrite !split_chr_app, !filter_app, H. reflexivity.
Qed.

Lemma segments_skip (acc : str) : segments (lit "/" ++ acc) = segments acc.
Proof. reflexivity. Qed.

Lemma posix_resolve_loop_scan (cwd : str) (rp : list str) (acc_c acc_s : str) :
  segments acc_c = segments acc_s ->
  exists acc,
    Posix.resolve_loop cwd (map VStr rp) (acc_c, false)
    = Ok (acc, snd (resolve_scan cwd rp acc_s))
    /\ segments acc = segments (fst (resolve_scan cwd rp acc_s)).
Proof.
  revert acc_c acc_s; induction rp as [|p ps IH]; intros acc_c acc_s H.
  - cbn [map Posix.resolve_loop snd resolve_scan fst].
    unfold Posix.resolve_visit. rewrite as_string_VStr. cbn [bind fst].
    destruct cwd as [|a cwd']; cbn [is_empty].
    + exists acc_c. split; [reflexivity|]. rewrite H. reflexivity.
    + eexists. split; [reflexivity|]. apply (segments_prepend (a :: cwd')), H.
  - cbn [map Posix.resolve_loop snd resolve_scan].
    unfold Posix.resolve_visit. rewrite as_string_VStr. cbn [bind fst].
    destruct p as [|a p']; cbn [is_empty bind].
    + cbn [starts_with]. apply IH. rewrite H. reflexivity.
    + destruct (starts_with "/" (a :: p')) eqn:A.
      * destruct ps; cbn [map Posix.resolve_loop snd fst];
          (eexists; split; [reflexivity|]; apply (segments_prepend (a :: p')), H).
      * apply IH. apply (segments_prepend (a :: p')), H.
Qed.

(** C6: POSIX [resolve] on string arguments is the scan from the last
    argument to the first, then [cwd], that prepends each path onto an
    accumulator joined by "/" and stops at the first path starting with "/";
    the accumulated segments are normalized with [allowAboveRoot] = not
    absolute, and the result is ("/" if absolute) followed by the normalized
    path, or "." when that is empty.  In particular
    [resolve("/a", "b") = "/a/b"]. *)
Theorem C6_posix_resolve :
  (forall (cwd : str) (paths : list str),
      Posix.resolve cwd (map VStr paths) = Ok (resolve_spec cwd paths))
  /\ (forall cwd : str,
         Posix.resolve cwd [VStr (lit "/a"); VStr (lit "b")] = Ok (lit "/a/b")).
Proof.
  split; [|reflexivity].
  intros cwd paths. unfold Posix.resolve, resolve_spec.
  rewrite <- map_rev.
  destruct (posix_resolve_loop_scan cwd (rev paths) [] [] eq_refl) as [acc [E S]].
  rewrite E. cbn [bind fst snd].
  destruct (resolve_scan cwd (rev paths) []) as [acc_s absolute].
  cbn [fst snd] in *. unfold segments in S.
  rewrite <- (normalizeArray_filter _ (split_chr "/" acc)), S, normalizeArray_filter.
  reflexivity.
Qed.

(** ** The matcher *)

Lemma in_counts (lo : nat) (hi : option nat) (g : bool) (avail k : nat) :
  In k (counts lo hi g avail)
  <-> lo <= k /\ k <= avail /\ match hi with Some h => k <= h | None => True end.
Proof.
  unfold counts.
  assert (S : forall top, In k (if g then rev (seq lo (S top - lo)) else seq lo (S top - lo))
                          <-> lo <= k /\ k <= top).
  { intros top. destruct g; rewrite <- ?in_rev, in_seq; lia. }
  rewrite S. destruct hi as [h|]; lia.
Qed.

Lemma in_matches_rep (c : ascii -> bool) (lo : nat) (hi : option nat) (g : bool)
      (st : mstate) (k : nat) :
  lo <= k -> k <= span c (rest st) ->
  match hi with Some h => k <= h | None => True end ->
  In (advance st k) (matches (Rep c lo hi g) st).
Proof.
  intros H1 H2 H3. simpl. apply in_map, in_counts. auto.
Qed.

Lemma in_matches_seq (r1 r2 : regex) (a b c : mstate) :
  In b (matches r1 a) -> In c (matches r2 b) -> In c (matches (Seq r1 r2) a).
Proof. intros H1 H2. simpl. apply in_flat_map. eauto. Qed.

Lemma in_matches_alt_l (r1 r2 : regex) (a b : mstate) :
  In b (matches r1 a) -> In b (matches (Alt r1 r2) a).
Proof. intros H. simpl. apply in_or_app. auto. Qed.

Lemma in_matches_alt_r (r1 r2 : regex) (a b : mstate) :
  In b (matches r2 a) -> In b (matches (Alt r1 r2) a).
Proof. intros H. simpl. apply in_or_app. auto. Qed.

Lemma in_matches_grp (i : nat) (r : regex) (a b : mstate) :
  In b (matches r a) -> In (close i a b) (matches (Grp i r) a).
Proof. intros H. simpl. apply in_map. exact H. Qed.

Lemma in_matches_eps (a : mstate) : In a (matches Eps a).
Proof. left; reflexivity. Qed.

Lemma in_matches_eol (a : mstate) : rest a = [] -> In a (matches Eol a).
Proof. intros H. simpl. rewrite H. left; reflexivity. Qed.

Lemma in_matches_bol (a : mstate) : pos a = 0 -> In a (matches Bol a).
Proof. intros H. simpl. rewrite H. left; reflexivity. Qed.

Lemma span_any (s : str) : span any s = length s.
Proof. induction s; simpl; congruence. Qed.

Lemma span_le (c : ascii -> bool) (s : str) : span c s <= length s.
Proof. induction s as [|a s IH]; simpl; [lia|]. destruct (c a); simpl; lia. Qed.

(** A pattern that matches at index 0 makes [exec] return a match array
    with one element per group. *)
Lemma exec_matches (re : regexp) (s : str) (st : mstate) :
  In st (matches (body re) (start 0 s)) ->
  exists m, exec re s = Some m /\ length (groups m) = ngroups re.
Proof.
  intros H. unfold exec. destruct s as [|a s]; simpl;
    (destruct (matches (body re) (start 0 _)) as [|st0 l]; [destruct H|]);
    simpl; eexists; (split; [reflexivity|]); simpl;
    rewrite length_map, length_seq; reflexivity.
Qed.

(** ** Every string is split *)

Lemma posix_splitPathRe_matches (s : str) :
  exists st, In st (matches (body Posix.splitPathRe) (start 0 s)).
Proof.
  eexists. cbn [body Posix.splitPathRe].
  eapply in_matches_seq; [apply in_matches_bol; reflexivity|].
  eapply in_matches_seq.
  { apply in_matches_grp, in_matches_alt_r, in_matches_eps. }
  eapply in_matches_seq.
  { apply in_matches_grp.
    apply (in_matches_rep any 0 None false) with (k := length s);
      [lia | cbn [close rest start]; rewrite span_any; lia | exact I]. }
  eapply in_matches_seq.
  { apply in_matches_grp. eapply in_matches_seq.
    - apply in_matches_alt_r, in_matches_alt_r, in_matches_eps.
    - apply in_matches_grp, in_matches_alt_r, in_matches_eps. }
  eapply in_matches_seq.
  { apply (in_matches_rep is_slash 0 None true) with (k := 0); [lia | lia | exact I]. }
  apply in_matches_eol. cbn. rewrite skipn_all. reflexivity.
Qed.

Lemma win32_splitDeviceRe_matches (s : str) :
  exists st, In st (matches (body Win32.splitDeviceRe) (start 0 s)).
Proof.
  eexists. cbn [body Win32.splitDeviceRe].
  eapply in_matches_seq; [apply in_matches_bol; reflexivity|].
  eapply in_matches_seq; [apply in_matches_alt_r, in_matches_eps|].
  eapply in_matches_seq; [apply in_matches_alt_r, in_matches_eps|].
  eapply in_matches_seq.
  { apply in_matches_grp.
    apply (in_matches_rep any 0 None false) with (k := length s);
      [lia | cbn [rest start]; rewrite span_any; lia | exact I]. }
  apply in_matches_eol. cbn. rewrite skipn_all. reflexivity.
Qed.

Lemma win32_splitTailRe_matches (s : str) :
  exists st, In st (matches (body Win32.splitTailRe) (start 0 s)).
Proof.
  eexists. cbn [body Win32.splitTailRe].
  eapply in_matches_seq; [apply in_matches_bol; reflexivity|].
  eapply in_matches_seq.
  { apply in_matches_grp.
    apply (in_matches_rep any 0 None false) with (k := length s);
      [lia | cbn [rest start]; rewrite span_any; lia | exact I]. }
  eapply in_matches_seq.
  { apply in_matches_grp. eapply in_matches_seq.
    - apply in_matches_alt_r, in_matches_alt_r, in_matches_eps.
    - apply in_matches_grp, in_matches_alt_r, in_matches_eps. }
  eapply in_matches_seq.
  { apply (in_matches_rep is_sep 0 None true) with (k := 0); [lia | lia | exact I]. }
  apply in_matches_eol. cbn. rewrite skipn_all. reflexivity.
Qed.

Lemma posix_splitPath_total (s : str) :
  exists parts, Posix.splitPath s = Ok parts /\ length parts = 4.
Proof.
  destruct (posix_splitPathRe_matches s) as [st H].
  destruct (exec_matches Posix.splitPathRe s st H) as [m [E L]].
  exists (groups m). unfold Posix.splitPath. rewrite E. auto.
Qed.

Lemma win32_splitPath_total (s : str) :
  exists parts, Win32.splitPath s = Ok parts /\ length parts = 4.
Proof.
  destruct (win32_splitDeviceRe_matches s) as [st H].
  destruct (exec_matches Win32.splitDeviceRe s st H) as [m [E _]].
  unfold Win32.splitPath. rewrite E.
  destruct (win32_splitTailRe_matches (group m 3)) as [st2 H2].
  destruct (exec_matches Win32.splitTailRe _ st2 H2) as [m2 [E2 _]].
  rewrite E2. eexists. split; reflexivity.
Qed.

(** C9: on either driver [parse] returns a [PathInfo] for every string: the
    split pattern matches every string and yields four components, so the
    branch that rejects an input that does not decompose into four
    components is never taken. *)
Theorem C9_parse_total (s : str) :
  (exists parts, Posix.splitPath s = Ok parts /\ length parts = 4)
  /\ (exists parts, Win32.splitPath s = Ok parts /\ length parts = 4)
  /\ (exists info, Posix.parse (VStr s) = Ok info)
  /\ (exists info, Win32.parse (VStr s) = Ok info).
Proof.
  pose proof (posix_splitPath_total s) as P.
  pose proof (win32_splitPath_total s) as W.
  split; [exact P|]. split; [exact W|]. split.
  - destruct P as [parts [E L]]. unfold Posix.parse. cbn [isString typeof negb].
    change (str_eqb (lit "string") (lit "string")) with true. cbn [negb].
    rewrite E. cbn [bind]. rewrite L. simpl. eexists; reflexivity.
  - destruct W as [parts [E L]]. unfold Win32.parse. cbn [isString typeof negb].
    change (str_eqb (lit "string") (lit "string")) with true. cbn [negb].
    rewrite E. cbn [bind]. rewrite L. simpl. eexists; reflexivity.
Qed.

(** ** What a match consumes and captures *)

Lemma in_matches_seq_inv (r1 r2 : regex) (a c : mstate) :
  In c (matches (Seq r1 r2) a) ->
  exists b, In b (matches r1 a) /\ In c (matches r2 b).
Proof. simpl. intros H. apply in_flat_map in H. exact H. Qed.

Lemma in_matches_grp_inv (i : nat) (r : regex) (a c : mstate) :
  In c (matches (Grp i r) a) ->
  exists b, In b (matches r a) /\ c = close i a b.
Proof.
  simpl. intros H. apply in_map_iff in H. destruct H as [b [E H]]. eauto.
Qed.

Lemma in_matches_rep_inv (c : ascii -> bool) (lo : nat) (hi : option nat) (g : bool)
      (a b : mstate) :
  In b (matches (Rep c lo hi g) a) ->
  exists k, b = advance a k /\ lo <= k /\ k <= span c (rest a)
            /\ match hi with Some h => k <= h | None => True end.
Proof.
  simpl. intros H. apply in_map_iff in H. destruct H as [k [E H]].
  apply in_counts in H. exists k. auto.
Qed.

(** A match consumes a prefix of the input. *)
Lemma matches_consumes (r : regex) (st st' : mstate) :
  In st' (matches r st) ->
  exists k, k <= length (rest st) /\ pos st' = pos st + k
            /\ rest st' = skipn k (rest st).
Proof.
  revert st st'; induction r as [| | |c lo hi g|r1 IH1 r2 IH2|r1 IH1 r2 IH2|i r IH];
    intros st st' H.
  - destruct H as [<-|[]]. exists 0. simpl. repeat split; lia.
  - simpl in H. destruct (pos st =? 0); [|destruct H].
    destruct H as [<-|[]]. exists 0. simpl. repeat split; lia.
  - simpl in H. destruct (is_empty (rest st)); [|destruct H].
    destruct H as [<-|[]]. exists 0. simpl. repeat split; lia.
  - apply in_matches_rep_inv in H. destruct H as [k [-> [_ [H _]]]].
    exists k. pose proof (span_le c (rest st)). simpl. repeat split; lia.
  - apply in_matches_seq_inv in H. destruct H as [b [H1 H2]].
    destruct (IH1 _ _ H1) as [k1 [L1 [P1 R1]]].
    destruct (IH2 _ _ H2) as [k2 [L2 [P2 R2]]].
    rewrite R1, length_skipn in L2.
    exists (k1 + k2). repeat split; [lia | lia |].
    rewrite R2, R1, skipn_skipn. f_equal. lia.
  - simpl in H. apply in_app_or in H. destruct H; eauto.
  - apply in_matches_grp_inv in H. destruct H as [b [H ->]].
    destruct (IH _ _ H) as [k [L [P R]]]. exists k. simpl. auto.
Qed.

(** A match leaves alone the groups that do not occur in its pattern. *)
Lemma matches_keeps_caps (i : nat) (r : regex) (st st' : mstate) :
  has_group i r = false ->
  In st' (matches r st) ->
  caps st' i = caps st i.
Proof.
  revert st st'; induction r as [| | |c lo hi g|r1 IH1 r2 IH2|r1 IH1 r2 IH2|j r IH];
    intros st st' G H.
  - destruct H as [<-|[]]. reflexivity.
  - simpl in H. destruct (pos st =? 0); [|destruct H].
    destruct H as [<-|[]]. reflexivity.
  - simpl in H. destruct (is_empty (rest st)); [|destruct H].
    destruct H as [<-|[]]. reflexivity.
  - apply in_matches_rep_inv in H. destruct H as [k [-> _]]. reflexivity.
  - simpl in G. apply orb_false_iff in G. destruct G as [G1 G2].
    apply in_matches_seq_inv in H. destruct H as [b [H1 H2]].
    rewrite (IH2 _ _ G2 H2). apply (IH1 _ _ G1 H1).
  - simpl in G. apply orb_false_iff in G. destruct G as [G1 G2].
    simpl in H. apply in_app_or in H. destruct H; eauto.
  - simpl in G. apply orb_false_iff in G. destruct G as [G1 G2].
    apply in_matches_grp_inv in H. destruct H as [b [H ->]].
    simpl. unfold set_cap. rewrite Nat.eqb_sym, G1. apply (IH _ _ G2 H).
Qed.

Lemma firstn_plus {A} (k1 k2 : nat) (l : list A) :
  firstn (k1 + k2) l = firstn k1 l ++ firstn k2 (skipn k1 l).
Proof.
  revert l; induction k1 as [|k1 IH]; intros l; [reflexivity|].
  destruct l as [|a l]; simpl; [rewrite firstn_nil; reflexivity|].
  rewrite IH. reflexivity.
Qed.

(** A group that ends with another group captures a string that ends with
    what the inner group captures. *)
Lemma nested_group_suffix (gb ge : nat) (A E : regex) (st st' : mstate) :
  gb <> ge ->
  In st' (matches (Grp gb (Seq A (Grp ge E))) st) ->
  exists x e, caps st' gb = Some (x ++ e) /\ caps st' ge = Some e.
Proof.
  intros N H.
  apply in_matches_grp_inv in H. destruct H as [b [H ->]].
  apply in_matches_seq_inv in H. destruct H as [st1 [H1 H2]].
  apply in_matches_grp_inv in H2. destruct H2 as [st2 [H2 ->]].
  destruct (matches_consumes _ _ _ H1) as [k1 [L1 [P1 R1]]].
  destruct (matches_consumes _ _ _ H2) as [k2 [L2 [P2 R2]]].
  exists (firstn k1 (rest st)), (firstn k2 (skipn k1 (rest st))).
  simpl. unfold set_cap. rewrite Nat.eqb_refl.
  replace (ge =? gb) with false by (symmetry; apply Nat.eqb_neq; congruence).
  rewrite Nat.eqb_refl. rewrite P2, P1, R1.
  replace (pos st + k1 + k2 - pos st) with (k1 + k2) by lia.
  replace (pos st + k1 + k2 - (pos st + k1)) with k2 by lia.
  rewrite firstn_plus. auto.
Qed.

(** When the pattern matches at index 0, [exec] returns its first match
    there. *)
Lemma exec_first (re : regexp) (s : str) (st0 : mstate) :
  In st0 (matches (body re) (start 0 s)) ->
  exists st,
    In st (matches (body re) (start 0 s))
    /\ hd_error (matches (body re) (start 0 s)) = Some st
    /\ exec re s
       = Some (RMatch 0 (firstn (pos st - 0) s) (map (caps st) (seq 1 (ngroups re)))).
Proof.
  intros H. unfold exec.
  destruct (matches (body re) (start 0 s)) as [|st l] eqn:E; [destruct H|].
  exists st. split; [left; reflexivity|]. split; [reflexivity|].
  destruct s; simpl; rewrite E; reflexivity.
Qed.

Lemma slice0_drop_suffix (x e : str) :
  slice0 (x ++ e) (Z.of_nat (length (x ++ e)) - Z.of_nat (length e)) = x.
Proof.
  unfold slice0. rewrite length_app.
  replace (Z.of_nat (length x + length e) - Z.of_nat (length e))%Z
    with (Z.of_nat (length x)) by lia.
  destruct (Z.ltb_spec (Z.of_nat (length x)) 0); [lia|].
  rewrite Z.min_l by lia. rewrite Nat2Z.id.
  rewrite firstn_app, Nat.sub_diag, firstn_all. simpl. apply app_nil_r.
Qed.

(** ** The parts of a parsed path *)

Lemma posix_split_suffix (s : str) :
  exists parts x e,
    Posix.splitPath s = Ok parts
    /\ length parts = 4
    /\ nth 2 parts None = Some (x ++ e)
    /\ nth 3 parts None = Some e.
Proof.
  destruct (posix_splitPathRe_matches s) as [st0 H0].
  destruct (exec_first Posix.splitPathRe s st0 H0) as [st [H [_ E]]].
  unfold Posix.splitPath. rewrite E. cbn [groups].
  cbn [body Posix.splitPathRe] in H.
  apply in_matches_seq_inv in H. destruct H as [a [_ H]].
  apply in_matches_seq_inv in H. destruct H as [b [_ H]].
  apply in_matches_seq_inv in H. destruct H as [c [_ H]].
  apply in_matches_seq_inv in H. destruct H as [d [Hd H]].
  apply nested_group_suffix in Hd; [|discriminate].
  destruct Hd as [x [e [C3 C4]]].
  exists (map (caps st) (seq 1 (ngroups Posix.splitPathRe))), x, e.
  split; [reflexivity|]. split; [reflexivity|].
  cbn [ngroups Posix.splitPathRe seq map nth].
  rewrite (matches_keeps_caps 3 (Star is_slash +> Eol)%re d st eq_refl H).
  rewrite (matches_keeps_caps 4 (Star is_slash +> Eol)%re d st eq_refl H). auto.
Qed.

Lemma win32_split_suffix (s : str) :
  exists d t x e, Win32.splitPath s = Ok [d; t; x ++ e; e].
Proof.
  destruct (win32_splitDeviceRe_matches s) as [st H].
  destruct (exec_matches Win32.splitDeviceRe s st H) as [m [E _]].
  unfold Win32.splitPath. rewrite E.
  destruct (win32_splitTailRe_matches (group m 3)) as [st0 H0].
  destruct (exec_first Win32.splitTailRe _ st0 H0) as [st2 [H2 [_ E2]]].
  rewrite E2.
  cbn [body Win32.splitTailRe] in H2.
  apply in_matches_seq_inv in H2. destruct H2 as [a [_ H2]].
  apply in_matches_seq_inv in H2. destruct H2 as [b [_ H2]].
  apply in_matches_seq_inv in H2. destruct H2 as [c [Hc H2]].
  apply nested_group_suffix in Hc; [|discriminate].
  destruct Hc as [x [e [C2 C3]]].
  exists (group m 1 ++ group m 2), (or_empty (caps st2 1)), x, e.
  unfold group. cbn [groups ngroups Win32.splitTailRe seq map nth Nat.sub].
  rewrite (matches_keeps_caps 2 (Star is_sep +> Eol)%re c st2 eq_refl H2).
  rewrite (matches_keeps_caps 3 (Star is_sep +> Eol)%re c st2 eq_refl H2).
  rewrite C2, C3. destruct (caps st2 1); reflexivity.
Qed.

(** C8: for every string, on each driver, [parse] returns a [PathInfo] whose
    [base] is the concatenation of its [name] and its [ext]. *)
Theorem C8_parse_base_is_name_ext (s : str) :
  (exists info, Posix.parse (VStr s) = Ok info /\ base info = name info ++ ext info)
  /\ (exists info, Win32.parse (VStr s) = Ok info /\ base info = name info ++ ext info).
Proof.
  split.
  - destruct (posix_split_suffix s) as [parts [x [e [E [L [B X]]]]]].
    unfold Posix.parse. cbn [isString typeof].
    change (str_eqb (lit "string") (lit "string")) with true. cbn [negb].
    rewrite E. cbn [bind]. rewrite L. cbn [Nat.eqb negb].
    eexists. split; [reflexivity|]. cbn [base name ext].
    rewrite B, X. cbn [or_empty]. rewrite slice0_drop_suffix. reflexivity.
  - destruct (win32_split_suffix s) as [d [t [x [e E]]]].
    unfold Win32.parse. cbn [isString typeof].
    change (str_eqb (lit "string") (lit "string")) with true. cbn [negb].
    rewrite E. cbn [bind length Nat.eqb negb].
    eexists. split; [reflexivity|]. cbn [base name ext nth].
    rewrite slice0_drop_suffix. reflexivity.
Qed.

(** ** Windows [resolve] returns *)

Lemma win32_statPath_total (s : str) : exists r, Win32.statPath s = Ok r.
Proof.
  destruct (win32_splitDeviceRe_matches s) as [st H].
  destruct (exec_matches Win32.splitDeviceRe s st H) as [m [E _]].
  unfold Win32.statPath. rewrite E. eexists; reflexivity.
Qed.

Lemma win32_resolve_visit_total (s : str) (st : Win32.rstate) :
  exists t, Win32.resolve_visit (VStr s) st = Ok t.
Proof.
  unfold Win32.resolve_visit. rewrite as_string_VStr. cbn [bind].
  destruct (is_empty s); [eexists; reflexivity|].
  destruct (win32_statPath_total s) as [r ->]. cbn [bind].
  repeat match goal with
         | |- context [if ?c then Ok _ else _] => destruct c
         end; eexists; reflexivity.
Qed.

Lemma win32_resolve_path_string (cwd : str) (env : str -> option str)
      (st : Win32.rstate) :
  exists s, Win32.resolve_path cwd env None st = VStr s.
Proof.
  unfold Win32.resolve_path.
  destruct (is_empty (Win32.resolvedDevice st)); [eexists; reflexivity|].
  destruct (env _) as [p|]; [|eexists; reflexivity].
  match goal with |- context [if ?c then _ else _] => destruct c end;
    eexists; reflexivity.
Qed.

Lemma win32_resolve_loop_total (cwd : str) (env : str -> option str)
      (l : list str) (st : Win32.rstate) :
  exists st', Win32.resolve_loop cwd env (map VStr l) st = Ok st'.
Proof.
  revert st; induction l as [|s l IH]; intros st; cbn [map Win32.resolve_loop].
  - destruct (win32_resolve_path_string cwd env st) as [s ->].
    destruct (win32_resolve_visit_total s st) as [t ->]. cbn [bind].
    destruct t; eexists; reflexivity.
  - cbn [Win32.resolve_path].
    destruct (win32_resolve_visit_total s st) as [t ->]. cbn [bind].
    destruct t; [apply IH | eexists; reflexivity].
Qed.

Lemma win32_resolve_total (cwd : str) (env : str -> option str) (l : list str) :
  exists r, Win32.resolve cwd env (map VStr l) = Ok r.
Proof.
  unfold Win32.resolve. rewrite <- map_rev.
  destruct (win32_resolve_loop_total cwd env (rev l) (Win32.mkRState [] [] false false))
    as [st ->].
  cbn [bind]. eexists; reflexivity.
Qed.

(** ** Arguments that are not strings: where the scan of [resolve] stops *)

Lemma existsb_rev {A} (f : A -> bool) (l : list A) :
  existsb f (rev l) = existsb f l.
Proof.
  induction l as [|a l IH]; [reflexivity|].
  simpl. rewrite existsb_app, IH. simpl. rewrite orb_false_r. apply orb_comm.
Qed.

Lemma posix_resolve_loop_done (cwd : str) (l : list value) (acc : str * bool) :
  snd acc = true -> Posix.resolve_loop cwd l acc = Ok acc.
Proof. intros H. destruct l; cbn [Posix.resolve_loop]; rewrite H; reflexivity. Qed.

Lemma posix_resolve_loop_stops (cwd cwd' : str) (rp : list str) (p : str)
      (rest rest' : list value) (acc : str * bool) :
  Posix.isAbsolute p = true ->
  Posix.resolve_loop cwd (map VStr rp ++ VStr p :: rest) acc
  = Posix.resolve_loop cwd' (map VStr rp ++ VStr p :: rest') acc.
Proof.
  intros A. revert acc; induction rp as [|x rp IH]; intros acc.
  - cbn [map app Posix.resolve_loop]. destruct (snd acc); [reflexivity|].
    unfold Posix.resolve_visit. rewrite as_string_VStr. cbn [bind].
    destruct p as [|c p]; [discriminate A|]. cbn [is_empty bind].
    change (starts_with "/" (c :: p)) with (Posix.isAbsolute (c :: p)).
    rewrite A. rewrite !posix_resolve_loop_done by reflexivity. reflexivity.
  - cbn [map app Posix.resolve_loop]. destruct (snd acc); [reflexivity|].
    unfold Posix.resolve_visit. rewrite as_string_VStr. cbn [bind].
    destruct (is_empty x); cbn [bind]; apply IH.
Qed.

Lemma win32_scan_stops_eq (paths : list str) :
  win32_scan_stops paths = scan_stops [] false (rev paths).
Proof.
  unfold win32_scan_stops, scan_stops, scan_device, settled_device.
  cbn [is_empty orb]. rewrite existsb_rev. reflexivity.
Qed.


Lemma win32_visit_scan (s : str) (st : Win32.rstate) :
  is_empty (Win32.resolvedDevice st) || negb (Win32.resolvedAbsolute st) = true ->
  exists t,
    Win32.resolve_visit (VStr s) st = Ok t
    /\ match t with
       | Win32.Break _ =>
           forall rp,
             scan_stops (Win32.resolvedDevice st) (Win32.resolvedAbsolute st) (s :: rp)
             = true
       | Win32.Next st' =>
           is_empty (Win32.resolvedDevice st') || negb (Win32.resolvedAbsolute st') = true
           /\ forall rp,
               scan_stops (Win32.resolvedDevice st) (Win32.resolvedAbsolute st) (s :: rp)
               = scan_stops (Win32.resolvedDevice st') (Win32.resolvedAbsolute st') rp
       end.
Proof.
  intros I. unfold Win32.resolve_visit. rewrite as_string_VStr. cbn [bind].
  destruct s as [|c s]; cbn [is_empty].
  - eexists; split; [reflexivity|]. split; [exact I|]. intros rp.
    unfold scan_stops, scan_device. cbn [find existsb].
    change (names_device []) with false.
    change (win32_absolute []) with false. rewrite andb_false_r. reflexivity.
  - destruct (win32_statPath_total (c :: s)) as [r R]. rewrite R. cbn [bind].
    assert (Dv : win32_device (c :: s) = Win32.device r)
      by (unfold win32_device; rewrite R; reflexivity).
    assert (Ab : win32_absolute (c :: s) = Win32.stat_isAbsolute r)
      by (unfold win32_absolute; rewrite R; reflexivity).
    cbn [Win32.resolvedDevice Win32.resolvedAbsolute Win32.resolvedTail Win32.r_isUnc].
    unfold scan_stops, scan_device, counts_for, names_device.
    cbn [find existsb]. unfold names_device. cbv beta. rewrite !Dv, !Ab.
    destruct (Win32.resolvedDevice st) as [|x d] eqn:D;
      destruct (Win32.device r) as [|y ds] eqn:Ds;
      destruct (Win32.resolvedAbsolute st) eqn:A;
      destruct (Win32.stat_isAbsolute r) eqn:As;
      cbn [is_empty negb andb orb] in *; try discriminate I;
      rewrite ?Dv, ?Ab; rewrite ?str_eqb_refl;
      try match goal with
          | |- context [str_eqb ?u ?w] => destruct (str_eqb u w) eqn:Q
          end;
      cbn [is_empty negb andb orb];
      (eexists; split; [reflexivity|];
       cbn [Win32.resolvedDevice Win32.resolvedAbsolute is_empty negb andb orb];
       lazymatch goal with
       | |- _ /\ _ => split; [reflexivity|]
       | _ => idtac
       end;
       intros rp; rewrite ?Dv, ?Ab;
       rewrite ?Q, ?str_eqb_refl, ?orb_true_r, ?andb_true_r;
       cbn [is_empty negb andb orb]; reflexivity).
Qed.

Lemma win32_loop_stops_within (cwd cwd' : str) (env env' : str -> option str)
      (rp : list str) (rest rest' : list value) (st : Win32.rstate) :
  is_empty (Win32.resolvedDevice st) || negb (Win32.resolvedAbsolute st) = true ->
  scan_stops (Win32.resolvedDevice st) (Win32.resolvedAbsolute st) rp = true ->
  Win32.resolve_loop cwd env (map VStr rp ++ rest) st
  = Win32.resolve_loop cwd' env' (map VStr rp ++ rest') st.
Proof.
  revert st; induction rp as [|s rp IH]; intros st I S.
  - exfalso. unfold scan_stops, scan_device in S. cbn [find existsb] in S.
    destruct (Win32.resolvedDevice st), (Win32.resolvedAbsolute st);
      discriminate.
  - cbn [map app Win32.resolve_loop Win32.resolve_path].
    destruct (win32_visit_scan s st I) as (t & -> & H). cbn [bind].
    destruct t as [st'|st']; [|reflexivity].
    destruct H as (I' & H). apply IH; [exact I'|]. rewrite <- H. exact S.
Qed.

Lemma win32_loop_reaches (cwd : str) (env : str -> option str)
      (rp : list str) (v : value) (rest : list value) (st : Win32.rstate) :
  isString v = false ->
  is_empty (Win32.resolvedDevice st) || negb (Win32.resolvedAbsolute st) = true ->
  scan_stops (Win32.resolvedDevice st) (Win32.resolvedAbsolute st) rp = false ->
  Win32.resolve_loop cwd env (map VStr rp ++ v :: rest) st = Throw resolve_error.
Proof.
  intros V. revert st; induction rp as [|s rp IH]; intros st I S.
  - cbn [map app Win32.resolve_loop Win32.resolve_path].
    unfold Win32.resolve_visit. rewrite (as_string_not_string _ _ V). reflexivity.
  - cbn [map app Win32.resolve_loop Win32.resolve_path].
    destruct (win32_visit_scan s st I) as (t & -> & H). cbn [bind].
    destruct t as [st'|st'].
    + destruct H as (I' & H). apply IH; [exact I'|]. rewrite <- H. exact S.
    + rewrite H in S. discriminate S.
Qed.

Lemma posix_resolve_total (cwd : str) (l : list str) :
  exists r, Posix.resolve cwd (map VStr l) = Ok r.
Proof.
  unfold Posix.resolve. rewrite <- map_rev.
  destruct (posix_resolve_loop_scan cwd (rev l) [] [] eq_refl) as [acc [E _]].
  rewrite E. cbn [bind]. eexists; reflexivity.
Qed.

(** C7 (as amended): on both drivers [join] signals the invalid-argument
    error whenever one of its arguments is not a string.  [resolve] scans
    its arguments from the last one and signals the error exactly when the
    scan reaches an argument that is not a string: with [v] the last such
    argument and [post] the strings after it, POSIX [resolve] signals it
    unless one of [post] is absolute, and Windows [resolve] unless [post]
    settle a device and one of them that counts for it is absolute; when
    the scan stops before [v] the result is that of [resolve] on [post]
    alone.  In particular [resolve(42)] and [join(null)] signal it. *)
Theorem C7_non_string_arguments :
  forall (pre : list value) (v : value) (post : list str),
    isString v = false ->
    (forall rest : list value,
        Posix.join (pre ++ v :: rest) = Throw join_error
        /\ Win32.join (pre ++ v :: rest) = Throw join_error)
    /\ (forall cwd,
           exists r,
             Posix.resolve cwd (map VStr post) = Ok r
             /\ Posix.resolve cwd (pre ++ v :: map VStr post)
                = if existsb Posix.isAbsolute post then Ok r
                  else Throw resolve_error)
    /\ (forall cwd env,
           exists r,
             Win32.resolve cwd env (map VStr post) = Ok r
             /\ Win32.resolve cwd env (pre ++ v :: map VStr post)
                = if win32_scan_stops post then Ok r else Throw resolve_error).
Proof.
  intros pre v post Hv. split; [|split].
  - intros rest. split.
    + unfold Posix.join. rewrite posix_join_loop_throws by exact Hv. reflexivity.
    + unfold Win32.join. rewrite win32_join_filter_throws by exact Hv. reflexivity.
  - intros cwd.
    destruct (posix_resolve_total cwd post) as [r R]. exists r. split; [exact R|].
    destruct (existsb Posix.isAbsolute post) eqn:E.
    + rewrite <- R. apply existsb_exists in E. destruct E as (p & In & A).
      apply in_split in In. destruct In as (l1 & l2 & ->).
      unfold Posix.resolve.
      rewrite map_app, !rev_app_distr. cbn [map rev]. rewrite !rev_app_distr.
      cbn [rev app]. rewrite <- !app_assoc, <- !map_rev. cbn [app].
      rewrite (posix_resolve_loop_stops cwd cwd (rev l2) p _ (map VStr (rev l1)) _ A).
      reflexivity.
    + unfold Posix.resolve.
      rewrite rev_app_distr. cbn [rev]. rewrite <- app_assoc. cbn [app].
      rewrite posix_resolve_loop_throws; [reflexivity | exact Hv |].
      apply Forall_forall. intros x Hx. apply in_map_iff in Hx.
      destruct Hx as (s & <- & Hs). exists s. split; [reflexivity|].
      destruct (Posix.isAbsolute s) eqn:A; [|reflexivity].
      assert (existsb Posix.isAbsolute post = true)
        by (apply existsb_exists; eauto).
      congruence.
  - intros cwd env.
    destruct (win32_resolve_total cwd env post) as [r R]. exists r. split; [exact R|].
    rewrite win32_scan_stops_eq.
    destruct (scan_stops [] false (rev post)) eqn:E.
    + rewrite <- R. unfold Win32.resolve.
      rewrite rev_app_distr. cbn [rev]. rewrite <- app_assoc, <- map_rev. cbn [app].
      rewrite <- (app_nil_r (map VStr (rev post))) at 2.
      rewrite (win32_loop_stops_within cwd cwd env env (rev post) (v :: rev pre) []
                 (Win32.mkRState [] [] false false) eq_refl E).
      reflexivity.
    + unfold Win32.resolve.
      rewrite rev_app_distr. cbn [rev]. rewrite <- app_assoc, <- map_rev. cbn [app].
      rewrite (win32_loop_reaches cwd env (rev post) v (rev pre)
                 (Win32.mkRState [] [] false false) Hv eq_refl E).
      reflexivity.
Qed.

(** C7 at [resolve(42)] and [join(null)], and at Windows
    [resolve(42, "\a")], where the path after the number is absolute but
    names no device, so that the scan goes on and reaches the number. *)
Lemma C7_non_string_arguments_witness :
  isString (VNum 42) = false
  /\ isString VNull = false
  /\ (forall cwd, Posix.resolve cwd [VNum 42] = Throw resolve_error)
  /\ (forall cwd env, Win32.resolve cwd env [VNum 42] = Throw resolve_error)
  /\ Posix.join [VNull] = Throw join_error
  /\ Win32.join [VNull] = Throw join_error
  /\ (forall cwd env,
         Win32.resolve cwd env [VNum 42; VStr (lit "\a")] = Throw resolve_error).
Proof.
  split; [reflexivity|]. split; [reflexivity|].
  pose proof (C7_non_string_arguments [] (VNum 42) [] eq_refl) as H42.
  pose proof (C7_non_string_arguments [] VNull [] eq_refl) as Hnull.
  pose proof (C7_non_string_arguments [] (VNum 42) [lit "\a"] eq_refl) as Ha.
  destruct H42 as (_ & Hp & Hw). destruct Hnull as (J & _).
  destruct Ha as (_ & _ & Ha).
  split; [intros cwd; destruct (Hp cwd) as (r & _ & E); exact E|].
  split; [intros cwd env; destruct (Hw cwd env) as (r & _ & E); exact E|].
  split; [exact (proj1 (J []))|]. split; [exact (proj2 (J []))|].
  intros cwd env. destruct (Ha cwd env) as (r & _ & E). exact E.
Defined.

(** C7 as stated fails: [resolve] stops at an absolute path that it meets
    from the right (on Windows, one that names a device) and never looks at
    the arguments before it. *)
Lemma C7_resolve_ignores_earlier_arguments :
  isString (VNum 42) = false
  /\ Posix.resolve (lit "/") [VNum 42; VStr (lit "/a")] = Ok (lit "/a")
  /\ Win32.resolve (lit "C:\") (fun _ => None) [VNum 42; VStr (lit "C:\a")]
     = Ok (lit "C:\a").
Proof. repeat split. Qed.

(** ** Windows [relative] *)

Lemma lower_chr_backslash (a : ascii) :
  Ascii.eqb (lower_chr a) "\" = Ascii.eqb a "\".
Proof.
  destruct a as [[] [] [] [] [] [] [] []]; reflexivity.
Qed.

Lemma split_chr_lower (s : str) :
  split_chr "\" (toLowerCase s) = map toLowerCase (split_chr "\" s).
Proof.
  induction s as [|a s IH]; [reflexivity|].
  cbn [toLowerCase map split_chr]. fold (toLowerCase s).
  rewrite lower_chr_backslash, IH.
  destruct (Ascii.eqb a "\"); [reflexivity|].
  destruct (split_chr "\" s); reflexivity.
Qed.

Lemma trim_start_map_lower (l : list str) (i : nat) :
  trim_start i (map toLowerCase l) = trim_start i l.
Proof.
  revert i; induction l as [|x l IH]; intros i; [reflexivity|].
  cbn [map trim_start]. destruct x; simpl; [apply IH | reflexivity].
Qed.

Lemma trimArray_map_lower (l : list str) :
  trimArray (map toLowerCase l) = map toLowerCase (trimArray l).
Proof.
  unfold trimArray, trim_end.
  rewrite <- map_rev, !trim_start_map_lower, length_map.
  destruct (_ && _); [reflexivity|].
  destruct (_ <=? _); [reflexivity|].
  rewrite skipn_map, firstn_map. reflexivity.
Qed.

Lemma samePartsLength_common (a b pa pb : list str) :
  length pa = length pb ->
  Win32.samePartsLength (Nat.min (length a) (length b)) (length pa)
    (pa ++ map toLowerCase a) (pb ++ map toLowerCase b)
  = length pa + common_prefix_ci a b.
Proof.
  revert b pa pb; induction a as [|x a IH]; intros b pa pb L.
  - simpl. lia.
  - destruct b as [|y b]; [simpl; lia|].
    cbn [length Nat.min Win32.samePartsLength common_prefix_ci map].
    rewrite nth_middle. rewrite L at 1. rewrite nth_middle.
    destruct (str_eqb (toLowerCase x) (toLowerCase y)); cbn [negb]; [|lia].
    specialize (IH b (pa ++ [toLowerCase x]) (pb ++ [toLowerCase y])).
    rewrite !length_app in IH. cbn [length] in IH.
    rewrite <- !app_assoc in IH. cbn [app] in IH.
    replace (S (length pa)) with (length pa + 1) by lia.
    rewrite IH by lia. lia.
Qed.

(** C4 (as amended): Windows [relative] resolves both arguments, finds how
    many leading segments the two resolved paths share when compared
    without regard to case, and returns one ".." for each remaining segment
    of [from] followed by the remaining segments of [to] in their original
    case; when no segment is shared it returns the resolved [to], not the
    argument.  The two examples of the specification hold whatever [cwd]
    and [env] are, and the comparison folds the capital letters of Latin-1
    as well ("C:\" then code 201 against "C:\" then code 233). *)
Theorem C4_win32_relative :
  (forall (cwd : str) (env : str -> option str) (from to : str),
      exists f t,
        Win32.resolve cwd env [VStr from] = Ok f
        /\ Win32.resolve cwd env [VStr to] = Ok t
        /\ Win32.relative cwd env from to = Ok (relative_spec f t))
  /\ (forall cwd env,
         Win32.relative cwd env (lit "C:\orandea\test\aaa") (lit "C:\orandea\impl\bbb")
         = Ok (lit "..\..\impl\bbb"))
  /\ (forall cwd env,
         Win32.relative cwd env (lit "c:\a") (lit "C:\a\b") = Ok (lit "b"))
  /\ (forall cwd env,
         Win32.relative cwd env (lit "C:\" ++ ["201"%char]) (lit "C:\" ++ ["233"%char])
         = Ok []).
Proof.
  split; [|split; [|split]; intros; reflexivity].
  intros cwd env from to.
  destruct (win32_resolve_total cwd env [from]) as [f F].
  destruct (win32_resolve_total cwd env [to]) as [t T].
  cbn [map] in F, T. exists f, t. split; [exact F|]. split; [exact T|].
  unfold Win32.relative. rewrite F, T. cbn [bind]. unfold relative_spec.
  rewrite !split_chr_lower, !trimArray_map_lower, !length_map.
  set (fp := trimArray (split_chr "\" f)). set (tp := trimArray (split_chr "\" t)).
  pose proof (samePartsLength_common fp tp [] [] eq_refl) as S.
  cbn [app length Nat.add] in S. rewrite S.
  destruct (common_prefix_ci fp tp =? 0); reflexivity.
Qed.

(** C4 as stated fails where it says that [to] comes back unchanged: when
    no segment is shared [relative] returns the resolved [to], which is
    not the argument when that is not in resolved form. *)
Lemma C4_relative_returns_resolved_to :
  lit "D:\C" <> lit "D:/b/../C"
  /\ (forall cwd env,
         Win32.relative cwd env (lit "C:\a") (lit "D:/b/../C") = Ok (lit "D:\C")).
Proof. split; [discriminate | intros; reflexivity]. Qed.

(** ** Patterns anchored at the start *)

Lemma exec_at_bol_later (re : regexp) (r : regex) (s : str) (i : nat) :
  body re = Seq Bol r -> exec_at re (S i) s = None.
Proof.
  intros B. revert i; induction s as [|a s IH]; intros i; simpl; rewrite B; simpl.
  - reflexivity.
  - apply IH.
Qed.

(** A pattern that starts with [^] matches at index 0 or not at all. *)
Lemma exec_anchored (re : regexp) (r : regex) (s : str) :
  body re = Seq Bol r ->
  exec re s
  = match hd_error (matches r (start 0 s)) with
    | Some st => Some (RMatch 0 (firstn (pos st - 0) s)
                         (map (caps st) (seq 1 (ngroups re))))
    | None => None
    end.
Proof.
  intros B. unfold exec.
  assert (M : matches (body re) (start 0 s) = matches r (start 0 s)).
  { rewrite B. simpl. apply app_nil_r. }
  destruct s as [|a s]; simpl; rewrite M;
    destruct (hd_error (matches r _)); try reflexivity.
  apply (exec_at_bol_later re r s 0 B).
Qed.

Lemma hd_counts_greedy (lo avail : nat) :
  hd_error (counts lo None true avail) = if lo <=? avail then Some avail else None.
Proof.
  unfold counts. destruct (Nat.leb_spec lo avail) as [L|L].
  - replace (S avail - lo) with (S (avail - lo)) by lia.
    rewrite seq_S, rev_app_distr. simpl. f_equal. lia.
  - replace (S avail - lo) with 0 by lia. reflexivity.
Qed.

Lemma hd_error_map {A B} (f : A -> B) (l : list A) :
  hd_error (map f l) = option_map f (hd_error l).
Proof. destruct l; reflexivity. Qed.

(** ** Windows [join] *)

Lemma test_uncLikeRe (s : str) : test Win32.uncLikeRe s = unc_intended s.
Proof.
  unfold test. rewrite (exec_anchored Win32.uncLikeRe _ s eq_refl).
  destruct s as [|a [|b [|c s]]]; cbn [unc_intended].
  - reflexivity.
  - destruct (is_sep a) eqn:A; cbn; rewrite ?A; reflexivity.
  - destruct (is_sep a) eqn:A; [destruct (is_sep b) eqn:B|];
      cbn; rewrite ?A; cbn; rewrite ?B; reflexivity.
  - destruct (is_sep a) eqn:A; [destruct (is_sep b) eqn:B; [destruct (is_sep c) eqn:C|]|];
      cbn; rewrite ?A; cbn; rewrite ?B; cbn; unfold non; rewrite ?C; reflexivity.
Qed.

Lemma replace_leadingSeps2Re (s : str) :
  replace_first Win32.leadingSeps2Re (lit "\") s = collapse_leading_seps s.
Proof.
  unfold replace_first, collapse_leading_seps.
  rewrite (exec_anchored Win32.leadingSeps2Re _ s eq_refl).
  cbn [matches]. rewrite hd_error_map, hd_counts_greedy.
  cbn [start rest]. destruct (2 <=? span is_sep s); [|reflexivity].
  cbn [option_map index whole advance pos start rest firstn app Nat.add].
  rewrite Nat.sub_0_r, length_firstn, Nat.min_l by apply span_le.
  reflexivity.
Qed.

Lemma win32_join_filter_strings (paths : list str) :
  Win32.join_filter (map VStr paths) = Ok (filter non_empty paths).
Proof.
  induction paths as [|p ps IH]; [reflexivity|].
  cbn [map Win32.join_filter filter]. rewrite as_string_VStr. cbn [bind].
  rewrite IH. reflexivity.
Qed.

(** C5 (as amended): Windows [join] on string arguments drops the empty
    ones, joins the rest with a backslash, collapses a leading run of two or
    more separators to one unless the first non-empty argument starts with
    exactly two separators followed by a non-separator, and normalizes the
    result; [join("//server", "share")] normalizes the UNC root and ends
    with a backslash: it is the string of backslash, backslash, server,
    backslash, share, backslash. *)
Theorem C5_win32_join :
  (forall paths : list str, Win32.join (map VStr paths) = join_spec paths)
  /\ Win32.join [VStr (lit "//server"); VStr (lit "share")]
     = Ok (lit "\\server\share\").
Proof.
  split; [|reflexivity].
  intros paths. unfold Win32.join, join_spec.
  rewrite win32_join_filter_strings. cbn [bind].
  rewrite test_uncLikeRe, replace_leadingSeps2Re.
  destruct (filter non_empty paths) as [|first kept]; [reflexivity|].
  destruct (unc_intended first); reflexivity.
Qed.

(** C5 as stated fails on its example: the result has a trailing
    backslash after the share name. *)
Lemma C5_join_server_share_trailing_backslash :
  Win32.join [VStr (lit "//server"); VStr (lit "share")]
  <> Ok (lit "\\server\share").
Proof. vm_compute. discriminate. Qed.

(** ** First matches *)

Lemma matches_seq (r1 r2 : regex) (st : mstate) :
  matches (Seq r1 r2) st = flat_map (matches r2) (matches r1 st).
Proof. reflexivity. Qed.

Lemma matches_alt (r1 r2 : regex) (st : mstate) :
  matches (Alt r1 r2) st = matches r1 st ++ matches r2 st.
Proof. reflexivity. Qed.

Lemma matches_grp (i : nat) (r : regex) (st : mstate) :
  matches (Grp i r) st = map (close i st) (matches r st).
Proof. reflexivity. Qed.

Lemma matches_rep (c : ascii -> bool) (lo : nat) (hi : option nat) (g : bool)
      (st : mstate) :
  matches (Rep c lo hi g) st = map (advance st) (counts lo hi g (span c (rest st))).
Proof. reflexivity. Qed.

Lemma flat_map_nil {A B} (f : A -> list B) (l : list A) :
  (forall x, In x l -> f x = []) -> flat_map f l = [].
Proof.
  induction l as [|x l IH]; intros H; simpl; [reflexivity|].
  rewrite (H x (or_introl eq_refl)), IH; [reflexivity|].
  intros y Hy. apply H. right. exact Hy.
Qed.

Lemma hd_flat_map_total {A B} (f : A -> list B) (l : list A) :
  (forall x, f x <> []) ->
  hd_error (flat_map f l)
  = match hd_error l with Some x => hd_error (f x) | None => None end.
Proof.
  intros H. destruct l as [|x l]; simpl; [reflexivity|].
  specialize (H x). destruct (f x); [congruence | reflexivity].
Qed.

Lemma advance_advance (st : mstate) (a b : nat) :
  advance (advance st a) b = advance st (a + b).
Proof.
  unfold advance. simpl. rewrite skipn_skipn, Nat.add_assoc.
  f_equal. f_equal. lia.
Qed.

Lemma advance_0 (st : mstate) : advance st 0 = st.
Proof. destruct st. unfold advance. simpl. rewrite Nat.add_0_r. reflexivity. Qed.

Lemma span_skipn_lt (c : ascii -> bool) (s : str) (k : nat) :
  k < span c s -> exists a s', skipn k s = a :: s' /\ c a = true.
Proof.
  revert k; induction s as [|x s IH]; intros k H; simpl in H; [lia|].
  destruct (c x) eqn:C; [|lia].
  destruct k as [|k]; [exists x, s; auto|].
  apply IH. lia.
Qed.

Lemma span_skipn_span (c : ascii -> bool) (s : str) :
  span c (skipn (span c s) s) = 0.
Proof.
  induction s as [|x s IH]; [reflexivity|]. simpl.
  destruct (c x) eqn:C; simpl; [exact IH | rewrite C; reflexivity].
Qed.

(** A lazy [[\s\S]*?] before [$] takes all the input. *)
Lemma matches_lazy_any_eol (g : nat) (st : mstate) :
  matches (Grp g (LazyStar any) +> Eol) st
  = [close g st (advance st (length (rest st)))].
Proof.
  rewrite matches_seq, matches_grp. unfold LazyStar. rewrite matches_rep.
  unfold counts. rewrite span_any, Nat.sub_0_r, seq_S, !map_app, flat_map_app.
  rewrite flat_map_nil.
  - simpl. rewrite skipn_all. reflexivity.
  - intros x Hx. apply in_map_iff in Hx. destruct Hx as [y [<- Hy]].
    apply in_map_iff in Hy. destruct Hy as [k [<- Hk]]. apply in_seq in Hk.
    simpl. destruct (skipn k (rest st)) eqn:E; [|reflexivity].
    apply (f_equal (@length ascii)) in E. rewrite length_skipn in E. simpl in E. lia.
Qed.

Lemma matches_cls (c : ascii -> bool) (st : mstate) :
  matches (Cls c) st
  = match rest st with
    | a :: _ => if c a then [advance st 1] else []
    | [] => []
    end.
Proof.
  unfold Cls. rewrite matches_rep. destruct (rest st) as [|a r]; [reflexivity|].
  simpl. destruct (c a); reflexivity.
Qed.

(** A greedy [c+] takes its whole run when what follows cannot start inside
    the run. *)
Lemma matches_plus_seq (c : ascii -> bool) (K : regex) (st : mstate) :
  (forall k, k < span c (rest st) -> matches K (advance st k) = []) ->
  matches (Plus c +> K) st
  = if 1 <=? span c (rest st) then matches K (advance st (span c (rest st))) else [].
Proof.
  intros H. rewrite matches_seq. unfold Plus. rewrite matches_rep. unfold counts.
  destruct (span c (rest st)) as [|n]; [reflexivity|].
  replace (S (S n) - 1) with (S n) by lia.
  rewrite seq_S, rev_app_distr. cbn [rev app map flat_map Nat.leb Nat.add].
  rewrite flat_map_nil; [apply app_nil_r|].
  intros x Hx. apply in_map_iff in Hx. destruct Hx as [k [<- Hk]].
  apply in_rev, in_seq in Hk. apply H. lia.
Qed.

Lemma matches_plus_blocked (c c' : ascii -> bool) (st : mstate) (k : nat) :
  (forall a, c a = true -> c' a = false) ->
  k < span c (rest st) ->
  matches (Plus c') (advance st k) = [].
Proof.
  intros D H. unfold Plus. rewrite matches_rep.
  destruct (span_skipn_lt c (rest st) k H) as [a [s' [E C]]].
  simpl. rewrite E. simpl. rewrite (D a C). reflexivity.
Qed.

Lemma hd_matches_plus (c : ascii -> bool) (st : mstate) :
  hd_error (matches (Plus c) st)
  = if 1 <=? span c (rest st) then Some (advance st (span c (rest st))) else None.
Proof.
  unfold Plus. rewrite matches_rep, hd_error_map, hd_counts_greedy.
  destruct (1 <=? span c (rest st)); reflexivity.
Qed.

Lemma sep_non_sep (a : ascii) : is_sep a = true -> non is_sep a = false.
Proof. unfold non. intros ->. reflexivity. Qed.

Lemma non_sep_sep (a : ascii) : non is_sep a = true -> is_sep a = false.
Proof. unfold non. destruct (is_sep a); [discriminate | reflexivity]. Qed.

Lemma hd_matches_unc (st : mstate) :
  hd_error (matches uncRe st)
  = if unc_len (rest st) =? 0 then None
    else Some (advance st (unc_len (rest st))).
Proof.
  unfold uncRe. rewrite matches_seq, matches_rep.
  destruct (rest st) as [|a [|b s2]] eqn:R; simpl span.
  - reflexivity.
  - destruct (is_sep a); reflexivity.
  - unfold unc_len.
    destruct (is_sep a); [|reflexivity]. destruct (is_sep b); [|reflexivity].
    replace (counts 2 (Some 2) true (S (S (span is_sep s2)))) with [2] by reflexivity.
    cbn [map flat_map andb]. rewrite app_nil_r.
    assert (R2 : rest (advance st 2) = s2) by (simpl; rewrite R; reflexivity).
    rewrite matches_plus_seq.
    2:{ intros k Hk. rewrite matches_seq.
        rewrite (matches_plus_blocked (non is_sep) is_sep _ k non_sep_sep Hk).
        reflexivity. }
    rewrite R2. set (n1 := span (non is_sep) s2).
    destruct (1 <=? n1); [|reflexivity]. cbn [andb].
    assert (R3 : rest (advance (advance st 2) n1) = skipn n1 s2)
      by (simpl; rewrite R; reflexivity).
    rewrite matches_plus_seq.
    2:{ intros k Hk.
        apply (matches_plus_blocked is_sep (non is_sep) _ k sep_non_sep Hk). }
    rewrite R3. set (n2 := span is_sep (skipn n1 s2)).
    destruct (1 <=? n2); [|reflexivity]. cbn [andb].
    rewrite hd_matches_plus.
    assert (R4 : rest (advance (advance (advance st 2) n1) n2) = skipn n2 (skipn n1 s2))
      by (simpl; rewrite R; reflexivity).
    rewrite R4. set (n3 := span (non is_sep) (skipn n2 (skipn n1 s2))).
    destruct (1 <=? n3); [|reflexivity].
    rewrite !advance_advance.
    replace (2 + (n1 + (n2 + n3))) with (2 + n1 + n2 + n3) by lia.
    reflexivity.
Qed.

(** ** The device pattern *)

Lemma flat_map_single {A B} (f : A -> B) (l : list A) :
  flat_map (fun x => [f x]) l = map f l.
Proof. induction l as [|x l IH]; simpl; [reflexivity | rewrite IH; reflexivity]. Qed.

Lemma matches_slash_tail (x : mstate) :
  hd_error (matches (Opt (Grp 2 (Cls is_sep)) +> Grp 3 (LazyStar any) +> Eol) x)
  = Some (take_all 3 (after_slash 2 x)).
Proof.
  rewrite matches_seq.
  rewrite (flat_map_ext _ _ (matches_lazy_any_eol 3)).
  rewrite (flat_map_single (take_all 3)), hd_error_map.
  unfold Opt. rewrite matches_alt, matches_grp, matches_cls. unfold after_slash.
  destruct (rest x) as [|a r]; [reflexivity|].
  destruct (is_sep a); reflexivity.
Qed.

Lemma matches_drive (x : mstate) :
  matches (Cls is_letter +> Cls (is_chr ":")) x
  = if has_drive (rest x) then [advance x 2] else [].
Proof.
  rewrite matches_seq, matches_cls. unfold has_drive.
  destruct (rest x) as [|a [|b r]] eqn:R.
  - reflexivity.
  - destruct (is_letter a); [|reflexivity]. cbn [flat_map].
    rewrite matches_cls. simpl. rewrite R. reflexivity.
  - destruct (is_letter a); [|reflexivity]. cbn [flat_map andb].
    rewrite matches_cls. simpl rest. rewrite R. cbn [skipn].
    unfold is_chr. destruct (Ascii.eqb b ":"); [|reflexivity].
    rewrite advance_advance. reflexivity.
Qed.

Lemma hd_matches_device (x : mstate) :
  hd_error (matches ((Cls is_letter +> Cls (is_chr ":")) </> uncRe) x)
  = if device_len (rest x) =? 0 then None
    else Some (advance x (device_len (rest x))).
Proof.
  rewrite matches_alt, matches_drive. unfold device_len.
  destruct (has_drive (rest x)); [reflexivity|].
  apply hd_matches_unc.
Qed.

(** The first match of the device pattern, from index 0. *)
Lemma hd_matches_splitDeviceRe (s : str) :
  hd_error (matches (body Win32.splitDeviceRe) (start 0 s))
  = Some (take_all 3 (after_slash 2
            (if device_len s =? 0 then start 0 s
             else close 1 (start 0 s) (advance (start 0 s) (device_len s))))).
Proof.
  change (body Win32.splitDeviceRe)
    with (Bol +> Opt (Grp 1 ((Cls is_letter +> Cls (is_chr ":")) </> uncRe))
          +> Opt (Grp 2 (Cls is_sep)) +> Grp 3 (LazyStar any) +> Eol)%re.
  rewrite matches_seq. cbn [matches pos start Nat.eqb flat_map]. rewrite app_nil_r.
  change (flat_map ?f ?l) with
    (matches (Opt (Grp 1 ((Cls is_letter +> Cls (is_chr ":")) </> uncRe))
              +> Opt (Grp 2 (Cls is_sep)) +> Grp 3 (LazyStar any) +> Eol)%re
             (start 0 s)).
  rewrite matches_seq, hd_flat_map_total.
  2:{ intros x E. pose proof (matches_slash_tail x) as H. rewrite E in H. discriminate H. }
  unfold Opt at 1. rewrite matches_alt, matches_grp.
  pose proof (hd_matches_device (start 0 s)) as D. cbn [rest start] in D.
  destruct (matches ((Cls is_letter +> Cls (is_chr ":")) </> uncRe) (start 0 s))
    as [|u l]; cbn [hd_error] in D.
  - destruct (device_len s =? 0); [|discriminate D].
    cbn [map app hd_error matches]. apply matches_slash_tail.
  - destruct (device_len s =? 0); [discriminate D|]. injection D as ->.
    cbn [map app hd_error]. apply matches_slash_tail.
Qed.

Lemma firstn_skipn_length {A} (n : nat) (l : list A) :
  firstn (length (skipn n l)) (skipn n l) = skipn n l.
Proof. apply firstn_all. Qed.

Lemma exec_splitDeviceRe (s : str) :
  exists m,
    exec Win32.splitDeviceRe s = Some m
    /\ group m 1 = device_of s
    /\ group m 2 = slash_of s
    /\ group m 3 = tail_of s.
Proof.
  unfold exec.
  assert (E : exec_at Win32.splitDeviceRe 0 s
              = match hd_error (matches (body Win32.splitDeviceRe) (start 0 s)) with
                | Some st => Some (RMatch 0 (firstn (pos st - 0) s)
                                     (map (caps st) (seq 1 3)))
                | None => None
                end).
  { rewrite hd_matches_splitDeviceRe.
    destruct s; cbn [exec_at]; rewrite hd_matches_splitDeviceRe; reflexivity. }
  rewrite E, hd_matches_splitDeviceRe. eexists. split; [reflexivity|].
  unfold group, device_of, slash_of, tail_of, after_device, take_all, after_slash.
  cbn [groups seq map nth Nat.sub].
  destruct (device_len s =? 0) eqn:Z.
  - apply Nat.eqb_eq in Z. rewrite Z. cbn [firstn skipn start rest].
    destruct s as [|a r]; [repeat split; reflexivity|].
    destruct (is_sep a); cbn; rewrite ?Nat.sub_0_r, ?firstn_all; repeat split; reflexivity.
  - cbn [close advance start rest pos Nat.add].
    destruct (skipn (device_len s) s) as [|a r] eqn:R.
    + cbn. rewrite R. cbn. rewrite ?Nat.sub_0_r, firstn_nil.
      repeat split; reflexivity.
    + destruct (is_sep a); cbn; rewrite R; cbn;
        rewrite ?Nat.sub_0_r; repeat split; try reflexivity.
      * replace (device_len s + 1 - device_len s) with 1 by lia. reflexivity.
      * replace (device_len s + 1 + length r - (device_len s + 1)) with (length r) by lia.
        apply firstn_all.
      * replace (device_len s + S (length r) - device_len s) with (S (length r)) by lia.
        apply (firstn_all (a :: r)).
Qed.

(** ** Splitting at a class of separators *)

Lemma split_chr_cls (c : ascii) (s : str) : split_chr c s = split_cls (is_chr c) s.
Proof.
  induction s as [|a s IH]; [reflexivity|]. simpl. rewrite IH. reflexivity.
Qed.

Section Separators.

Variable sepc : ascii -> bool.
Variable sc : ascii.
Hypothesis sc_sep : sepc sc = true.
Hypothesis dot_not_sep : sepc "." = false.

Lemma split_cls_not_nil (s : str) : split_cls sepc s <> [].
Proof.
  destruct s as [|a s]; simpl; [discriminate|].
  destruct (sepc a); [discriminate|].
  destruct (split_cls sepc s); discriminate.
Qed.

Lemma split_cls_app (a b : str) (x : ascii) :
  sepc x = true ->
  split_cls sepc (a ++ x :: b) = split_cls sepc a ++ split_cls sepc b.
Proof.
  intros X. induction a as [|y a IH]; simpl.
  - rewrite X. reflexivity.
  - destruct (sepc y); [rewrite IH; reflexivity|].
    rewrite IH. pose proof (split_cls_not_nil a) as N.
    destruct (split_cls sepc a); [congruence | reflexivity].
Qed.

Lemma split_cls_free (w : str) : free_of sepc w -> split_cls sepc w = [w].
Proof.
  induction 1 as [|a w A _ IH]; [reflexivity|].
  simpl. rewrite A, IH. reflexivity.
Qed.

Lemma split_cls_pieces_free (s : str) : Forall (free_of sepc) (split_cls sepc s).
Proof.
  induction s as [|a s IH]; simpl.
  - repeat constructor.
  - destruct (sepc a) eqn:A; [constructor; [constructor | exact IH]|].
    destruct (split_cls sepc s) as [|w ws]; [repeat constructor; exact A|].
    inversion IH; subst. constructor; [constructor; assumption | assumption].
Qed.

Lemma split_cls_join (l : list str) :
  l <> [] -> Forall (free_of sepc) l -> split_cls sepc (join_str [sc] l) = l.
Proof.
  intros N F. induction F as [|x l X F IH]; [congruence|].
  destruct l as [|y l]; [apply split_cls_free, X|].
  change (join_str [sc] (x :: y :: l)) with (x ++ sc :: join_str [sc] (y :: l)).
  rewrite split_cls_app by exact sc_sep.
  rewrite (split_cls_free x X), IH by discriminate. reflexivity.
Qed.

End Separators.

(** ** The shape of a normalized list of segments *)

Lemma is_empty_false (w : str) : w <> [] -> is_empty w = false.
Proof. destruct w; [congruence | reflexivity]. Qed.

Lemma str_eqb_neq (a b : str) : a <> b -> str_eqb a b = false.
Proof. intros N. destruct (str_eqb_spec a b); [congruence | reflexivity]. Qed.

Lemma normalizeArray_step_name (allow : bool) (res : list str) (p : str) :
  is_name p -> normalizeArray_step allow res p = res ++ [p].
Proof.
  intros (N1 & N2 & N3). unfold normalizeArray_step.
  rewrite (is_empty_false _ N1), (str_eqb_neq _ _ N2), (str_eqb_neq _ _ N3).
  reflexivity.
Qed.

Lemma last_repeat {A} (x d : A) (k : nat) : last (repeat x (S k)) d = x.
Proof. induction k as [|k IH]; [reflexivity|]. exact IH. Qed.

Lemma repeat_snoc {A} (x : A) (k : nat) : repeat x k ++ [x] = repeat x (S k).
Proof. symmetry. apply repeat_cons. Qed.

Lemma normalizeArray_step_dotdot (allow : bool) (res : list str) :
  normalizeArray_step allow res (lit "..")
  = if negb (length res =? 0) && negb (str_eqb (last res []) (lit ".."))
    then removelast res
    else if allow then res ++ [lit ".."] else res.
Proof. reflexivity. Qed.

Lemma normalizeArray_step_dots (allow : bool) (k : nat) :
  normalizeArray_step allow (repeat (lit "..") k) (lit "..")
  = if allow then repeat (lit "..") (S k) else repeat (lit "..") k.
Proof.
  rewrite normalizeArray_step_dotdot.
  destruct k as [|k].
  - destruct allow; reflexivity.
  - rewrite (last_repeat (lit "..") [] k), str_eqb_refl, andb_false_r.
    destruct allow; [apply repeat_snoc | reflexivity].
Qed.

Lemma normal_step (allow : bool) (res : list str) (p : str) :
  normal allow res -> normal allow (normalizeArray_step allow res p).
Proof.
  intros (k & names & -> & F & K).
  destruct (str_eqb_spec p []) as [->|N1]; [exists k, names; auto|].
  destruct (str_eqb_spec p (lit ".")) as [->|N2]; [exists k, names; auto|].
  destruct (str_eqb_spec p (lit "..")) as [->|N3].
  - destruct names as [|w ws] using rev_ind.
    + rewrite app_nil_r, normalizeArray_step_dots.
      destruct allow; [exists (S k), [] | exists k, []];
        rewrite app_nil_r; repeat split; auto; discriminate.
    + clear IHws. apply Forall_app in F. destruct F as [F W].
      inversion W as [|? ? (W1 & W2 & W3) _]; subst.
      rewrite normalizeArray_step_dotdot.
      rewrite app_assoc, last_last, removelast_last, length_app.
      cbn [length]. rewrite (str_eqb_neq _ _ W3).
      replace (length (repeat (lit "..") k ++ ws) + 1 =? 0) with false
        by (symmetry; apply Nat.eqb_neq; lia).
      exists k, ws. auto.
  - rewrite normalizeArray_step_name by (repeat split; assumption).
    exists k, (names ++ [p]). rewrite app_assoc. repeat split; auto.
    apply Forall_app. split; [exact F|]. repeat constructor; assumption.
Qed.

Lemma normalizeArray_normal (parts : list str) (allow : bool) :
  normal allow (normalizeArray parts allow).
Proof.
  unfold normalizeArray.
  assert (G : forall res, normal allow res ->
                          normal allow (fold_left (normalizeArray_step allow) parts res)).
  { induction parts as [|p ps IH]; intros res H; simpl; [exact H|].
    apply IH, normal_step, H. }
  apply G. exists 0, []. repeat split; auto.
Qed.

Lemma fold_normalizeArray_names (allow : bool) (names res : list str) :
  Forall is_name names ->
  fold_left (normalizeArray_step allow) names res = res ++ names.
Proof.
  intros F; revert res; induction F as [|w ws W _ IH]; intros res; simpl.
  - symmetry. apply app_nil_r.
  - rewrite normalizeArray_step_name by exact W.
    rewrite IH, <- app_assoc. reflexivity.
Qed.

Lemma fold_normalizeArray_dots (allow : bool) (k j : nat) :
  (allow = false -> k = 0) ->
  fold_left (normalizeArray_step allow) (repeat (lit "..") k) (repeat (lit "..") j)
  = repeat (lit "..") (j + k).
Proof.
  revert j; induction k as [|k IH]; intros j K; simpl.
  - rewrite Nat.add_0_r. reflexivity.
  - destruct allow; [|specialize (K eq_refl); discriminate K].
    change (["."%char; "."%char]) with (lit "..").
    rewrite normalizeArray_step_dots, IH by discriminate.
    f_equal. lia.
Qed.

(** The normalizer leaves a normalized list as it is. *)
Lemma normalizeArray_id (allow : bool) (l : list str) :
  normal allow l -> normalizeArray l allow = l.
Proof.
  intros (k & names & -> & F & K). unfold normalizeArray.
  rewrite fold_left_app.
  pose proof (fold_normalizeArray_dots allow k 0 K) as D.
  cbn [repeat Nat.add] in D. rewrite D.
  apply fold_normalizeArray_names, F.
Qed.

Lemma normalizeArray_idempotent (parts : list str) (allow : bool) :
  normalizeArray (normalizeArray parts allow) allow = normalizeArray parts allow.
Proof. apply normalizeArray_id, normalizeArray_normal. Qed.

Lemma Forall_removelast {A} (P : A -> Prop) (l : list A) :
  Forall P l -> Forall P (removelast l).
Proof.
  induction 1 as [|x l X F IH]; [constructor|].
  simpl. destruct l; [constructor|]. constructor; assumption.
Qed.

(** The normalizer returns segments of its input, or "..". *)
Lemma normalizeArray_Forall (Q : str -> Prop) (parts : list str) (allow : bool) :
  Q (lit "..") -> Forall Q parts -> Forall Q (normalizeArray parts allow).
Proof.
  intros D F. unfold normalizeArray.
  assert (G : forall res, Forall Q res ->
                Forall Q (fold_left (normalizeArray_step allow) parts res)).
  { induction F as [|p ps P _ IH]; intros res R; simpl; [exact R|].
    apply IH. unfold normalizeArray_step.
    destruct (_ || _); [exact R|].
    destruct (str_eqb p (lit "..")).
    - destruct (_ && _); [apply Forall_removelast, R|].
      destruct allow; [|exact R].
      apply Forall_app. split; [exact R | repeat constructor; exact D].
    - apply Forall_app. split; [exact R | repeat constructor; exact P]. }
  apply G. constructor.
Qed.

(** ** The normalized path *)

Lemma ends_with_cls_app (c : ascii -> bool) (a b : str) :
  b <> [] -> ends_with_cls c (a ++ b) = ends_with_cls c b.
Proof.
  intros N. unfold ends_with_cls. rewrite rev_app_distr.
  destruct (rev b) as [|x r] eqn:E; [|reflexivity].
  apply (f_equal (@rev ascii)) in E. rewrite rev_involutive in E. contradiction.
Qed.

Lemma ends_with_cls_snoc (c : ascii -> bool) (w : str) (a : ascii) :
  ends_with_cls c (w ++ [a]) = c a.
Proof. unfold ends_with_cls. rewrite rev_app_distr. reflexivity. Qed.

Lemma ends_with_cls_free (c : ascii -> bool) (w : str) :
  free_of c w -> ends_with_cls c w = false.
Proof.
  intros F. unfold ends_with_cls. apply Forall_rev in F.
  destruct (rev w); [reflexivity|]. inversion F; assumption.
Qed.

Lemma normal_non_empty (allow : bool) (l : list str) :
  normal allow l -> Forall (fun w => w <> []) l.
Proof.
  intros (k & names & -> & F & _). apply Forall_app. split.
  - clear. induction k; simpl; constructor; [discriminate | assumption].
  - eapply Forall_impl; [|exact F]. intros w (N & _). exact N.
Qed.

Section NormalizedPath.

Variable sepc : ascii -> bool.
Variable sc : ascii.
Hypothesis sc_sep : sepc sc = true.
Hypothesis dot_not_sep : sepc "." = false.

Lemma dotdot_free : free_of sepc (lit "..").
Proof. repeat constructor; exact dot_not_sep. Qed.

Lemma norm_segs_free (allow : bool) (t : str) :
  Forall (free_of sepc) (norm_segs sepc allow t).
Proof.
  apply normalizeArray_Forall; [exact dotdot_free | apply split_cls_pieces_free].
Qed.

Lemma norm_segs_non_empty (allow : bool) (t : str) :
  Forall (fun w => w <> []) (norm_segs sepc allow t).
Proof. apply (normal_non_empty allow), normalizeArray_normal. Qed.

Lemma join_str_start (l : list str) :
  Forall (free_of sepc) l -> Forall (fun w => w <> []) l ->
  starts_with_cls sepc (join_str [sc] l) = false.
Proof.
  intros F N. destruct l as [|x l]; [reflexivity|].
  inversion F as [|? ? X _]; inversion N as [|? ? NX _]; subst.
  destruct x as [|a x]; [congruence|]. inversion X; subst.
  destruct l; simpl; assumption.
Qed.

Lemma join_str_end (l : list str) :
  Forall (free_of sepc) l -> Forall (fun w => w <> []) l ->
  ends_with_cls sepc (join_str [sc] l) = false.
Proof.
  intros F; induction F as [|x l X F IH]; intros N; [reflexivity|].
  inversion N as [|? ? NX N']; subst.
  destruct l as [|y l]; [apply ends_with_cls_free, X|].
  change (join_str [sc] (x :: y :: l)) with (x ++ sc :: join_str [sc] (y :: l)).
  rewrite ends_with_cls_app by discriminate.
  change (sc :: join_str [sc] (y :: l)) with ([sc] ++ join_str [sc] (y :: l)).
  rewrite ends_with_cls_app; [apply IH, N'|].
  inversion N' as [|? ? NY _]; subst.
  destruct y; [congruence|]. destruct l; discriminate.
Qed.

Lemma join_str_nil (l : list str) :
  Forall (fun w => w <> []) l -> join_str [sc] l = [] -> l = [].
Proof.
  intros N E. destruct l as [|x l]; [reflexivity|].
  inversion N as [|? ? NX _]; subst. destruct x; [congruence|].
  destruct l; discriminate E.
Qed.

Lemma norm_path_start (allow : bool) (t : str) :
  starts_with_cls sepc (norm_path sepc sc allow t) = false.
Proof.
  unfold norm_path. destruct (is_empty _ && allow); [exact dot_not_sep|].
  apply join_str_start; [apply norm_segs_free | apply norm_segs_non_empty].
Qed.

Lemma norm_path_end (allow : bool) (t : str) :
  ends_with_cls sepc (norm_path sepc sc allow t) = false.
Proof.
  unfold norm_path. destruct (is_empty _ && allow); [exact dot_not_sep|].
  apply join_str_end; [apply norm_segs_free | apply norm_segs_non_empty].
Qed.

Lemma norm_path_relative_non_empty (t : str) : norm_path sepc sc true t <> [].
Proof.
  unfold norm_path. destruct (join_str [sc] (norm_segs sepc true t)); discriminate.
Qed.

Lemma normalizeArray_snoc_empty (l : list str) (allow : bool) :
  normalizeArray (l ++ [[]]) allow = normalizeArray l allow.
Proof. unfold normalizeArray. rewrite fold_left_app. reflexivity. Qed.

(** The normalized path has the segments it was built from. *)
Lemma norm_segs_norm_path (allow : bool) (t : str) :
  norm_segs sepc allow (norm_path sepc sc allow t) = norm_segs sepc allow t.
Proof.
  unfold norm_path.
  destruct (norm_segs sepc allow t) as [|x l] eqn:E.
  - destruct allow; cbn [join_str is_empty andb].
    + unfold norm_segs. simpl. rewrite dot_not_sep. reflexivity.
    + reflexivity.
  - assert (NE : join_str [sc] (x :: l) <> []).
    { intros J. apply join_str_nil in J; [discriminate|].
      rewrite <- E. apply norm_segs_non_empty. }
    rewrite (is_empty_false _ NE). cbn [andb]. unfold norm_segs at 1.
    rewrite (split_cls_join sepc sc sc_sep) by
        (try discriminate; rewrite <- E; apply norm_segs_free).
    rewrite <- E. apply normalizeArray_idempotent.
Qed.

Lemma norm_segs_norm_tail (allow trailing : bool) (t : str) :
  norm_segs sepc allow (norm_tail sepc sc allow trailing t) = norm_segs sepc allow t.
Proof.
  unfold norm_tail. destruct (negb _ && trailing); [|apply norm_segs_norm_path].
  unfold norm_segs at 1. rewrite (split_cls_app sepc _ _ _ sc_sep).
  cbn [split_cls]. rewrite normalizeArray_snoc_empty. apply norm_segs_norm_path.
Qed.

Lemma norm_tail_start (allow trailing : bool) (t : str) :
  starts_with_cls sepc (norm_tail sepc sc allow trailing t) = false.
Proof.
  unfold norm_tail. pose proof (norm_path_start allow t) as S.
  destruct (norm_path sepc sc allow t) as [|a w]; [reflexivity|].
  destruct (_ && trailing); exact S.
Qed.

Lemma norm_tail_end (allow trailing : bool) (t : str) :
  norm_path sepc sc allow t <> [] ->
  ends_with_cls sepc (norm_tail sepc sc allow trailing t) = trailing.
Proof.
  intros N. unfold norm_tail. rewrite (is_empty_false _ N). cbn [negb andb].
  destruct trailing; [rewrite ends_with_cls_snoc; exact sc_sep | apply norm_path_end].
Qed.

Lemma norm_tail_nil (allow trailing : bool) (t : str) :
  norm_path sepc sc allow t = [] -> norm_tail sepc sc allow trailing t = [].
Proof. intros E. unfold norm_tail. rewrite E. reflexivity. Qed.

(** Normalizing [u] gives the normalized [t] again when [u] has the
    segments of [t] and, unless the normalized path is empty, ends with a
    separator exactly when [t] did. *)
Lemma norm_tail_again (allow trailing trailing' : bool) (t u : str) :
  norm_segs sepc allow u = norm_segs sepc allow t ->
  (norm_path sepc sc allow t <> [] -> trailing' = trailing) ->
  norm_tail sepc sc allow trailing' u = norm_tail sepc sc allow trailing t.
Proof.
  intros S T. unfold norm_tail, norm_path in *. rewrite S.
  destruct (if is_empty (join_str [sc] (norm_segs sepc allow t)) && allow
            then lit "." else join_str [sc] (norm_segs sepc allow t)) as [|a w];
    [reflexivity|].
  rewrite T by discriminate. reflexivity.
Qed.

End NormalizedPath.

(** ** POSIX [normalize] *)

Lemma posix_normalize_eq (p : str) :
  Posix.normalize p
  = (if Posix.isAbsolute p then lit "/" else [])
    ++ norm_tail is_slash "/" (negb (Posix.isAbsolute p))
         (negb (is_empty p) && ends_with "/" p) p.
Proof.
  unfold Posix.normalize, norm_tail, norm_path, norm_segs.
  rewrite split_chr_cls. reflexivity.
Qed.

Lemma norm_segs_leading_sep (sepc : ascii -> bool) (allow : bool) (a : ascii) (t : str) :
  sepc a = true -> norm_segs sepc allow (a :: t) = norm_segs sepc allow t.
Proof. intros A. unfold norm_segs. simpl. rewrite A. reflexivity. Qed.

Lemma posix_normalize_idempotent (p : str) :
  Posix.normalize (Posix.normalize p) = Posix.normalize p.
Proof.
  rewrite (posix_normalize_eq (Posix.normalize p)).
  rewrite (posix_normalize_eq p).
  set (tr := negb (is_empty p) && ends_with "/" p).
  assert (SS : is_slash "/" = true) by reflexivity.
  assert (DS : is_slash "." = false) by reflexivity.
  destruct (Posix.isAbsolute p) eqn:A; cbn [negb app lit list_ascii_of_string].
  - change (Posix.isAbsolute ("/"%char :: _)) with true.
    cbn [negb is_empty andb app]. f_equal.
    apply (norm_tail_again is_slash "/").
    + rewrite norm_segs_leading_sep by exact SS.
      apply (norm_segs_norm_tail is_slash "/" SS DS).
    + intros N.
      change (ends_with "/" ?s) with (ends_with_cls is_slash s).
      change ("/"%char :: ?s) with (["/"%char] ++ s).
      rewrite ends_with_cls_app.
      * apply (norm_tail_end is_slash "/" SS DS), N.
      * unfold norm_tail. destruct (norm_path is_slash "/" false p); [congruence|].
        destruct (_ && tr); discriminate.
  - pose proof (norm_path_relative_non_empty is_slash "/" p) as N.
    pose proof (norm_tail_start is_slash "/" DS true tr p) as S.
    pose proof (norm_tail_end is_slash "/" SS DS true tr p N) as E.
    assert (NT : norm_tail is_slash "/" true tr p <> []).
    { unfold norm_tail. destruct (norm_path is_slash "/" true p); [congruence|].
      destruct (_ && tr); discriminate. }
    change (Posix.isAbsolute ?s) with (starts_with_cls is_slash s).
    rewrite S. cbn [negb app].
    apply (norm_tail_again is_slash "/").
    + apply (norm_segs_norm_tail is_slash "/" SS DS).
    + intros _. rewrite (is_empty_false _ NT). exact E.
Qed.

(** ** The patterns of Windows [normalize] *)

Lemma ends_with_cls_cons (c : ascii -> bool) (a : ascii) (s : str) :
  ends_with_cls c (a :: s) = if is_empty s then c a else ends_with_cls c s.
Proof.
  destruct s as [|b s]; [reflexivity|].
  change (a :: b :: s) with ([a] ++ b :: s).
  rewrite ends_with_cls_app by discriminate. reflexivity.
Qed.

Lemma test_trailingSepRe_at (s : str) (i : nat) :
  match exec_at Win32.trailingSepRe i s with Some _ => true | None => false end
  = ends_with_sep s.
Proof.
  revert i; induction s as [|a s IH]; intros i; [reflexivity|].
  unfold ends_with_sep. rewrite ends_with_cls_cons.
  cbn [exec_at body Win32.trailingSepRe]. rewrite matches_seq, matches_cls.
  cbn [rest start].
  destruct (is_sep a); cbn [flat_map].
  - cbn [matches advance rest start skipn]. destruct s as [|b s]; [reflexivity|].
    cbn [is_empty app hd_error]. apply IH.
  - cbn [hd_error]. rewrite IH. destruct s; reflexivity.
Qed.

Lemma test_trailingSepRe (s : str) : test Win32.trailingSepRe s = ends_with_sep s.
Proof. apply test_trailingSepRe_at. Qed.

Lemma hd_matches_sepsRe (i : nat) (s : str) :
  hd_error (matches (body Win32.sepsRe) (start i s))
  = if 1 <=? span is_sep s then Some (advance (start i s) (span is_sep s)) else None.
Proof. apply hd_matches_plus. Qed.

Lemma split_from_skip (re : regexp) (k : nat) (s : str) (i : nat) (cur : str) :
  split_from re i k cur s = split_from re (i + k) 0 cur (skipn k s).
Proof.
  revert s i; induction k as [|k IH]; intros s i.
  - rewrite Nat.add_0_r. reflexivity.
  - destruct s as [|a s]; [reflexivity|].
    cbn [split_from skipn]. rewrite IH. f_equal. lia.
Qed.

Lemma filter_split_cls_skip (s : str) :
  filter non_empty (split_cls is_sep (skipn (span is_sep s) s))
  = filter non_empty (split_cls is_sep s).
Proof.
  induction s as [|a s IH]; [reflexivity|].
  simpl. destruct (is_sep a) eqn:A; simpl; [exact IH | rewrite A; reflexivity].
Qed.

Lemma split_from_sepsRe (n : nat) (s : str) (i : nat) (cur : str) :
  length s <= n ->
  filter non_empty (split_from Win32.sepsRe i 0 cur s)
  = filter non_empty (glue cur (split_cls is_sep s)).
Proof.
  revert s i cur; induction n as [|n IH]; intros s i cur L.
  - destruct s; [|simpl in L; lia]. simpl. rewrite app_nil_r. reflexivity.
  - destruct s as [|a s]; [simpl; rewrite app_nil_r; reflexivity|].
    simpl in L. cbn [split_from]. rewrite hd_matches_sepsRe.
    cbn [span split_cls]. destruct (is_sep a) eqn:A.
    + cbn [Nat.leb advance pos start glue].
      replace (i + S (span is_sep s) - i) with (S (span is_sep s)) by lia.
      cbn [Nat.eqb Nat.sub]. rewrite Nat.sub_0_r, split_from_skip.
      rewrite app_nil_r. cbn [filter].
      rewrite IH by (rewrite length_skipn; lia).
      pose proof (split_cls_not_nil is_sep (skipn (span is_sep s) s)) as N.
      destruct (split_cls is_sep (skipn (span is_sep s) s)) as [|w ws] eqn:E;
        [congruence|].
      cbn [glue app]. rewrite <- E, filter_split_cls_skip. reflexivity.
    + cbn [Nat.leb]. rewrite IH by lia.
      pose proof (split_cls_not_nil is_sep s) as N.
      destruct (split_cls is_sep s) as [|w ws]; [congruence|].
      cbn [glue]. rewrite <- app_assoc. reflexivity.
Qed.

(** Splitting at runs of separators and splitting at every separator give
    the same non-empty pieces. *)
Lemma split_re_sepsRe (s : str) :
  filter non_empty (split_re Win32.sepsRe s)
  = filter non_empty (split_cls is_sep s).
Proof.
  destruct s as [|a s]; [reflexivity|].
  unfold split_re. rewrite (split_from_sepsRe (length (a :: s))) by lia.
  pose proof (split_cls_not_nil is_sep (a :: s)) as N.
  destruct (split_cls is_sep (a :: s)); [congruence | reflexivity].
Qed.

Lemma replace_leadingSepsRe (s : str) :
  replace_first Win32.leadingSepsRe [] s = skipn (span is_sep s) s.
Proof.
  unfold replace_first.
  rewrite (exec_anchored Win32.leadingSepsRe _ s eq_refl), hd_matches_plus.
  cbn [rest start]. destruct (Nat.leb_spec 1 (span is_sep s)) as [L|L].
  - cbn [index whole advance pos start firstn app Nat.add].
    rewrite Nat.sub_0_r, length_firstn, Nat.min_l by apply span_le. reflexivity.
  - replace (span is_sep s) with 0 by lia. reflexivity.
Qed.

Lemma replace_from_skip (re : regexp) (by_ : str) (k : nat) (s : str) (i : nat) :
  k <= length s ->
  replace_from re by_ i k s = replace_from re by_ (i + k) 0 (skipn k s).
Proof.
  revert s i; induction k as [|k IH]; intros s i L.
  - rewrite Nat.add_0_r. reflexivity.
  - destruct s as [|a s]; [simpl in L; lia|].
    cbn [replace_from skipn]. simpl in L. rewrite IH by lia. f_equal. lia.
Qed.

Lemma squash_seps_skip (s : str) :
  squash_seps true s = squash_seps false (skipn (span is_sep s) s).
Proof.
  induction s as [|a s IH]; [reflexivity|].
  simpl. destruct (is_sep a) eqn:A; [exact IH|]. simpl. rewrite A. reflexivity.
Qed.

Lemma replace_from_sepsRe (n : nat) (s : str) (i : nat) :
  length s <= n ->
  replace_from Win32.sepsRe (lit "\") i 0 s = squash_seps false s.
Proof.
  revert s i; induction n as [|n IH]; intros s i L.
  - destruct s; [reflexivity | simpl in L; lia].
  - destruct s as [|a s]; [reflexivity|].
    simpl in L. cbn [replace_from]. rewrite hd_matches_sepsRe.
    cbn [span squash_seps]. destruct (is_sep a) eqn:A.
    + cbn [Nat.leb advance pos start].
      replace (i + S (span is_sep s) - i) with (S (span is_sep s)) by lia.
      cbn [Nat.eqb Nat.sub]. rewrite Nat.sub_0_r, replace_from_skip by apply span_le.
      rewrite IH by (rewrite length_skipn; lia).
      rewrite squash_seps_skip. reflexivity.
    + cbn [Nat.leb]. rewrite IH by lia. reflexivity.
Qed.

Lemma normalizeUNCRoot_eq (d : str) :
  Win32.normalizeUNCRoot d
  = lit "\\" ++ squash_seps false (skipn (span is_sep d) d).
Proof.
  unfold Win32.normalizeUNCRoot, replace_all.
  rewrite replace_leadingSepsRe.
  rewrite (replace_from_sepsRe (length (skipn (span is_sep d) d))) by lia.
  reflexivity.
Qed.

(** ** [statPath] read directly *)

Lemma statPath_eq (s : str) :
  Win32.statPath s
  = Ok (Win32.mkPathStat (device_of s) (tail_of s) (unc_of s) (abs_of s)).
Proof.
  destruct (exec_splitDeviceRe s) as [m (E & G1 & G2 & G3)].
  unfold Win32.statPath. rewrite E, G1, G2, G3. f_equal.
  assert (U : negb (is_empty (device_of s))
              && negb match nth_error (device_of s) 1 with
                      | Some a => Ascii.eqb a ":"
                      | None => false
                      end = unc_of s).
  { unfold unc_of, device_of, device_len.
    destruct (has_drive s) eqn:D.
    - unfold has_drive in D. destruct s as [|a [|b r]]; try discriminate D.
      apply andb_prop in D. destruct D as [_ D]. simpl. rewrite D. reflexivity.
    - cbn [negb andb]. unfold unc_len.
      destruct s as [|a [|b r]]; try reflexivity.
      match goal with |- context [if ?c then _ else 0] => destruct c eqn:C end;
        [|reflexivity].
      repeat (apply andb_prop in C; destruct C as [C ?]).
      cbn [Nat.add firstn is_empty negb nth_error andb Nat.eqb].
      unfold is_sep in H2. destruct (Ascii.eqb_spec b ":") as [->|]; [|reflexivity].
      discriminate H2. }
  rewrite U. f_equal. unfold abs_of. f_equal.
  unfold slash_of, starts_with_cls.
  destruct (after_device s) as [|a r]; [reflexivity|].
  destruct (is_sep a); reflexivity.
Qed.

(** ** Windows [normalize] read directly *)

Lemma win32_normalize_eq (p : str) :
  Win32.normalize p
  = Ok ((if unc_of p then Win32.normalizeUNCRoot (device_of p) else device_of p)
        ++ (if abs_of p then lit "\" else [])
        ++ norm_tail is_sep "\" (negb (abs_of p)) (ends_with_sep (tail_of p)) (tail_of p)).
Proof.
  unfold Win32.normalize. rewrite statPath_eq.
  cbn [bind Win32.device Win32.tail Win32.isUnc Win32.stat_isAbsolute].
  rewrite test_trailingSepRe.
  rewrite <- (normalizeArray_filter _ (split_re Win32.sepsRe (tail_of p))).
  rewrite split_re_sepsRe, normalizeArray_filter.
  reflexivity.
Qed.

Lemma span_prefix_all (c : ascii -> bool) (s : str) :
  Forall (fun a => c a = true) (firstn (span c s) s).
Proof.
  induction s as [|a s IH]; simpl; [constructor|].
  destruct (c a) eqn:C; simpl; constructor; assumption.
Qed.

Lemma span_app_stop (c : ascii -> bool) (w r : str) :
  Forall (fun a => c a = true) w -> starts_with_cls c r = false ->
  span c (w ++ r) = length w.
Proof.
  intros F R. induction F as [|a w A _ IH]; simpl.
  - destruct r as [|x r]; [reflexivity|]. simpl in *. rewrite R. reflexivity.
  - rewrite A, IH. reflexivity.
Qed.

Lemma span_positive_start (c : ascii -> bool) (s : str) :
  1 <= span c s -> starts_with_cls c s = true.
Proof.
  destruct s as [|a s]; simpl; [lia|]. destruct (c a); [reflexivity | lia].
Qed.

Lemma firstn_span_length (c : ascii -> bool) (s : str) :
  length (firstn (span c s) s) = span c s.
Proof. rewrite length_firstn. apply Nat.min_l, span_le. Qed.

(** The parts of a UNC device: two separators, a host, separators, a
    share. *)
Lemma unc_parts (p : str) :
  unc_len p <> 0 ->
  exists a b host seps share,
    firstn (unc_len p) p = a :: b :: host ++ seps ++ share
    /\ is_sep a = true /\ is_sep b = true
    /\ Forall (fun x => non is_sep x = true) host /\ host <> []
    /\ Forall (fun x => is_sep x = true) seps /\ seps <> []
    /\ Forall (fun x => non is_sep x = true) share /\ share <> [].
Proof.
  unfold unc_len. destruct p as [|a [|b s2]]; try congruence.
  set (n1 := span (non is_sep) s2).
  set (n2 := span is_sep (skipn n1 s2)).
  set (n3 := span (non is_sep) (skipn n2 (skipn n1 s2))).
  destruct (is_sep a && is_sep b && (1 <=? n1) && (1 <=? n2) && (1 <=? n3)) eqn:C;
    [|congruence].
  intros _.
  apply andb_prop in C. destruct C as [C C3]. apply andb_prop in C. destruct C as [C C2].
  apply andb_prop in C. destruct C as [C C1]. apply andb_prop in C. destruct C as [A B].
  apply Nat.leb_le in C1, C2, C3.
  exists a, b, (firstn n1 s2), (firstn n2 (skipn n1 s2)),
    (firstn n3 (skipn n2 (skipn n1 s2))).
  assert (NE : forall (c : ascii -> bool) (s : str),
             1 <= span c s -> firstn (span c s) s <> []).
  { intros c s L E. apply (f_equal (@length ascii)) in E.
    rewrite firstn_span_length in E. simpl in E. lia. }
  repeat split; try assumption; try apply span_prefix_all; try (apply NE; assumption).
  replace (2 + n1 + n2 + n3) with (S (S (n1 + (n2 + n3)))) by lia.
  cbn [firstn]. rewrite !firstn_plus. reflexivity.
Qed.

Lemma squash_seps_free (w x : str) :
  Forall (fun a => non is_sep a = true) w ->
  squash_seps false (w ++ x) = w ++ squash_seps false x.
Proof.
  induction 1 as [|a w A _ IH]; [reflexivity|].
  simpl. rewrite (non_sep_sep _ A), IH. reflexivity.
Qed.

Lemma squash_seps_run (seps x : str) :
  Forall (fun a => is_sep a = true) seps ->
  squash_seps true (seps ++ x) = squash_seps true x.
Proof.
  induction 1 as [|a w A _ IH]; [reflexivity|].
  simpl. rewrite A. exact IH.
Qed.

Lemma squash_seps_true_free (b : bool) (w : str) :
  Forall (fun a => non is_sep a = true) w -> squash_seps b w = w.
Proof.
  intros F; revert b; induction F as [|a w A _ IH]; intros b; [reflexivity|].
  simpl. rewrite (non_sep_sep _ A), IH. reflexivity.
Qed.

Lemma free_start (w r : str) :
  Forall (fun a => non is_sep a = true) w -> w <> [] ->
  starts_with_cls is_sep (w ++ r) = false.
Proof.
  intros F N. destruct w as [|a w]; [congruence|].
  inversion F; subst. apply non_sep_sep. assumption.
Qed.

Lemma normalizeUNCRoot_parts (a b : ascii) (host seps share : str) :
  is_sep a = true -> is_sep b = true ->
  Forall (fun x => non is_sep x = true) host -> host <> [] ->
  Forall (fun x => is_sep x = true) seps -> seps <> [] ->
  Forall (fun x => non is_sep x = true) share ->
  Win32.normalizeUNCRoot (a :: b :: host ++ seps ++ share)
  = lit "\\" ++ host ++ lit "\" ++ share.
Proof.
  intros A B H HN S SN SH. rewrite normalizeUNCRoot_eq. f_equal.
  change (a :: b :: host ++ seps ++ share) with ([a; b] ++ host ++ seps ++ share).
  rewrite span_app_stop; [|repeat constructor; assumption | apply free_start; assumption].
  cbn [length skipn app]. rewrite squash_seps_free by exact H. f_equal.
  destruct seps as [|s seps]; [congruence|]. inversion S; subst.
  cbn [app squash_seps]. rewrite H2.
  rewrite squash_seps_run by assumption.
  rewrite squash_seps_true_free by exact SH. reflexivity.
Qed.

Lemma unc_len_canonical (host share r : str) :
  Forall (fun x => non is_sep x = true) host -> host <> [] ->
  Forall (fun x => non is_sep x = true) share -> share <> [] ->
  starts_with_cls (non is_sep) r = false ->
  unc_len (lit "\\" ++ host ++ lit "\" ++ share ++ r)
  = 2 + length host + 1 + length share.
Proof.
  intros H HN S SN R. cbn [lit list_ascii_of_string app unc_len].
  change (is_sep "\") with true. cbn [andb].
  rewrite (span_app_stop (non is_sep) host) by (assumption || reflexivity).
  rewrite skipn_app, Nat.sub_diag, skipn_all. cbn [app skipn span].
  change (is_sep "\") with true. cbv iota.
  assert (Z : span is_sep (share ++ r) = 0).
  { destruct share as [|c share]; [congruence|]. inversion S; subst.
    simpl. rewrite (non_sep_sep _ H2). reflexivity. }
  rewrite Z. cbn [skipn]. rewrite (span_app_stop (non is_sep) share) by assumption.
  destruct host; [congruence|]. destruct share; [congruence|].
  cbn [length Nat.leb andb]. lia.
Qed.

(** ** Windows [normalize] on a normalized path *)

Lemma tail_of_eq (q dev T : str) (ab : bool) :
  device_len q = length dev ->
  q = dev ++ (if ab then lit "\" else []) ++ T ->
  starts_with_cls is_sep T = false ->
  device_of q = dev /\ tail_of q = T
  /\ starts_with_cls is_sep (after_device q) = ab.
Proof.
  intros L -> S. unfold device_of, tail_of, after_device. rewrite L.
  rewrite firstn_app, Nat.sub_diag, firstn_all, app_nil_r.
  rewrite skipn_app, Nat.sub_diag, skipn_all. cbn [app skipn].
  destruct ab; cbn [lit list_ascii_of_string app].
  - change (is_sep "\") with true. auto.
  - destruct T as [|a r]; [auto|]. simpl in S. rewrite S. simpl. auto.
Qed.

Lemma unc_len_no_sep_start (T : str) :
  starts_with_cls is_sep T = false -> unc_len T = 0 /\ unc_len ("\"%char :: T) = 0.
Proof.
  intros S. destruct T as [|c r]; [auto|]. simpl in S.
  unfold unc_len. rewrite S. cbn [andb]. rewrite andb_false_r.
  split; [destruct r|]; reflexivity.
Qed.

Lemma has_drive_not_letter (a : ascii) (T : str) :
  is_letter a = false -> has_drive (a :: T) = false.
Proof. intros L. destruct T; [reflexivity|]. simpl. rewrite L. reflexivity. Qed.

(** Normalizing again gives the same path once the normalized path is
    read with the device, the root and the tail it was built from. *)
Lemma win32_normalize_fix (p q : str) :
  Win32.normalize p = Ok q ->
  (if unc_of q then Win32.normalizeUNCRoot (device_of q) else device_of q)
  = (if unc_of p then Win32.normalizeUNCRoot (device_of p) else device_of p) ->
  abs_of q = abs_of p ->
  tail_of q
  = norm_tail is_sep "\" (negb (abs_of p)) (ends_with_sep (tail_of p)) (tail_of p) ->
  Win32.normalize q = Ok q.
Proof.
  intros N D A T. rewrite win32_normalize_eq in N. injection N as N.
  rewrite (win32_normalize_eq q), D, A, T.
  rewrite <- N. do 3 f_equal.
  assert (SS : is_sep "\" = true) by reflexivity.
  assert (DS : is_sep "." = false) by reflexivity.
  apply (norm_tail_again is_sep "\").
  - apply (norm_segs_norm_tail is_sep "\" SS DS).
  - intros NE. apply (norm_tail_end is_sep "\" SS DS), NE.
Qed.

Lemma win32_normalize_again (p q : str) :
  Win32.normalize p = Ok q ->
  (has_drive q = true -> has_drive p = true) ->
  Win32.normalize q = Ok q.
Proof.
  intros N HD. pose proof N as N'. rewrite win32_normalize_eq in N'.
  injection N' as Q.
  set (T := norm_tail is_sep "\" (negb (abs_of p)) (ends_with_sep (tail_of p))
                      (tail_of p)) in *.
  assert (ST : starts_with_cls is_sep T = false)
    by (apply (norm_tail_start is_sep "\"); reflexivity).
  destruct (has_drive p) eqn:DP.
  - (* a drive *)
    assert (UP : unc_of p = false) by (unfold unc_of; rewrite DP; reflexivity).
    assert (DV : device_of p = firstn 2 p)
      by (unfold device_of, device_len; rewrite DP; reflexivity).
    rewrite UP, DV in Q.
    destruct p as [|a [|b r]]; try discriminate DP. cbn [firstn app] in Q.
    assert (DQ : has_drive q = true) by (rewrite <- Q; exact DP).
    assert (LQ : device_len q = length [a; b])
      by (unfold device_len; rewrite DQ; reflexivity).
    destruct (tail_of_eq q [a; b] T (abs_of (a :: b :: r)) LQ (eq_sym Q) ST)
      as (E1 & E2 & E3).
    apply (win32_normalize_fix (a :: b :: r) q N).
    + unfold unc_of. rewrite DQ, DP, E1, DV. reflexivity.
    + unfold abs_of at 1. unfold unc_of at 1. rewrite DQ, E3. reflexivity.
    + exact E2.
  - destruct (unc_len p =? 0) eqn:UL.
    + (* no device *)
      assert (UP : unc_of p = false) by (unfold unc_of; rewrite UL, andb_false_r; reflexivity).
      apply Nat.eqb_eq in UL.
      assert (DV : device_of p = [])
        by (unfold device_of, device_len; rewrite DP, UL; reflexivity).
      rewrite UP, DV in Q. cbn [app] in Q.
      destruct (unc_len_no_sep_start T ST) as [U0 U1].
      assert (DQ : has_drive q = false).
      { destruct (abs_of p); [rewrite <- Q; apply has_drive_not_letter; reflexivity|].
        destruct (has_drive q); [|reflexivity]. discriminate (HD eq_refl). }
      assert (LQ : device_len q = length (@nil ascii)).
      { unfold device_len. rewrite DQ, <- Q. destruct (abs_of p); assumption. }
      destruct (tail_of_eq q [] T (abs_of p) LQ (eq_sym Q) ST) as (E1 & E2 & E3).
      assert (UQ : unc_of q = false).
      { unfold unc_of. simpl in LQ. unfold device_len in LQ. rewrite DQ in LQ.
        rewrite LQ, andb_false_r. reflexivity. }
      apply (win32_normalize_fix p q N).
      * rewrite UQ, UP, E1, DV. reflexivity.
      * unfold abs_of. rewrite UQ, UP, E3. unfold abs_of. rewrite UP. reflexivity.
      * exact E2.
    + (* a UNC device *)
      apply Nat.eqb_neq in UL.
      assert (UP : unc_of p = true).
      { unfold unc_of. rewrite DP. apply Nat.eqb_neq in UL. rewrite UL. reflexivity. }
      assert (AP : abs_of p = true) by (unfold abs_of; rewrite UP; reflexivity).
      assert (DV : device_of p = firstn (unc_len p) p)
        by (unfold device_of, device_len; rewrite DP; reflexivity).
      destruct (unc_parts p UL)
        as (a & b & host & seps & share & F & A & B & H & HN & S & SN & SH & SHN).
      rewrite UP, AP, DV, F in Q.
      rewrite (normalizeUNCRoot_parts a b host seps share A B H HN S SN SH) in Q.
      assert (Q' : q = lit "\\" ++ host ++ lit "\" ++ share ++ (lit "\" ++ T)).
      { rewrite <- Q. rewrite <- !app_assoc. reflexivity. }
      assert (DQ : has_drive q = false)
        by (rewrite Q'; apply has_drive_not_letter; reflexivity).
      assert (LQ : device_len q = length (lit "\\" ++ host ++ lit "\" ++ share)).
      { unfold device_len. rewrite DQ, Q'.
        rewrite unc_len_canonical by (assumption || reflexivity).
        rewrite !length_app. simpl. lia. }
      assert (Q2 : q = (lit "\\" ++ host ++ lit "\" ++ share)
                       ++ (if true then lit "\" else []) ++ T).
      { rewrite Q'. rewrite <- !app_assoc. reflexivity. }
      destruct (tail_of_eq q _ T true LQ Q2 ST) as (E1 & E2 & E3).
      assert (UQ : unc_of q = true).
      { unfold unc_of. rewrite DQ. unfold device_len in LQ. rewrite DQ in LQ.
        rewrite LQ. reflexivity. }
      apply (win32_normalize_fix p q N).
      * rewrite UQ, UP, E1, DV, F.
        rewrite (normalizeUNCRoot_parts a b host seps share A B H HN S SN SH).
        apply (normalizeUNCRoot_parts "\" "\" host (lit "\") share);
          try assumption; try reflexivity; try discriminate.
        repeat constructor.
      * unfold abs_of at 1. rewrite UQ, AP. reflexivity.
      * exact E2.
Qed.

Lemma win32_normalize_total (p : str) : exists q, Win32.normalize p = Ok q.
Proof. rewrite win32_normalize_eq. eexists; reflexivity. Qed.

(** C3 (as amended): POSIX [normalize] is idempotent on every string.
    Windows [normalize] returns on every string, and normalizing its result
    [q] again gives [q], unless [q] starts with a drive (a letter and a
    colon) that the input did not start with. *)
Theorem C3_normalize_idempotent :
  (forall p, Posix.normalize (Posix.normalize p) = Posix.normalize p)
  /\ (forall p, exists q, Win32.normalize p = Ok q)
  /\ (forall p q,
         Win32.normalize p = Ok q ->
         (has_drive q = true -> has_drive p = true) ->
         Win32.normalize q = Ok q).
Proof.
  split; [exact posix_normalize_idempotent|].
  split; [exact win32_normalize_total | exact win32_normalize_again].
Qed.

(** C3 on Windows at "C:\a\..\b", whose normal form is "C:\b". *)
Lemma C3_normalize_idempotent_witness :
  Win32.normalize (lit "C:\a\..\b") = Ok (lit "C:\b")
  /\ (has_drive (lit "C:\b") = true -> has_drive (lit "C:\a\..\b") = true)
  /\ Win32.normalize (lit "C:\b") = Ok (lit "C:\b").
Proof.
  split; [reflexivity|]. split; [reflexivity|].
  exact (proj2 (proj2 C3_normalize_idempotent)
           (lit "C:\a\..\b") (lit "C:\b") eq_refl (fun _ => eq_refl)).
Defined.

(** C3 as stated fails on Windows: "./C:" normalizes to "C:", which then
    reads as a drive and normalizes to "C:.". *)
Lemma C3_win32_normalize_not_idempotent :
  Win32.normalize (lit "./C:") = Ok (lit "C:")
  /\ Win32.normalize (lit "C:") = Ok (lit "C:.")
  /\ lit "C:." <> lit "C:".
Proof.
  split; [reflexivity|]. split; [reflexivity|]. discriminate.
Qed.

(** ** Runs of characters *)

Lemma span_mono (c c' : ascii -> bool) (s : str) :
  (forall a, c' a = true -> c a = true) -> span c' s <= span c s.
Proof.
  intros M. induction s as [|a s IH]; simpl; [lia|].
  destruct (c' a) eqn:C'; [rewrite (M a C'); lia | lia].
Qed.

Lemma span_skipn_le (c : ascii -> bool) (s : str) (k : nat) :
  k <= span c s -> span c (skipn k s) = span c s - k.
Proof.
  revert s; induction k as [|k IH]; intros s L; [simpl; lia|].
  destruct s as [|a s]; simpl in *; [lia|].
  destruct (c a); [apply IH; lia | lia].
Qed.

Lemma span_other_zero (c c' : ascii -> bool) (s : str) (k : nat) :
  (forall a, c a = true -> c' a = false) ->
  k < span c s -> span c' (skipn k s) = 0.
Proof.
  intros D L. destruct (span_skipn_lt c s k L) as (a & s' & E & C).
  rewrite E. simpl. rewrite (D a C). reflexivity.
Qed.

Lemma skipn_nil_length {A} (k : nat) (l : list A) :
  skipn k l = [] -> length l <= k.
Proof.
  intros E. apply (f_equal (@length A)) in E. rewrite length_skipn in E.
  simpl in E. lia.
Qed.

(** A match of a pattern over class [c] stays inside the run of [c]. *)
Lemma matches_only (c : ascii -> bool) (r : regex) (st st' : mstate) :
  only c r ->
  In st' (matches r st) ->
  exists k, k <= span c (rest st) /\ pos st' = pos st + k
            /\ rest st' = skipn k (rest st).
Proof.
  revert st st'; induction r as [| | |c' lo hi g|r1 IH1 r2 IH2|r1 IH1 r2 IH2|i r IH];
    intros st st' O H.
  - destruct H as [<-|[]]. exists 0. simpl. repeat split; lia.
  - simpl in H. destruct (pos st =? 0); [|destruct H].
    destruct H as [<-|[]]. exists 0. simpl. repeat split; lia.
  - simpl in H. destruct (is_empty (rest st)); [|destruct H].
    destruct H as [<-|[]]. exists 0. simpl. repeat split; lia.
  - apply in_matches_rep_inv in H. destruct H as [k [-> [_ [H _]]]].
    exists k. pose proof (span_mono c c' (rest st) O). simpl. repeat split; lia.
  - destruct O as [O1 O2].
    apply in_matches_seq_inv in H. destruct H as [b [H1 H2]].
    destruct (IH1 _ _ O1 H1) as [k1 [L1 [P1 R1]]].
    destruct (IH2 _ _ O2 H2) as [k2 [L2 [P2 R2]]].
    rewrite R1, span_skipn_le in L2 by exact L1.
    exists (k1 + k2). repeat split; [lia | lia |].
    rewrite R2, R1, skipn_skipn. f_equal. lia.
  - destruct O as [O1 O2].
    simpl in H. apply in_app_or in H. destruct H; eauto.
  - apply in_matches_grp_inv in H. destruct H as [b [H ->]].
    destruct (IH _ _ O H) as [k [L [P R]]]. exists k. simpl. auto.
Qed.

(** ** The dir, base and ext groups *)

Lemma dir_len_spec (sepc : ascii -> bool) (t : str) :
  dir_len sepc t <= length t
  /\ shape sepc (skipn (dir_len sepc t) t) = true
  /\ forall k, k < dir_len sepc t -> shape sepc (skipn k t) = false.
Proof.
  induction t as [|a t (L & S & M)].
  - split; [simpl; lia|]. split; [reflexivity|]. simpl. intros k K. exfalso; lia.
  - cbn [dir_len]. destruct (shape sepc (a :: t)) eqn:E.
    + split; [simpl; lia|]. split; [exact E|]. intros k K. exfalso; lia.
    + split; [simpl; lia|]. split; [exact S|].
      intros [|k] K; [exact E | apply M; lia].
Qed.

Section TailPattern.

Variable sepc extc : ascii -> bool.
Variable gd gb ge : nat.
Hypothesis dot_not_sep : sepc "." = false.
Hypothesis ext_not_sep : forall a, extc a = true -> sepc a = false.
Hypothesis gd_gb : gd <> gb.
Hypothesis gd_ge : gd <> ge.
Hypothesis gb_ge : gb <> ge.

Lemma dot_is_name_chr (a : ascii) : is_dot a = true -> non sepc a = true.
Proof.
  unfold is_dot, is_chr, non. intros H. apply Ascii.eqb_eq in H. subst a.
  rewrite dot_not_sep. reflexivity.
Qed.

Lemma base_group_only : only (non sepc) (base_group sepc extc gb ge).
Proof.
  simpl. repeat split; auto using dot_is_name_chr.
  intros a H. unfold non. rewrite (ext_not_sep a H). reflexivity.
Qed.

Lemma base_pat_inv (st1 st' : mstate) :
  In st' (matches (base_pat sepc extc gb ge) st1) ->
  shape sepc (rest st1) = true
  /\ caps st' gb = Some (firstn (span (non sepc) (rest st1)) (rest st1))
  /\ (exists e, caps st' ge = Some e)
  /\ caps st' gd = caps st1 gd.
Proof.
  intros H. unfold base_pat in H.
  assert (K : caps st' gd = caps st1 gd).
  { apply (matches_keeps_caps gd _ _ _) in H; [exact H|].
    simpl. apply Nat.eqb_neq in gd_gb, gd_ge.
    rewrite (Nat.eqb_sym gb gd), (Nat.eqb_sym ge gd), gd_gb, gd_ge. reflexivity. }
  apply in_matches_seq_inv in H. destruct H as [st2 [H2 H]].
  apply in_matches_seq_inv in H. destruct H as [st3 [H3 H]].
  simpl in H. destruct (rest st3) eqn:R3; [|destruct H].
  destruct H as [<-|[]].
  apply in_matches_rep_inv in H3. destruct H3 as [k2 [-> [_ [L2 _]]]].
  destruct (matches_only (non sepc) _ _ _ base_group_only H2) as [k1 [L1 [P1 R1]]].
  destruct (nested_group_suffix gb ge _ _ _ _ gb_ge H2) as [x [e [_ Ce]]].
  apply in_matches_grp_inv in H2. destruct H2 as [b [_ E2]].
  assert (C2 : caps st2 gb = Some (firstn k1 (rest st1))).
  { rewrite E2. simpl. unfold set_cap. rewrite Nat.eqb_refl.
    rewrite E2 in P1. simpl in P1. rewrite P1. f_equal. f_equal. lia. }
  simpl in R3. rewrite R1 in R3, L2.
  assert (K1 : k1 = span (non sepc) (rest st1)).
  { destruct (Nat.eq_dec k1 (span (non sepc) (rest st1))) as [|N]; [assumption|].
    assert (Lt : k1 < span (non sepc) (rest st1)) by lia.
    rewrite (span_other_zero (non sepc) sepc (rest st1) k1) in L2;
      [|intros a; unfold non; destruct (sepc a); [discriminate | reflexivity] | exact Lt].
    assert (k2 = 0) by lia. subst k2. simpl in R3.
    destruct (span_skipn_lt _ _ _ Lt) as (a & s' & E & _). congruence. }
  subst k1. repeat split.
  - unfold shape. apply Nat.eqb_eq. apply skipn_nil_length in R3.
    pose proof (span_le sepc (skipn (span (non sepc) (rest st1)) (rest st1))). lia.
  - exact C2.
  - exists e. exact Ce.
  - exact K.
Qed.

Lemma base_pat_exists (st1 : mstate) :
  shape sepc (rest st1) = true ->
  exists st', In st' (matches (base_pat sepc extc gb ge) st1).
Proof.
  intros Sh. unfold shape in Sh. apply Nat.eqb_eq in Sh.
  destruct (span (non sepc) (rest st1)) as [|n] eqn:NB.
  - eexists. unfold base_pat, base_group.
    eapply in_matches_seq.
    { apply in_matches_grp. eapply in_matches_seq.
      - apply in_matches_alt_r, in_matches_alt_r, in_matches_eps.
      - apply in_matches_grp, in_matches_alt_r, in_matches_eps. }
    eapply in_matches_seq.
    { apply (in_matches_rep sepc 0 None true _ (length (rest st1)));
        [lia | simpl in *; lia | exact I]. }
    apply in_matches_eol. simpl. apply skipn_all.
  - eexists. unfold base_pat, base_group.
    eapply in_matches_seq.
    { apply in_matches_grp. eapply in_matches_seq.
      - apply in_matches_alt_r, in_matches_alt_l.
        apply (in_matches_rep (non sepc) 1 None false st1 (S n)); [lia | lia | exact I].
      - apply in_matches_grp, in_matches_alt_r, in_matches_eps. }
    eapply in_matches_seq.
    { apply (in_matches_rep sepc 0 None true _ (length (skipn (S n) (rest st1))));
        [lia | cbn [rest close advance]; lia | exact I]. }
    apply in_matches_eol. simpl. apply skipn_all.
Qed.

(** The first match of the pattern from the dir group on: the dir group
    takes [dirBody_of] the input, the base group [base_of] it. *)
Lemma hd_tail_pat (st : mstate) :
  exists st',
    hd_error (matches (tail_pat sepc extc gd gb ge) st) = Some st'
    /\ In st' (matches (tail_pat sepc extc gd gb ge) st)
    /\ caps st' gd = Some (dirBody_of sepc (rest st))
    /\ caps st' gb = Some (base_of sepc (rest st))
    /\ exists e, caps st' ge = Some e.
Proof.
  destruct (dir_len_spec sepc (rest st)) as (L & Sh & M).
  set (k0 := dir_len sepc (rest st)) in *.
  set (at_ := fun k => close gd st (advance st k)).
  assert (E : matches (tail_pat sepc extc gd gb ge) st
              = matches (base_pat sepc extc gb ge) (at_ k0)
                ++ flat_map (matches (base_pat sepc extc gb ge))
                     (map at_ (seq (S k0) (length (rest st) - k0)))).
  { unfold tail_pat. rewrite matches_seq, matches_grp. unfold LazyStar.
    rewrite matches_rep. unfold counts. rewrite span_any, Nat.sub_0_r, map_map.
    fold at_.
    replace (S (length (rest st))) with (k0 + S (length (rest st) - k0)) by lia.
    rewrite seq_app, map_app, flat_map_app. cbn [Nat.add seq map flat_map].
    rewrite flat_map_nil; [reflexivity|].
    intros x Hx. apply in_map_iff in Hx. destruct Hx as [k [<- Hk]].
    apply in_seq in Hk.
    destruct (matches (base_pat sepc extc gb ge) (at_ k)) as [|y l] eqn:Y;
      [reflexivity|].
    assert (Hy : In y (matches (base_pat sepc extc gb ge) (at_ k)))
      by (rewrite Y; left; reflexivity).
    apply base_pat_inv in Hy. destruct Hy as [Sk _].
    simpl in Sk. rewrite M in Sk by lia. discriminate Sk. }
  destruct (base_pat_exists (at_ k0) Sh) as [y0 Hy0].
  destruct (matches (base_pat sepc extc gb ge) (at_ k0)) as [|y l] eqn:Y;
    [destruct Hy0|].
  assert (Hy : In y (matches (base_pat sepc extc gb ge) (at_ k0)))
    by (rewrite Y; left; reflexivity).
  exists y. rewrite E. split; [reflexivity|]. split; [left; reflexivity|].
  destruct (base_pat_inv _ _ Hy) as (_ & Cb & Ce & Cd).
  split; [|split; [exact Cb | exact Ce]].
  rewrite Cd. simpl. unfold set_cap. rewrite Nat.eqb_refl.
  unfold dirBody_of. fold k0. f_equal. f_equal. lia.
Qed.

End TailPattern.

(** ** [parse] read directly *)

Lemma slice0_removelast (s : str) : slice0 s (-1) = removelast s.
Proof.
  unfold slice0. cbn [Z.ltb Z.compare].
  rewrite removelast_firstn_len. f_equal.
  destruct s as [|a s]; [reflexivity|]. cbn [length]. lia.
Qed.

Lemma tail_pat_total (sepc extc : ascii -> bool) (gd gb ge : nat) (st : mstate) :
  matches (tail_pat sepc extc gd gb ge) st <> [].
Proof.
  intros E.
  assert (H : exists st', In st' (matches (tail_pat sepc extc gd gb ge) st)).
  { eexists. unfold tail_pat.
    eapply in_matches_seq.
    - apply in_matches_grp.
      apply (in_matches_rep any 0 None false st (length (rest st)));
        [lia | rewrite span_any; lia | exact I].
    - unfold base_pat, base_group. eapply in_matches_seq.
      { apply in_matches_grp. eapply in_matches_seq.
        - apply in_matches_alt_r, in_matches_alt_r, in_matches_eps.
        - apply in_matches_grp, in_matches_alt_r, in_matches_eps. }
      eapply in_matches_seq.
      { apply (in_matches_rep sepc 0 None true _ 0); [lia | lia | exact I]. }
      apply in_matches_eol. cbn. apply skipn_all. }
  destruct H as [st' H]. rewrite E in H. destruct H.
Qed.

Lemma posix_root_len (s : str) :
  posix_root s = firstn (Nat.min 1 (span is_slash s)) s.
Proof.
  unfold posix_root. destruct s as [|a s]; [reflexivity|].
  cbn [starts_with span]. unfold is_slash, is_chr.
  destruct (Ascii.eqb_spec a "/") as [->|]; reflexivity.
Qed.

Lemma hd_posix_splitPathRe (s : str) :
  exists st' e,
    hd_error (matches (body Posix.splitPathRe) (start 0 s)) = Some st'
    /\ caps st' 1 = Some (posix_root s)
    /\ caps st' 2 = Some (dirBody_of is_slash (posix_rest s))
    /\ caps st' 3 = Some (base_of is_slash (posix_rest s))
    /\ caps st' 4 = Some e.
Proof.
  change (body Posix.splitPathRe)
    with (Bol +> Grp 1 (Rep is_slash 0 (Some 1) true </> Eps)
          +> tail_pat is_slash ext_chr_posix 2 3 4)%re.
  rewrite matches_seq. cbn [matches pos start Nat.eqb flat_map]. rewrite app_nil_r.
  change (flat_map ?f ?l) with
    (matches (Grp 1 (Rep is_slash 0 (Some 1) true </> Eps)
              +> tail_pat is_slash ext_chr_posix 2 3 4)%re (start 0 s)).
  rewrite matches_seq, hd_flat_map_total by apply tail_pat_total.
  rewrite matches_grp, matches_alt, matches_rep, !map_app, !map_map.
  set (n := span is_slash (rest (start 0 s))).
  assert (C : exists l, counts 0 (Some 1) true n = Nat.min 1 n :: l).
  { unfold counts. rewrite Nat.sub_0_r, seq_S, rev_app_distr. simpl. eauto. }
  destruct C as [l ->]. cbn [map app hd_error].
  set (st1 := close 1 (start 0 s) (advance (start 0 s) (Nat.min 1 n))).
  assert (R1 : rest st1 = posix_rest s).
  { unfold posix_rest. rewrite posix_root_len, length_firstn.
    unfold st1, n. cbn [rest close advance start]. f_equal.
    pose proof (span_le is_slash s). lia. }
  destruct (hd_tail_pat is_slash ext_chr_posix 2 3 4) with (st := st1)
    as (st' & H & Hin & Cd & Cb & e & Ce); try reflexivity; try discriminate.
  { intros a A. unfold ext_chr_posix in A. apply negb_true_iff in A.
    apply orb_false_iff in A. apply A. }
  exists st', e. split; [exact H|]. rewrite R1 in Cd, Cb.
  split; [|auto].
  rewrite (matches_keeps_caps 1 (tail_pat is_slash ext_chr_posix 2 3 4) st1 st' eq_refl Hin).
  unfold st1, n. cbn [caps close set_cap Nat.eqb pos advance start rest Nat.add].
  rewrite posix_root_len, Nat.sub_0_r. reflexivity.
Qed.

Lemma posix_splitPath_eq (s : str) :
  exists e,
    Posix.splitPath s
    = Ok [Some (posix_root s); Some (dirBody_of is_slash (posix_rest s));
          Some (base_of is_slash (posix_rest s)); Some e].
Proof.
  destruct (hd_posix_splitPathRe s) as (st' & e & H & C1 & C2 & C3 & C4).
  exists e. unfold Posix.splitPath, exec.
  assert (E : exec_at Posix.splitPathRe 0 s
              = Some (RMatch 0 (firstn (pos st' - 0) s) (map (caps st') (seq 1 4)))).
  { destruct s; cbn [exec_at]; rewrite H; reflexivity. }
  rewrite E. cbn [groups seq map]. rewrite C1, C2, C3, C4. reflexivity.
Qed.

Lemma posix_parse_eq (s : str) :
  exists e n,
    Posix.parse (VStr s)
    = Ok (mkPathInfo (posix_root s)
            (posix_root s ++ removelast (dirBody_of is_slash (posix_rest s)))
            (base_of is_slash (posix_rest s)) e n).
Proof.
  destruct (posix_splitPath_eq s) as [e E].
  unfold Posix.parse. cbn [isString typeof].
  change (str_eqb (lit "string") (lit "string")) with true. cbn [negb].
  rewrite E. cbn [bind length Nat.eqb negb nth or_empty].
  rewrite slice0_removelast. eexists _, _. reflexivity.
Qed.

Lemma hd_win32_splitTailRe (t : str) :
  exists st' e,
    hd_error (matches (body Win32.splitTailRe) (start 0 t)) = Some st'
    /\ caps st' 1 = Some (dirBody_of is_sep t)
    /\ caps st' 2 = Some (base_of is_sep t)
    /\ caps st' 3 = Some e.
Proof.
  change (body Win32.splitTailRe)
    with (Bol +> tail_pat is_sep ext_chr_win32 1 2 3)%re.
  rewrite matches_seq. cbn [matches pos start Nat.eqb flat_map]. rewrite app_nil_r.
  change (flat_map ?f ?l) with
    (matches (tail_pat is_sep ext_chr_win32 1 2 3) (start 0 t)).
  destruct (hd_tail_pat is_sep ext_chr_win32 1 2 3) with (st := start 0 t)
    as (st' & H & Hin & Cd & Cb & e & Ce); try reflexivity; try discriminate.
  { intros a A. unfold ext_chr_win32 in A. apply negb_true_iff in A.
    apply orb_false_iff in A. apply A. }
  exists st', e. auto.
Qed.

Lemma win32_splitPath_eq (s : str) :
  exists e,
    Win32.splitPath s
    = Ok [device_of s ++ slash_of s; dirBody_of is_sep (tail_of s);
          base_of is_sep (tail_of s); e].
Proof.
  destruct (exec_splitDeviceRe s) as [m (E & G1 & G2 & G3)].
  destruct (hd_win32_splitTailRe (tail_of s)) as (st' & e & H & C1 & C2 & C3).
  exists e. unfold Win32.splitPath. rewrite E, G1, G2, G3. unfold exec.
  assert (E2 : exec_at Win32.splitTailRe 0 (tail_of s)
               = Some (RMatch 0 (firstn (pos st' - 0) (tail_of s))
                         (map (caps st') (seq 1 3)))).
  { destruct (tail_of s); cbn [exec_at]; rewrite H; reflexivity. }
  rewrite E2. unfold group. cbn [groups seq map nth Nat.sub].
  rewrite C1, C2, C3. reflexivity.
Qed.

Lemma win32_parse_eq (s : str) :
  exists e n,
    Win32.parse (VStr s)
    = Ok (mkPathInfo (device_of s ++ slash_of s)
            ((device_of s ++ slash_of s) ++ removelast (dirBody_of is_sep (tail_of s)))
            (base_of is_sep (tail_of s)) e n).
Proof.
  destruct (win32_splitPath_eq s) as [e E].
  unfold Win32.parse. cbn [isString typeof].
  change (str_eqb (lit "string") (lit "string")) with true. cbn [negb].
  rewrite E. cbn [bind length Nat.eqb negb nth].
  rewrite slice0_removelast. eexists _, _. reflexivity.
Qed.

(** ** The dir body, the base and the trailing separators *)

Lemma span_all (c : ascii -> bool) (s : str) :
  span c s = length s -> Forall (fun a => c a = true) s.
Proof.
  induction s as [|a s IH]; intros E; [constructor|].
  simpl in E. destruct (c a) eqn:C; [|discriminate E].
  constructor; [exact C | apply IH; lia].
Qed.

Lemma firstn_S_snoc {A} (k : nat) (l r : list A) (c : A) :
  skipn k l = c :: r -> firstn (S k) l = firstn k l ++ [c].
Proof.
  revert l; induction k as [|k IH]; intros l E.
  - simpl in E. subst l. reflexivity.
  - destruct l as [|a l]; [discriminate E|]. simpl in E.
    change (firstn (S (S k)) (a :: l)) with (a :: firstn (S k) l).
    rewrite (IH l E). reflexivity.
Qed.

Lemma skipn_S_tail {A} (k : nat) (l r : list A) (c : A) :
  skipn k l = c :: r -> skipn (S k) l = r.
Proof.
  revert l; induction k as [|k IH]; intros l E.
  - simpl in E. subst l. reflexivity.
  - destruct l as [|a l]; [discriminate E|]. simpl in E. exact (IH l E).
Qed.

(** A path after its root is a dir body, a base and trailing separators;
    the base has no separator, and a dir body that is not empty ends with
    a separator and comes before a base that is not empty. *)
Lemma dir_split (sepc : ascii -> bool) (t : str) :
  exists trail,
    t = dirBody_of sepc t ++ base_of sepc t ++ trail
    /\ Forall (fun a => sepc a = true) trail
    /\ Forall (fun a => non sepc a = true) (base_of sepc t)
    /\ (dirBody_of sepc t = []
        \/ exists Y c, dirBody_of sepc t = Y ++ [c] /\ sepc c = true
                       /\ base_of sepc t <> []).
Proof.
  destruct (dir_len_spec sepc t) as (L & Sh & M).
  unfold dirBody_of, base_of.
  set (k0 := dir_len sepc t) in *. set (r := skipn k0 t) in *.
  set (nb := span (non sepc) r).
  exists (skipn nb r). split; [|split; [|split]].
  - unfold r. rewrite (firstn_skipn nb), (firstn_skipn k0). reflexivity.
  - unfold shape in Sh. apply Nat.eqb_eq in Sh. apply span_all, Sh.
  - apply span_prefix_all.
  - destruct k0 as [|k] eqn:K0; [left; reflexivity|]. right.
    assert (Mk : shape sepc (skipn k t) = false) by (apply M; lia).
    destruct (skipn k t) as [|c r'] eqn:E.
    { apply skipn_nil_length in E. lia. }
    assert (R' : r = r') by (unfold r; apply (skipn_S_tail k t r' c E)).
    exists (firstn k t), c. split; [apply (firstn_S_snoc k t r' c E)|].
    subst r'. unfold shape in Mk, Sh. fold nb in Sh. cbn [span] in Mk.
    destruct (sepc c) eqn:C.
    + assert (NC : non sepc c = false) by (unfold non; rewrite C; reflexivity).
      rewrite NC in Mk. cbn [skipn span length] in Mk. rewrite C in Mk.
      cbn [Nat.eqb] in Mk.
      split; [reflexivity|]. intros B.
      assert (N0 : nb = 0).
      { apply (f_equal (@length ascii)) in B. unfold nb in *.
        rewrite firstn_span_length in B. exact B. }
      rewrite N0 in Sh. cbn [skipn] in Sh. congruence.
    + assert (NC : non sepc c = true) by (unfold non; rewrite C; reflexivity).
      rewrite NC in Mk. cbn [skipn] in Mk. fold nb in Mk. congruence.
Qed.

Lemma ends_with_cls_run (c : ascii -> bool) (a trail : str) :
  Forall (fun x => c x = true) trail -> trail <> [] ->
  ends_with_cls c (a ++ trail) = true.
Proof.
  intros F N. rewrite ends_with_cls_app by exact N.
  unfold ends_with_cls. apply Forall_rev in F.
  destruct (rev trail) as [|x r] eqn:E.
  - apply (f_equal (@rev ascii)) in E. rewrite rev_involutive in E. contradiction.
  - inversion F; assumption.
Qed.

Lemma split_cls_run (sepc : ascii -> bool) (trail : str) :
  Forall (fun a => sepc a = true) trail ->
  filter non_empty (split_cls sepc trail) = [].
Proof.
  induction 1 as [|a trail A _ IH]; [reflexivity|].
  simpl. rewrite A. exact IH.
Qed.

Lemma norm_segs_filter (sepc : ascii -> bool) (allow : bool) (u v : str) :
  filter non_empty (split_cls sepc u) = filter non_empty (split_cls sepc v) ->
  norm_segs sepc allow u = norm_segs sepc allow v.
Proof.
  intros E. unfold norm_segs.
  rewrite <- (normalizeArray_filter _ (split_cls sepc u)), E.
  apply normalizeArray_filter.
Qed.

Lemma filter_split_cls_trail (sepc : ascii -> bool) (w trail : str) :
  Forall (fun a => sepc a = true) trail ->
  filter non_empty (split_cls sepc (w ++ trail))
  = filter non_empty (split_cls sepc w).
Proof.
  intros F. destruct F as [|c trail C F]; [rewrite app_nil_r; reflexivity|].
  rewrite split_cls_app by exact C.
  rewrite filter_app, (split_cls_run sepc trail F), app_nil_r. reflexivity.
Qed.

Lemma norm_segs_nil (sepc : ascii -> bool) (allow : bool) :
  norm_segs sepc allow [] = [].
Proof. reflexivity. Qed.

(** ** POSIX: [format] after [parse] *)

Lemma posix_format_obj (info : PathInfo) :
  Posix.format (obj_of info)
  = Ok ((if negb (is_empty (dir info)) then dir info ++ lit "/" else [])
        ++ base info).
Proof.
  unfold Posix.format, obj_of. cbn [isObject typeof get_root bind truthy].
  change (str_eqb (lit "object") (lit "object")) with true. cbn [negb].
  destruct (is_empty (root info)); reflexivity.
Qed.

Lemma posix_root_cases (p : str) :
  (posix_root p = [] /\ posix_rest p = p /\ starts_with "/" p = false)
  \/ (posix_root p = lit "/" /\ p = "/"%char :: posix_rest p).
Proof.
  unfold posix_rest, posix_root. destruct p as [|a p]; [left; auto|].
  cbn [starts_with]. destruct (Ascii.eqb_spec a "/") as [->|N].
  - right. auto.
  - left. auto.
Qed.

Lemma is_slash_eq (c : ascii) : is_slash c = true -> c = "/"%char.
Proof. unfold is_slash, is_chr. apply Ascii.eqb_eq. Qed.

Lemma posix_round_trip (p : str) (info : PathInfo) :
  Posix.parse (VStr p) = Ok info ->
  ends_with "/" p = false \/ base info = [] ->
  exists x, Posix.format (obj_of info) = Ok x
            /\ Posix.normalize x = Posix.normalize p.
Proof.
  intros P Hyp. rewrite posix_format_obj. eexists. split; [reflexivity|].
  destruct (posix_parse_eq p) as (e & n & E). rewrite E in P.
  injection P as <-. cbn [dir base] in *.
  destruct (dir_split is_slash (posix_rest p)) as (trail & T & Ft & Fb & Body).
  set (bs := base_of is_slash (posix_rest p)) in *.
  assert (TR : ends_with "/" p = false -> trail = []).
  { intros EW. destruct trail as [|c trail]; [reflexivity|]. exfalso.
    assert (PT : exists a, p = a ++ c :: trail).
    { destruct (posix_root_cases p) as [(_ & R & _)|(_ & R)].
      - rewrite R in T. rewrite T, !app_assoc. eauto.
      - rewrite R, T. rewrite app_comm_cons, !app_assoc. eauto. }
    destruct PT as [a PT]. rewrite PT in EW.
    change (ends_with "/" ?s) with (ends_with_cls is_slash s) in EW.
    rewrite ends_with_cls_run in EW; [discriminate | exact Ft | discriminate]. }
  destruct Body as [B0|(Y & c & B & C & BN)].
  - (* no dir body *)
    rewrite B0 in *. cbn [removelast app] in *. rewrite app_nil_r.
    destruct (posix_root_cases p) as [(R0 & R & S)|(R1 & R)].
    + rewrite R0. cbn [is_empty negb app].
      rewrite R in T.
      assert (TN : trail = []).
      { destruct Hyp as [EW|BE]; [apply TR, EW|].
        rewrite BE in T. cbn [app] in T. rewrite T in S.
        destruct Ft as [|c trail C _]; [reflexivity|].
        cbn [starts_with] in S. apply is_slash_eq in C. subst c. discriminate S. }
      rewrite TN, app_nil_r in T. rewrite <- T. reflexivity.
    + rewrite R1. cbn [lit list_ascii_of_string is_empty negb app].
      rewrite R. rewrite T. cbn [app].
      rewrite !posix_normalize_eq.
      change (Posix.isAbsolute ("/"%char :: ?s)) with true.
      cbn [negb is_empty andb]. f_equal.
      assert (SS : is_slash "/" = true) by reflexivity.
      apply (norm_tail_again is_slash "/").
      * rewrite !norm_segs_leading_sep by exact SS.
        apply norm_segs_filter. symmetry. apply filter_split_cls_trail, Ft.
      * intros NE.
        destruct Hyp as [EW|BE].
        -- rewrite (TR EW), app_nil_r.
           change (ends_with "/" ?s) with (ends_with_cls is_slash s).
           destruct bs as [|b bs']; [reflexivity|].
           change ("/"%char :: "/"%char :: b :: bs') with (lit "//" ++ b :: bs').
           change ("/"%char :: b :: bs') with (lit "/" ++ b :: bs').
           rewrite !ends_with_cls_app by discriminate. reflexivity.
        -- exfalso. apply NE. unfold norm_path.
           rewrite norm_segs_leading_sep by exact SS.
           rewrite (norm_segs_filter is_slash false (bs ++ trail) [])
             by (rewrite BE; apply (split_cls_run is_slash), Ft).
           reflexivity.
  - (* a dir body *)
    rewrite B in *. rewrite removelast_last.
    apply is_slash_eq in C. subst c.
    assert (TN : trail = []).
    { destruct Hyp as [EW|BE]; [apply TR, EW | contradiction]. }
    rewrite TN, app_nil_r in T.
    destruct (posix_root_cases p) as [(R0 & R & S)|(R1 & R)].
    + rewrite R0. cbn [app]. rewrite R in T.
      destruct Y as [|y Y].
      { exfalso. rewrite T in S. discriminate S. }
      cbn [is_empty negb]. rewrite T. rewrite <- !app_assoc. reflexivity.
    + rewrite R1. cbn [lit list_ascii_of_string is_empty negb app].
      rewrite R. rewrite T. rewrite <- !app_assoc. reflexivity.
Qed.

(** ** The device, the root separator and the tail of a Windows path *)

Lemma path_parts (p : str) :
  p = device_of p ++ slash_of p ++ tail_of p
  /\ ((slash_of p = [] /\ starts_with_cls is_sep (tail_of p) = false)
      \/ exists z, slash_of p = [z] /\ is_sep z = true).
Proof.
  unfold device_of, slash_of, tail_of, after_device.
  rewrite <- (firstn_skipn (device_len p) p) at 1.
  destruct (skipn (device_len p) p) as [|a r]; [split; [reflexivity | left; auto]|].
  destruct (is_sep a) eqn:A; (split; [reflexivity|]).
  - right. eauto.
  - left. split; [reflexivity | exact A].
Qed.

Lemma span_zero_start (c : ascii -> bool) (s : str) :
  span c s = 0 -> starts_with_cls c s = false.
Proof.
  destruct s as [|a s]; [reflexivity|]. simpl. destruct (c a); [discriminate | reflexivity].
Qed.

Lemma unc_len_parts (a b : ascii) (host seps share R : str) :
  is_sep a = true -> is_sep b = true ->
  Forall (fun x => non is_sep x = true) host -> host <> [] ->
  Forall (fun x => is_sep x = true) seps -> seps <> [] ->
  Forall (fun x => non is_sep x = true) share -> share <> [] ->
  starts_with_cls (non is_sep) R = false ->
  unc_len (a :: b :: host ++ seps ++ share ++ R)
  = length (a :: b :: host ++ seps ++ share).
Proof.
  intros A B H HN S SN SH SHN R0. unfold unc_len. rewrite A, B. cbn [andb].
  assert (S1 : starts_with_cls (non is_sep) (seps ++ share ++ R) = false).
  { destruct seps as [|s seps]; [congruence|]. inversion S; subst.
    simpl. apply sep_non_sep. assumption. }
  assert (S2 : starts_with_cls is_sep (share ++ R) = false).
  { apply free_start; assumption. }
  rewrite (span_app_stop (non is_sep) host) by assumption.
  rewrite skipn_app, Nat.sub_diag, skipn_all. cbn [app skipn].
  rewrite (span_app_stop is_sep seps) by assumption.
  rewrite skipn_app, Nat.sub_diag, skipn_all. cbn [app skipn].
  rewrite (span_app_stop (non is_sep) share) by assumption.
  destruct host; [congruence|]. destruct seps; [congruence|].
  destruct share; [congruence|].
  cbn [length Nat.leb andb]. rewrite !length_app. cbn [length]. lia.
Qed.

(** A UNC path is its device followed by nothing or by a separator. *)
Lemma unc_parts_full (p : str) :
  unc_len p <> 0 ->
  exists a b host seps share R,
    p = (a :: b :: host ++ seps ++ share) ++ R
    /\ unc_len p = length (a :: b :: host ++ seps ++ share)
    /\ is_sep a = true /\ is_sep b = true
    /\ Forall (fun x => non is_sep x = true) host /\ host <> []
    /\ Forall (fun x => is_sep x = true) seps /\ seps <> []
    /\ Forall (fun x => non is_sep x = true) share /\ share <> []
    /\ starts_with_cls (non is_sep) R = false.
Proof.
  intros U.
  destruct (unc_parts p U)
    as (a & b & host & seps & share & F & A & B & H & HN & Sq & SN & SH & SHN).
  exists a, b, host, seps, share, (skipn (unc_len p) p).
  assert (P : p = (a :: b :: host ++ seps ++ share) ++ skipn (unc_len p) p).
  { rewrite <- F. symmetry. apply firstn_skipn. }
  assert (R0 : starts_with_cls (non is_sep) (skipn (unc_len p) p) = false).
  { apply span_zero_start. unfold unc_len in *.
    destruct p as [|x [|y s2]]; try congruence.
    match goal with |- context [if ?c then _ else 0] => destruct c end;
      [|congruence].
    replace (2 + span (non is_sep) s2
             + span is_sep (skipn (span (non is_sep) s2) s2)
             + span (non is_sep)
                 (skipn (span is_sep (skipn (span (non is_sep) s2) s2))
                    (skipn (span (non is_sep) s2) s2)))
      with (S (S (span (non is_sep)
                    (skipn (span is_sep (skipn (span (non is_sep) s2) s2))
                       (skipn (span (non is_sep) s2) s2))
                  + (span is_sep (skipn (span (non is_sep) s2) s2)
                     + span (non is_sep) s2)))) by lia.
    cbn [skipn]. rewrite <- !skipn_skipn. apply span_skipn_span. }
  repeat split; try assumption.
  rewrite P at 1. cbn [app]. rewrite <- !app_assoc.
  apply unc_len_parts; assumption.
Qed.

Lemma device_len_cases (p : str) :
  (has_drive p = true /\ device_len p = 2
   /\ exists a b r, p = a :: b :: r /\ is_letter a = true /\ b = ":"%char)
  \/ (has_drive p = false /\ device_len p = unc_len p).
Proof.
  unfold device_len. destruct (has_drive p) eqn:D; [left | right; auto].
  repeat split. unfold has_drive in D.
  destruct p as [|a [|b r]]; try discriminate D.
  apply andb_prop in D. destruct D as [L C]. apply Ascii.eqb_eq in C.
  exists a, b, r. auto.
Qed.

Lemma unc_of_device_len (p : str) :
  unc_of p = negb (has_drive p) && negb (device_len p =? 0).
Proof.
  unfold unc_of, device_len. destruct (has_drive p); reflexivity.
Qed.

(** A device keeps its reading when what follows it changes, as long as a
    UNC share is still followed by nothing or by a separator. *)
Lemma device_rebuild (p R : str) :
  device_len p <> 0 ->
  (has_drive p = false -> starts_with_cls (non is_sep) R = false) ->
  has_drive (device_of p ++ R) = has_drive p
  /\ device_len (device_of p ++ R) = length (device_of p)
  /\ device_len (device_of p ++ R) = device_len p.
Proof.
  intros N HR. unfold device_of.
  destruct (device_len_cases p) as [(D & L & a & b & r & -> & _)|(D & L)].
  - rewrite L. cbn [firstn app]. unfold device_len.
    change (has_drive (a :: b :: R)) with (has_drive (a :: b :: r)).
    rewrite D. auto.
  - rewrite L in *. destruct (unc_parts_full p N)
      as (a & b & host & seps & share & R0 & P & U & A & B & H & HN & Sq & SN & SH & SHN & _).
    assert (F : firstn (unc_len p) p = a :: b :: host ++ seps ++ share).
    { rewrite U. rewrite P.
      rewrite firstn_app, Nat.sub_diag, firstn_all, app_nil_r. reflexivity. }
    rewrite F.
    assert (HD : has_drive ((a :: b :: host ++ seps ++ share) ++ R) = false).
    { apply has_drive_not_letter. unfold is_sep in A. unfold is_letter.
      destruct (Ascii.eqb_spec a "\") as [->|]; [reflexivity|].
      destruct (Ascii.eqb_spec a "/") as [->|]; [reflexivity | discriminate A]. }
    rewrite HD, D. split; [reflexivity|]. unfold device_len. rewrite HD.
    cbn [app]. rewrite <- !app_assoc.
    rewrite unc_len_parts by auto. rewrite U. auto.
Qed.

Lemma stat_of_parts (s dev sl T : str) :
  device_len s = length dev ->
  s = dev ++ sl ++ T ->
  (sl = [] /\ starts_with_cls is_sep T = false)
  \/ (exists z, sl = [z] /\ is_sep z = true) ->
  device_of s = dev /\ tail_of s = T
  /\ starts_with_cls is_sep (after_device s) = negb (is_empty sl).
Proof.
  intros L -> C. unfold device_of, tail_of, after_device. rewrite L.
  rewrite firstn_app, Nat.sub_diag, firstn_all, app_nil_r.
  rewrite skipn_app, Nat.sub_diag, skipn_all. cbn [app skipn].
  destruct C as [(-> & S)|(z & -> & Z)]; cbn [app is_empty negb].
  - destruct T as [|a r]; [auto|]. simpl in S. rewrite S. simpl. auto.
  - rewrite Z. cbn [starts_with_cls]. auto.
Qed.

(** Two paths with the same device, the same root, the same segments and
    the same end have the same normal form. *)
Lemma win32_normalize_same (x p : str) :
  (if unc_of x then Win32.normalizeUNCRoot (device_of x) else device_of x)
  = (if unc_of p then Win32.normalizeUNCRoot (device_of p) else device_of p) ->
  abs_of x = abs_of p ->
  norm_segs is_sep (negb (abs_of p)) (tail_of x)
  = norm_segs is_sep (negb (abs_of p)) (tail_of p) ->
  (norm_path is_sep "\" (negb (abs_of p)) (tail_of p) <> [] ->
   ends_with_sep (tail_of x) = ends_with_sep (tail_of p)) ->
  Win32.normalize x = Win32.normalize p.
Proof.
  intros D A S E. rewrite !win32_normalize_eq, D, A. do 3 f_equal.
  apply norm_tail_again; assumption.
Qed.

(** ** Paths that start with separators and are not UNC *)

Lemma non_is_sep_false (a : ascii) : is_sep a = true -> non is_sep a = false.
Proof. exact (sep_non_sep a). Qed.

Lemma non_is_sep_true (a : ascii) : is_sep a = false -> non is_sep a = true.
Proof. unfold non. intros ->. reflexivity. Qed.

Lemma unc_scan2_eq (s : str) :
  unc_scan 2 s = (1 <=? span (non is_sep) (skipn (span is_sep s) s)).
Proof.
  induction s as [|a s IH]; [reflexivity|].
  cbn [unc_scan span]. destruct (is_sep a) eqn:A; [exact IH|].
  cbn [skipn span]. rewrite (non_is_sep_true a A). reflexivity.
Qed.

Lemma unc_scan1_eq (s : str) :
  unc_scan 1 s
  = (1 <=? span is_sep (skipn (span (non is_sep) s) s))
    && (1 <=? span (non is_sep)
              (skipn (span is_sep (skipn (span (non is_sep) s) s))
                 (skipn (span (non is_sep) s) s))).
Proof.
  induction s as [|a s IH]; [reflexivity|].
  cbn [unc_scan span]. destruct (is_sep a) eqn:A.
  - rewrite (non_is_sep_false a A). cbn [skipn span]. rewrite A.
    cbn [skipn Nat.leb andb]. apply unc_scan2_eq.
  - rewrite (non_is_sep_true a A). cbn [skipn]. exact IH.
Qed.

Lemma unc_scan0_eq (s : str) :
  unc_scan 0 s
  = (1 <=? span (non is_sep) s)
    && (1 <=? span is_sep (skipn (span (non is_sep) s) s))
    && (1 <=? span (non is_sep)
              (skipn (span is_sep (skipn (span (non is_sep) s) s))
                 (skipn (span (non is_sep) s) s))).
Proof.
  destruct s as [|a s]; [reflexivity|].
  cbn [unc_scan span]. destruct (is_sep a) eqn:A.
  - rewrite (non_is_sep_false a A). reflexivity.
  - rewrite (non_is_sep_true a A). cbn [skipn Nat.leb andb]. apply unc_scan1_eq.
Qed.

Lemma unc_len_scan (a b : ascii) (s2 : str) :
  (unc_len (a :: b :: s2) =? 0) = negb (is_sep a && is_sep b && unc_scan 0 s2).
Proof.
  unfold unc_len. rewrite unc_scan0_eq, !andb_assoc.
  match goal with |- context [if ?c then _ else 0] => destruct c end; reflexivity.
Qed.

Lemma unc_scan_dup (st : nat) (A : str) (s c : ascii) (B : str) :
  is_sep s = true -> is_sep c = true ->
  unc_scan st (A ++ s :: c :: B) = unc_scan st (A ++ s :: B).
Proof.
  intros Hs Hc. revert st; induction A as [|a A IH]; intros st.
  - destruct st as [|[|st]]; cbn [app unc_scan]; rewrite Hs, ?Hc; reflexivity.
  - destruct st as [|[|st]]; cbn [app unc_scan]; destruct (is_sep a);
      try reflexivity; apply IH.
Qed.

Lemma unc_scan_sep (st : nat) (A : str) (c c' : ascii) (B : str) :
  is_sep c = true -> is_sep c' = true ->
  unc_scan st (A ++ c :: B) = unc_scan st (A ++ c' :: B).
Proof.
  intros Hc Hc'. revert st; induction A as [|a A IH]; intros st.
  - destruct st as [|[|st]]; cbn [app unc_scan]; rewrite Hc, Hc'; reflexivity.
  - destruct st as [|[|st]]; cbn [app unc_scan]; destruct (is_sep a);
      try reflexivity; apply IH.
Qed.

Lemma unc_scan_free (st : nat) (w : str) :
  st <= 1 -> Forall (fun a => non is_sep a = true) w -> unc_scan st w = false.
Proof.
  intros L F; revert st L; induction F as [|a w A _ IH]; intros st L; [reflexivity|].
  apply non_sep_sep in A.
  destruct st as [|[|st]]; cbn [unc_scan]; rewrite A; try (apply IH; lia). lia.
Qed.

(** Changing the separator before the base keeps a path that is not UNC
    not UNC. *)
Lemma unc_len_sep_before_base (z : ascii) (Y : str) (c c' : ascii) (bs : str) :
  is_sep c = true -> is_sep c' = true ->
  unc_len (z :: Y ++ c :: bs) = 0 -> unc_len (z :: Y ++ c' :: bs) = 0.
Proof.
  intros C C' U. apply Nat.eqb_eq. apply Nat.eqb_eq in U.
  destruct Y as [|b Y]; cbn [app] in *; rewrite unc_len_scan in *.
  - rewrite C in U. rewrite C'. exact U.
  - rewrite (unc_scan_sep 0 Y c' c bs C' C). exact U.
Qed.

(** So does dropping one of two separators before the base. *)
Lemma unc_len_drop_sep_before_base (z : ascii) (Y : str) (s c : ascii) (bs : str) :
  is_sep s = true -> is_sep c = true ->
  Forall (fun a => non is_sep a = true) bs ->
  unc_len (z :: Y ++ s :: c :: bs) = 0 -> unc_len (z :: Y ++ s :: bs) = 0.
Proof.
  intros Hs Hc F U. apply Nat.eqb_eq. apply Nat.eqb_eq in U.
  destruct Y as [|b Y]; cbn [app] in *; rewrite unc_len_scan in *.
  - rewrite (unc_scan_free 0 bs) by (auto; lia). rewrite !andb_false_r. reflexivity.
  - rewrite <- (unc_scan_dup 0 Y s c bs Hs Hc). exact U.
Qed.

Lemma unc_len_two_seps_base (z s : ascii) (bs : str) :
  Forall (fun a => non is_sep a = true) bs -> unc_len (z :: s :: bs) = 0.
Proof.
  intros F. apply Nat.eqb_eq. rewrite unc_len_scan.
  rewrite (unc_scan_free 0 bs) by (auto; lia). rewrite !andb_false_r. reflexivity.
Qed.

Lemma has_drive_sep (z : ascii) (T : str) : is_sep z = true -> has_drive (z :: T) = false.
Proof.
  intros Z. apply has_drive_not_letter. unfold is_sep in Z. unfold is_letter.
  destruct (Ascii.eqb_spec z "\") as [->|]; [reflexivity|].
  destruct (Ascii.eqb_spec z "/") as [->|]; [reflexivity | discriminate Z].
Qed.

(** ** Windows: [format] after [parse] *)

Lemma win32_format_obj (info : PathInfo) :
  Win32.format (obj_of info)
  = Ok (if is_empty (dir info) then base info
        else if ends_with "\" (dir info) then dir info ++ base info
             else dir info ++ lit "\" ++ base info).
Proof.
  unfold Win32.format, obj_of. cbn [isObject typeof get_root bind truthy].
  change (str_eqb (lit "object") (lit "object")) with true. cbn [negb].
  destruct (is_empty (root info)); cbn [negb isString typeof];
    change (str_eqb (lit "string") (lit "string")) with true; cbn [negb get_dir get_base or_empty];
    destruct (is_empty (dir info)); try reflexivity;
    destruct (ends_with "\" (dir info)); reflexivity.
Qed.

Lemma abs_of_slash (p : str) :
  abs_of p = unc_of p || negb (is_empty (slash_of p)).
Proof.
  unfold abs_of, slash_of, starts_with_cls. f_equal.
  destruct (after_device p) as [|a r]; [reflexivity|].
  destruct (is_sep a); reflexivity.
Qed.

Lemma device_of_nil (p : str) : device_len p = 0 -> device_of p = [].
Proof. unfold device_of. intros ->. reflexivity. Qed.

(** The reading of a path rebuilt from the device of [p], a root
    separator or none, and a tail. *)
Lemma rebuilt_stat (p sl T : str) :
  (sl = [] /\ starts_with_cls is_sep T = false)
  \/ (exists z, sl = [z] /\ is_sep z = true) ->
  (device_len p <> 0 -> has_drive p = false ->
   starts_with_cls (non is_sep) (sl ++ T) = false) ->
  (device_len p = 0 ->
   has_drive (sl ++ T) = false /\ unc_len (sl ++ T) = 0) ->
  device_of (device_of p ++ sl ++ T) = device_of p
  /\ tail_of (device_of p ++ sl ++ T) = T
  /\ unc_of (device_of p ++ sl ++ T) = unc_of p
  /\ abs_of (device_of p ++ sl ++ T) = unc_of p || negb (is_empty sl).
Proof.
  intros C HR H0.
  destruct (Nat.eq_dec (device_len p) 0) as [Z|N].
  - destruct (H0 Z) as [HD UL]. rewrite (device_of_nil p Z). cbn [app].
    assert (L : device_len (sl ++ T) = length (@nil ascii)).
    { unfold device_len. rewrite HD. exact UL. }
    destruct (stat_of_parts (sl ++ T) [] sl T L eq_refl C) as (E1 & E2 & E3).
    assert (UX : unc_of (sl ++ T) = false).
    { rewrite unc_of_device_len, L. cbn. apply andb_false_r. }
    assert (UP : unc_of p = false).
    { rewrite unc_of_device_len, Z. cbn. apply andb_false_r. }
    repeat split; try assumption.
    + congruence.
    + unfold abs_of. rewrite UX, UP, E3. reflexivity.
  - destruct (device_rebuild p (sl ++ T) N (HR N)) as (HD & L & L').
    destruct (stat_of_parts _ (device_of p) sl T L eq_refl C) as (E1 & E2 & E3).
    assert (UX : unc_of (device_of p ++ sl ++ T) = unc_of p).
    { rewrite !unc_of_device_len, HD, L'. reflexivity. }
    repeat split; try assumption.
    unfold abs_of at 1. rewrite UX, E3. reflexivity.
Qed.

Lemma filter_split_sep_any (Y : str) (c c' : ascii) (bs : str) :
  is_sep c = true -> is_sep c' = true ->
  filter non_empty (split_cls is_sep (Y ++ c :: bs))
  = filter non_empty (split_cls is_sep (Y ++ c' :: bs)).
Proof.
  intros C C'. rewrite !split_cls_app by assumption. reflexivity.
Qed.

Lemma filter_split_sep_dup (Y : str) (s c : ascii) (bs : str) :
  is_sep s = true -> is_sep c = true ->
  filter non_empty (split_cls is_sep ((Y ++ [s]) ++ c :: bs))
  = filter non_empty (split_cls is_sep (Y ++ s :: bs)).
Proof.
  intros Hs Hc. rewrite !split_cls_app by assumption.
  rewrite !filter_app. cbn [split_cls filter non_empty is_empty negb].
  rewrite app_nil_r. reflexivity.
Qed.

Lemma ends_with_sep_free (a w : str) :
  Forall (fun x => non is_sep x = true) w -> w <> [] ->
  ends_with_sep (a ++ w) = false.
Proof.
  intros F N. unfold ends_with_sep. rewrite ends_with_cls_app by exact N.
  apply ends_with_cls_free. eapply Forall_impl; [|exact F].
  intros x. apply non_sep_sep.
Qed.

Lemma ends_with_backslash_sep (s : str) :
  ends_with "\" s = true -> ends_with_sep s = true.
Proof.
  unfold ends_with, ends_with_sep, ends_with_cls.
  destruct (rev s) as [|a r]; [discriminate|].
  intros H. apply Ascii.eqb_eq in H. subst a. reflexivity.
Qed.

Lemma ends_with_snoc (c a : ascii) (s : str) :
  ends_with c (s ++ [a]) = Ascii.eqb a c.
Proof. unfold ends_with. rewrite rev_app_distr. reflexivity. Qed.

(** A device does not end with a separator. *)
Lemma device_end (p : str) : ends_with_sep (device_of p) = false.
Proof.
  destruct (Nat.eq_dec (device_len p) 0) as [Z|N];
    [rewrite (device_of_nil p Z); reflexivity|].
  unfold device_of.
  destruct (device_len_cases p) as [(D & L & a & b & r & -> & _ & ->)|(D & L)].
  - rewrite L. reflexivity.
  - rewrite L in *. destruct (unc_parts p N)
      as (a & b & host & seps & share & F & _ & _ & _ & _ & _ & _ & SH & SHN).
    rewrite F.
    change (a :: b :: host ++ seps ++ share) with ([a; b] ++ host ++ seps ++ share).
    rewrite !app_assoc. apply ends_with_sep_free; assumption.
Qed.

(** After a UNC device comes nothing or a separator. *)
Lemma unc_after (p : str) :
  has_drive p = false -> device_len p <> 0 ->
  starts_with_cls (non is_sep) (after_device p) = false.
Proof.
  intros D N. unfold after_device.
  destruct (device_len_cases p) as [(D' & _)|(_ & L)]; [congruence|].
  rewrite L in *.
  destruct (unc_parts_full p N)
    as (a & b & host & seps & share & R & P & U & _ & _ & _ & _ & _ & _ & _ & _ & R0).
  rewrite U. rewrite P. rewrite skipn_app, Nat.sub_diag, skipn_all. exact R0.
Qed.

Lemma unc_len_first_not_sep (T : str) :
  starts_with_cls is_sep T = false -> unc_len T = 0.
Proof.
  intros S. destruct T as [|c [|b r]]; try reflexivity.
  simpl in S. unfold unc_len. rewrite S. reflexivity.
Qed.

Lemma unc_len_second_not_sep (z : ascii) (T : str) :
  starts_with_cls is_sep T = false -> unc_len (z :: T) = 0.
Proof.
  intros S. destruct T as [|c r]; [reflexivity|].
  simpl in S. unfold unc_len. rewrite S, andb_false_r. reflexivity.
Qed.

Lemma free_no_sep_start (w : str) :
  Forall (fun x => non is_sep x = true) w -> starts_with_cls is_sep w = false.
Proof.
  intros F. destruct F as [|a w A _]; [reflexivity|]. apply non_sep_sep, A.
Qed.

Lemma starts_with_cls_app (c : ascii -> bool) (Y A B : str) :
  Y <> [] -> starts_with_cls c (Y ++ A) = starts_with_cls c (Y ++ B).
Proof. destruct Y; [congruence | reflexivity]. Qed.

Lemma device_len_zero (p : str) :
  device_len p = 0 -> has_drive p = false /\ unc_len p = 0.
Proof.
  unfold device_len. destruct (has_drive p); [discriminate | auto].
Qed.

(** The path rebuilt from the device of [p], a root separator and a tail
    normalizes like [p] when root, segments and end agree. *)
Lemma rebuilt_normalize (p sl T : str) :
  (sl = [] /\ starts_with_cls is_sep T = false)
  \/ (exists z, sl = [z] /\ is_sep z = true) ->
  (device_len p <> 0 -> has_drive p = false ->
   starts_with_cls (non is_sep) (sl ++ T) = false) ->
  (device_len p = 0 ->
   has_drive (sl ++ T) = false /\ unc_len (sl ++ T) = 0) ->
  unc_of p || negb (is_empty sl) = abs_of p ->
  filter non_empty (split_cls is_sep T)
  = filter non_empty (split_cls is_sep (tail_of p)) ->
  (norm_path is_sep "\" (negb (abs_of p)) (tail_of p) <> [] ->
   ends_with_sep T = ends_with_sep (tail_of p)) ->
  Win32.normalize (device_of p ++ sl ++ T) = Win32.normalize p.
Proof.
  intros C HR H0 A Sg E.
  destruct (rebuilt_stat p sl T C HR H0) as (E1 & E2 & E3 & E4).
  apply win32_normalize_same.
  - rewrite E1, E3. reflexivity.
  - rewrite E4. exact A.
  - rewrite E2. apply norm_segs_filter, Sg.
  - rewrite E2. exact E.
Qed.

Lemma norm_path_absolute_nil (t : str) :
  filter non_empty (split_cls is_sep t) = [] ->
  norm_path is_sep "\" false t = [].
Proof.
  intros F. unfold norm_path.
  rewrite (norm_segs_filter is_sep false t []) by exact F. reflexivity.
Qed.

(** The UNC condition of [rebuilt_normalize] when the tail of [p] is not
    empty: a UNC device is then followed by a root separator. *)
Lemma unc_then_slash (p T : str) :
  tail_of p <> [] ->
  device_len p <> 0 -> has_drive p = false ->
  starts_with_cls (non is_sep) (slash_of p ++ T) = false.
Proof.
  intros TN N D. pose proof (unc_after p D N) as UA.
  destruct (path_parts p) as (_ & [(S0 & ST)|(z & -> & Z)]).
  - exfalso. unfold slash_of, tail_of in *.
    destruct (after_device p) as [|a r]; [congruence|].
    simpl in UA. unfold non in UA. destruct (is_sep a); discriminate.
  - simpl. apply sep_non_sep, Z.
Qed.

Lemma round_trip_body (p Y : str) (c : ascii) (bs : str) :
  tail_of p = (Y ++ [c]) ++ bs ->
  is_sep c = true ->
  Forall (fun x => non is_sep x = true) bs -> bs <> [] ->
  Win32.normalize
    (if is_empty ((device_of p ++ slash_of p) ++ Y) then bs
     else if ends_with "\" ((device_of p ++ slash_of p) ++ Y)
          then ((device_of p ++ slash_of p) ++ Y) ++ bs
          else ((device_of p ++ slash_of p) ++ Y) ++ lit "\" ++ bs)
  = Win32.normalize p.
Proof.
  intros T C Fb BN.
  destruct (path_parts p) as (PP & SL).
  assert (TN : tail_of p <> []).
  { rewrite T. destruct Y; discriminate. }
  (* with no root separator the dir body starts with a segment *)
  assert (YS : slash_of p = [] -> Y <> [] /\ starts_with_cls is_sep Y = false).
  { intros S0. destruct SL as [(_ & ST)|(z & SZ & _)]; [|congruence].
    rewrite T in ST. destruct Y as [|y Y]; cbn in ST; [congruence|].
    split; [discriminate | exact ST]. }
  assert (AB : unc_of p || negb (is_empty (slash_of p)) = abs_of p)
    by (symmetry; apply abs_of_slash).
  assert (EF : forall a, ends_with_sep (a ++ bs) = false)
    by (intros a; apply ends_with_sep_free; assumption).
  assert (ET : ends_with_sep (tail_of p) = false) by (rewrite T; apply EF).
  (* the first two characters of a path without device and root *)
  assert (P0 : device_len p = 0 -> slash_of p = [] -> p = Y ++ c :: bs).
  { intros Z S0. rewrite PP at 1. rewrite (device_of_nil p Z), S0, T.
    cbn [app]. rewrite <- app_assoc. reflexivity. }
  assert (PZ : forall z, device_len p = 0 -> slash_of p = [z] ->
                         p = z :: Y ++ c :: bs).
  { intros z Z SZ. rewrite PP at 1. rewrite (device_of_nil p Z), SZ, T.
    cbn [app]. rewrite <- app_assoc. reflexivity. }
  destruct (is_empty ((device_of p ++ slash_of p) ++ Y)) eqn:IE.
  { exfalso. destruct (device_of p); [|discriminate IE].
    destruct (slash_of p) eqn:S0; [|discriminate IE].
    destruct (YS eq_refl) as [YN _]. destruct Y; [congruence | discriminate IE]. }
  destruct (ends_with "\" ((device_of p ++ slash_of p) ++ Y)) eqn:EW.
  - (* the dir ends with a backslash: no separator is added *)
    replace (((device_of p ++ slash_of p) ++ Y) ++ bs)
      with (device_of p ++ slash_of p ++ (Y ++ bs))
      by (rewrite !app_assoc; reflexivity).
    apply rebuilt_normalize.
    + destruct SL as [(S0 & ST)|Z]; [left | right; exact Z].
      split; [exact S0|]. destruct (YS S0) as [YN YS0].
      destruct Y as [|y Y]; [congruence | exact YS0].
    + apply unc_then_slash, TN.
    + intros Z. destruct (device_len_zero p Z) as [HD UL].
      destruct SL as [(S0 & ST)|(z & SZ & ZS)].
      * rewrite S0. cbn [app]. destruct (YS S0) as [YN YS0].
        split.
        -- rewrite (P0 Z S0) in HD.
           destruct Y as [|y1 [|y2 Y]]; [congruence| |exact HD].
           exfalso. rewrite (device_of_nil p Z), S0 in EW. cbn in EW, YS0.
           apply Ascii.eqb_eq in EW. subst y1. discriminate YS0.
        -- apply unc_len_first_not_sep.
           destruct Y as [|y Y]; [congruence | exact YS0].
      * rewrite SZ. cbn [app]. split; [apply has_drive_sep, ZS|].
        rewrite (PZ z Z SZ) in UL.
        rewrite (device_of_nil p Z), SZ in EW. cbn [app] in EW.
        destruct Y as [|s Y1 _] using rev_ind.
        -- cbn [app]. apply unc_len_second_not_sep, free_no_sep_start, Fb.
        -- rewrite app_comm_cons, ends_with_snoc in EW. apply Ascii.eqb_eq in EW.
           subst s. rewrite <- app_assoc in UL |- *. cbn [app] in UL |- *.
           apply (unc_len_drop_sep_before_base z Y1 "\" c bs); auto.
    + exact AB.
    + rewrite T.
      destruct Y as [|s Y1 _] using rev_ind.
      * cbn [app split_cls]. rewrite C. reflexivity.
      * assert (SS : is_sep s = true).
        { rewrite app_assoc, ends_with_snoc in EW. apply Ascii.eqb_eq in EW.
          subst s. reflexivity. }
        replace (((Y1 ++ [s]) ++ [c]) ++ bs) with ((Y1 ++ [s]) ++ c :: bs)
          by (rewrite <- !app_assoc; reflexivity).
        replace ((Y1 ++ [s]) ++ bs) with (Y1 ++ s :: bs)
          by (rewrite <- app_assoc; reflexivity).
        symmetry. apply filter_split_sep_dup; assumption.
    + intros _. rewrite ET. apply EF.
  - (* a backslash is added between the dir and the base *)
    replace (((device_of p ++ slash_of p) ++ Y) ++ lit "\" ++ bs)
      with (device_of p ++ slash_of p ++ (Y ++ "\"%char :: bs))
      by (rewrite <- !app_assoc; reflexivity).
    apply rebuilt_normalize.
    + destruct SL as [(S0 & ST)|Z]; [left | right; exact Z].
      split; [exact S0|]. destruct (YS S0) as [YN YS0].
      destruct Y as [|y Y]; [congruence | exact YS0].
    + apply unc_then_slash, TN.
    + intros Z. destruct (device_len_zero p Z) as [HD UL].
      destruct SL as [(S0 & ST)|(z & SZ & ZS)].
      * rewrite S0. cbn [app]. destruct (YS S0) as [YN YS0].
        split.
        -- rewrite (P0 Z S0) in HD.
           destruct Y as [|y1 [|y2 Y]]; [congruence| |exact HD].
           cbn [app has_drive]. apply andb_false_r.
        -- apply unc_len_first_not_sep.
           destruct Y as [|y Y]; [congruence | exact YS0].
      * rewrite SZ. cbn [app]. split; [apply has_drive_sep, ZS|].
        rewrite (PZ z Z SZ) in UL.
        apply (unc_len_sep_before_base z Y c "\" bs); auto.
    + exact AB.
    + rewrite T, <- app_assoc. cbn [app].
      apply filter_split_sep_any; auto.
    + intros _. rewrite ET. change ("\"%char :: bs) with (lit "\" ++ bs).
      rewrite app_assoc. apply EF.
Qed.

Lemma round_trip_no_body (p bs trail : str) :
  tail_of p = bs ++ trail ->
  Forall (fun x => is_sep x = true) trail ->
  Forall (fun x => non is_sep x = true) bs ->
  ends_with_sep p = false \/ bs = [] ->
  is_bare_drive (device_of p ++ slash_of p) = false ->
  Win32.normalize
    (if is_empty (device_of p ++ slash_of p) then bs
     else if ends_with "\" (device_of p ++ slash_of p)
          then (device_of p ++ slash_of p) ++ bs
          else (device_of p ++ slash_of p) ++ lit "\" ++ bs)
  = Win32.normalize p.
Proof.
  intros T Ft Fb Hyp NB.
  destruct (path_parts p) as (PP & SL).
  assert (TB : bs <> [] -> trail = []).
  { intros BN. destruct Hyp as [EW|BE]; [|contradiction].
    destruct trail as [|c trail]; [reflexivity|]. exfalso.
    rewrite PP, T, !app_assoc in EW. unfold ends_with_sep in EW.
    rewrite ends_with_cls_run in EW; [discriminate | exact Ft | discriminate]. }
  assert (Sg : filter non_empty (split_cls is_sep bs)
               = filter non_empty (split_cls is_sep (tail_of p))).
  { rewrite T. symmetry. apply filter_split_cls_trail, Ft. }
  assert (NP : norm_path is_sep "\" false (tail_of p) <> [] -> bs <> []).
  { intros NE BE. apply NE, norm_path_absolute_nil.
    rewrite <- Sg, BE. reflexivity. }
  assert (AS : abs_of p = unc_of p || negb (is_empty (slash_of p)))
    by apply abs_of_slash.
  destruct (is_empty (device_of p ++ slash_of p)) eqn:IE.
  - (* no device and no root *)
    destruct (device_of p) eqn:D; [|discriminate IE].
    destruct (slash_of p) eqn:S0; [|discriminate IE].
    cbn [app] in PP.
    assert (TN : trail = []).
    { destruct (list_eq_dec ascii_dec bs []) as [BE|BN]; [|apply TB, BN].
      destruct SL as [(_ & ST)|(z & Z & _)]; [|discriminate Z].
      rewrite T, BE in ST. cbn [app] in ST.
      destruct Ft as [|c trail Cs _]; [reflexivity|].
      cbn in ST. congruence. }
    rewrite PP, T, TN, app_nil_r. reflexivity.
  - destruct SL as [(S0 & ST)|(z & SZ & ZS)].
    + (* a device and no root *)
      rewrite S0, app_nil_r in *.
      destruct (ends_with "\" (device_of p)) eqn:EW.
      { apply ends_with_backslash_sep in EW. rewrite device_end in EW. discriminate EW. }
      assert (N : device_len p <> 0).
      { intros Z. rewrite (device_of_nil p Z) in IE. discriminate IE. }
      destruct (device_len_cases p) as [(HD & L & a & b & r & Pe & La & Cb)|(HD & L)].
      { exfalso. unfold device_of in NB. rewrite L, Pe in NB.
        cbn [firstn] in NB. unfold is_bare_drive, has_drive in NB.
        rewrite La, Cb in NB. discriminate NB. }
      pose proof (unc_after p HD N) as UA.
      assert (T0 : tail_of p = []).
      { unfold tail_of, slash_of in *. destruct (after_device p) as [|x r]; [reflexivity|].
        simpl in UA. unfold non in UA. destruct (is_sep x); discriminate. }
      assert (B0 : bs = []).
      { rewrite T0 in T. destruct bs; [reflexivity | discriminate T]. }
      rewrite B0.
      apply rebuilt_normalize.
      * right. exists "\"%char. auto.
      * intros _ _. reflexivity.
      * intros Z. contradiction.
      * rewrite AS, unc_of_device_len, HD.
        apply Nat.eqb_neq in N. rewrite N. reflexivity.
      * rewrite T0. reflexivity.
      * intros _. rewrite T0. reflexivity.
    + (* a root separator *)
      rewrite SZ in *. cbn [is_empty negb] in AS. rewrite orb_true_r in AS.
      destruct (ends_with "\" (device_of p ++ [z])) eqn:EW.
      * replace ((device_of p ++ [z]) ++ bs) with (device_of p ++ [z] ++ bs)
          by (rewrite <- app_assoc; reflexivity).
        apply rebuilt_normalize.
        -- right. eauto.
        -- intros _ _. simpl. apply sep_non_sep, ZS.
        -- intros _. cbn [app]. split; [apply has_drive_sep, ZS|].
           apply unc_len_second_not_sep, free_no_sep_start, Fb.
        -- rewrite AS. cbn [is_empty negb]. apply orb_true_r.
        -- exact Sg.
        -- rewrite AS. cbn [negb]. intros NE.
           rewrite T, (TB (NP NE)), app_nil_r. reflexivity.
      * replace ((device_of p ++ [z]) ++ lit "\" ++ bs)
          with (device_of p ++ [z] ++ ("\"%char :: bs))
          by (rewrite <- app_assoc; reflexivity).
        apply rebuilt_normalize.
        -- right. eauto.
        -- intros _ _. simpl. apply sep_non_sep, ZS.
        -- intros _. cbn [app]. split; [apply has_drive_sep, ZS|].
           apply unc_len_two_seps_base, Fb.
        -- rewrite AS. cbn [is_empty negb]. apply orb_true_r.
        -- rewrite <- Sg. reflexivity.
        -- rewrite AS. cbn [negb]. intros NE. pose proof (NP NE) as BN.
           rewrite T, (TB BN), app_nil_r.
           change ("\"%char :: bs) with (lit "\" ++ bs).
           unfold ends_with_sep. apply ends_with_cls_app, BN.
Qed.

Lemma win32_round_trip (p : str) (info : PathInfo) :
  Win32.parse (VStr p) = Ok info ->
  ends_with_sep p = false \/ base info = [] ->
  is_bare_drive (dir info) = false ->
  exists x, Win32.format (obj_of info) = Ok x
            /\ Win32.normalize x = Win32.normalize p.
Proof.
  intros P Hyp NB. rewrite win32_format_obj. eexists. split; [reflexivity|].
  destruct (win32_parse_eq p) as (e & n & E). rewrite E in P.
  injection P as <-. cbn [dir base] in *.
  destruct (dir_split is_sep (tail_of p)) as (trail & T & Ft & Fb & Body).
  destruct Body as [B0|(Y & c & B & C & BN)].
  - rewrite B0 in *. cbn [removelast app] in *. rewrite app_nil_r in *.
    apply (round_trip_no_body p _ trail); assumption.
  - rewrite B in *. rewrite removelast_last in *.
    assert (TN : trail = []).
    { destruct Hyp as [EW|BE]; [|contradiction].
      destruct trail as [|s trail]; [reflexivity|]. exfalso.
      destruct (path_parts p) as (PP & _).
      rewrite PP, T, !app_assoc in EW. unfold ends_with_sep in EW.
      rewrite ends_with_cls_run in EW; [discriminate | exact Ft | discriminate]. }
    rewrite TN, app_nil_r in T.
    apply (round_trip_body p Y c); assumption.
Qed.

(** * Further properties of the drivers *)

(** ** [trimArray] *)

Lemma trim_start_shift (n : nat) (arr : list str) :
  trim_start n arr = n + trim_start 0 arr.
Proof.
  revert n; induction arr as [|x arr IH]; intros n; simpl; [lia|].
  destruct (is_empty x); [|lia].
  rewrite (IH (S n)), (IH 1). lia.
Qed.

Lemma skipn_trim_start (arr : list str) :
  skipn (trim_start 0 arr) arr = drop_empty arr
  /\ trim_start 0 arr <= length arr.
Proof.
  induction arr as [|x arr [IH L]]; simpl; [split; [reflexivity | lia]|].
  destruct (is_empty x).
  - rewrite trim_start_shift. simpl. split; [exact IH | lia].
  - split; [reflexivity | lia].
Qed.

Lemma drop_empty_head (arr : list str) (x : str) (d : list str) :
  drop_empty arr = x :: d -> x <> [].
Proof.
  induction arr as [|y arr IH]; simpl; [discriminate|].
  destruct y as [|a y]; simpl; [exact IH|].
  intros E. injection E as <- _. discriminate.
Qed.

Lemma trim_start_app (a b : list str) :
  drop_empty a <> [] -> trim_start 0 (a ++ b) = trim_start 0 a.
Proof.
  induction a as [|x a IH]; simpl; [congruence|].
  destruct (is_empty x); [|reflexivity].
  intros H. rewrite (trim_start_shift 1 (a ++ b)), (trim_start_shift 1 a), IH by exact H.
  reflexivity.
Qed.

Lemma drop_empty_snoc (l : list str) (x : str) :
  x <> [] -> drop_empty (l ++ [x]) <> [].
Proof.
  intros X. induction l as [|y l IH]; simpl.
  - rewrite (is_empty_false x X). discriminate.
  - destruct (is_empty y); [exact IH | discriminate].
Qed.

Lemma trimArray_eq (arr : list str) :
  trimArray arr = rev (drop_empty (rev (drop_empty arr))).
Proof.
  unfold trimArray, trim_end.
  destruct (skipn_trim_start arr) as [D L].
  set (s := trim_start 0 arr) in *.
  destruct (drop_empty arr) as [|x d] eqn:DE.
  - assert (S : s = length arr).
    { assert (length (skipn s arr) = 0) by (rewrite D; reflexivity).
      rewrite length_skipn in H. lia. }
    simpl.
    destruct (Nat.eqb_spec s 0) as [Z|Z]; cbn [andb].
    + destruct arr; [|simpl in S; lia].
      destruct (_ =? _); reflexivity.
    + destruct (_ <=? _); [reflexivity|]. rewrite D. apply firstn_nil.
  - pose proof (drop_empty_head _ _ _ DE) as X.
    assert (A : arr = firstn s arr ++ x :: d)
      by (rewrite <- D; symmetry; apply firstn_skipn).
    assert (T : trim_start 0 (rev arr) = trim_start 0 (rev (x :: d))).
    { rewrite A at 1. rewrite rev_app_distr. apply trim_start_app.
      simpl. apply drop_empty_snoc, X. }
    destruct (skipn_trim_start (rev (x :: d))) as [D' L'].
    set (t := trim_start 0 (rev (x :: d))) in *.
    assert (T' : t <= length d).
    { assert (N : length (skipn t (rev (x :: d))) <> 0).
      { rewrite D'. simpl.
        pose proof (drop_empty_snoc (rev d) x X) as N.
        destruct (drop_empty (rev d ++ [x])); [congruence | discriminate]. }
      rewrite length_skipn, length_rev in N. cbn [length] in N. lia. }
    assert (Len : length arr = s + S (length d)).
    { assert (H : length (skipn s arr) = S (length d)) by (rewrite D; reflexivity).
      rewrite length_skipn in H. lia. }
    rewrite T. rewrite <- D', skipn_rev, rev_involutive.
    assert (F : firstn (length arr - t - s) (skipn s arr)
                = firstn (length (x :: d) - t) (x :: d)).
    { rewrite D. f_equal. cbn [length]. lia. }
    destruct (Nat.eqb_spec s 0) as [Z|Z]; cbn [andb].
    + destruct (Nat.eqb_spec (length arr - t) (length arr)) as [Y|Y].
      * rewrite <- F. replace (length arr - t - s) with (length (skipn s arr))
          by (rewrite length_skipn; lia).
        rewrite firstn_all, Z. reflexivity.
      * destruct (Nat.leb_spec (length arr - t) s); [lia | exact F].
    + destruct (Nat.leb_spec (length arr - t) s); [lia | exact F].
Qed.

Lemma drop_empty_id (l : list str) :
  Forall (fun w => w <> []) l -> drop_empty l = l.
Proof.
  destruct l as [|x l]; [reflexivity|]. intros H. inversion H; subst.
  simpl. rewrite is_empty_false by assumption. reflexivity.
Qed.

Lemma trimArray_id (l : list str) :
  Forall (fun w => w <> []) l -> trimArray l = l.
Proof.
  intros H. rewrite trimArray_eq, (drop_empty_id l H), drop_empty_id.
  - apply rev_involutive.
  - apply Forall_rev, H.
Qed.

(** X1: [trimArray] returns its argument without the empty strings at its start
    and at its end: a list of empty strings only gives the empty list, and
    a second pass changes nothing. *)
Theorem trimArray_drops_empty_ends (arr : list str) :
  trimArray arr = rev (drop_empty (rev (drop_empty arr)))
  /\ trimArray (trimArray arr) = trimArray arr.
Proof.
  split; [apply trimArray_eq|].
  rewrite (trimArray_eq (trimArray arr)), trimArray_eq.
  set (d := drop_empty (rev (drop_empty arr))).
  assert (D : drop_empty d = d).
  { unfold d. generalize (rev (drop_empty arr)). intros l.
    induction l as [|x l IH]; [reflexivity|]. simpl.
    destruct (is_empty x) eqn:E; [exact IH|]. simpl. rewrite E. reflexivity. }
  assert (R : drop_empty (rev d) = rev d).
  { unfold d.
    destruct (drop_empty arr) as [|x r] eqn:E; [reflexivity|].
    pose proof (drop_empty_head _ _ _ E) as X. simpl.
    destruct (skipn_trim_start (rev r ++ [x])) as [K L].
    set (t := trim_start 0 (rev r ++ [x])) in *.
    assert (T : t <= length (rev r)).
    { assert (M : length (skipn t (rev r ++ [x])) <> 0).
      { rewrite K. pose proof (drop_empty_snoc (rev r) x X) as N.
        destruct (drop_empty (rev r ++ [x])); [congruence | discriminate]. }
      rewrite length_skipn, length_app in M. cbn [length] in M. lia. }
    rewrite <- K, skipn_app.
    replace (t - length (rev r)) with 0 by lia.
    cbn [skipn]. rewrite rev_app_distr. cbn [rev app drop_empty].
    rewrite (is_empty_false x X). reflexivity. }
  rewrite R, rev_involutive, D. reflexivity.
Qed.

(** ** [normalizeArray] *)

Lemma In_removelast {A} (x : A) (l : list A) : In x (removelast l) -> In x l.
Proof.
  induction l as [|a l IH]; [auto|].
  destruct l as [|b l]; [intros []|].
  intros [E|H]; [left; exact E | right; apply IH, H].
Qed.

Lemma normalizeArray_step_incl (allow : bool) (res parts : list str) (p : str) :
  incl res parts -> In p parts -> incl (normalizeArray_step allow res p) parts.
Proof.
  intros I P. unfold normalizeArray_step.
  destruct (is_empty p || str_eqb p (lit ".")); [exact I|].
  destruct (str_eqb_spec p (lit "..")) as [E|E].
  - destruct (_ && _).
    + intros x Hx. apply I, In_removelast, Hx.
    + destruct allow; [|exact I].
      apply incl_app; [exact I|]. intros x [<-|[]]. rewrite <- E. exact P.
  - apply incl_app; [exact I|]. intros x [<-|[]]. exact P.
Qed.

(** X2: The list that [normalizeArray] returns is some ".." (none unless
    [allowAboveRoot]) followed by segments that are not empty, not "." and
    not ".."; and it holds only segments of the input. *)
Theorem normalizeArray_output (parts : list str) (allowAboveRoot : bool) :
  (exists k names,
      normalizeArray parts allowAboveRoot = repeat (lit "..") k ++ names
      /\ Forall is_name names
      /\ (allowAboveRoot = false -> k = 0))
  /\ incl (normalizeArray parts allowAboveRoot) parts.
Proof.
  split; [apply normalizeArray_normal|].
  unfold normalizeArray.
  assert (G : forall l res, incl l parts -> incl res parts ->
                incl (fold_left (normalizeArray_step allowAboveRoot) l res) parts).
  { induction l as [|p l IH]; intros res L R; [exact R|].
    simpl. apply IH.
    - intros x Hx. apply L. right. exact Hx.
    - apply normalizeArray_step_incl; [exact R | apply L; left; reflexivity]. }
  apply G; [apply incl_refl | intros x []].
Qed.

Lemma normalizeArray_app (a b : list str) (allow : bool) :
  normalizeArray (a ++ b) allow
  = fold_left (normalizeArray_step allow) b (normalizeArray a allow).
Proof. unfold normalizeArray. apply fold_left_app. Qed.

(** X3: Normalizing a list is the same as normalizing it after its first part
    has been normalized; so normalizing twice changes nothing. *)
Theorem normalizeArray_prefix (a b : list str) (allowAboveRoot : bool) :
  normalizeArray (normalizeArray a allowAboveRoot ++ b) allowAboveRoot
  = normalizeArray (a ++ b) allowAboveRoot.
Proof.
  rewrite !normalizeArray_app, normalizeArray_idempotent. reflexivity.
Qed.

(** ** POSIX [normalize] and [join] *)

Lemma norm_tail_non_empty (sepc : ascii -> bool) (sc : ascii) (allow tr : bool)
      (t : str) :
  norm_path sepc sc allow t <> [] -> norm_tail sepc sc allow tr t <> [].
Proof.
  unfold norm_tail. destruct (norm_path sepc sc allow t); [congruence|].
  intros _. destruct (_ && tr); discriminate.
Qed.

Lemma norm_tail_false (sepc : ascii -> bool) (sc : ascii) (allow : bool) (t : str) :
  norm_tail sepc sc allow false t = norm_path sepc sc allow t.
Proof. unfold norm_tail. rewrite andb_false_r. reflexivity. Qed.

(** X4: POSIX [normalize] never returns the empty string, and its result is
    absolute exactly when its argument is. *)
Theorem posix_normalize_keeps_absolute (p : str) :
  Posix.normalize p <> []
  /\ Posix.isAbsolute (Posix.normalize p) = Posix.isAbsolute p.
Proof.
  rewrite posix_normalize_eq.
  destruct (Posix.isAbsolute p) eqn:A; cbn [negb app].
  - split; [discriminate | reflexivity].
  - set (tr := negb (is_empty p) && ends_with "/" p).
    split.
    + apply norm_tail_non_empty, norm_path_relative_non_empty.
    + change (Posix.isAbsolute ?s) with (starts_with_cls is_slash s).
      apply norm_tail_start. reflexivity.
Qed.

Lemma join_str_glue (sep x y : str) (r : list str) :
  join_str sep ((x ++ sep ++ y) :: r) = x ++ sep ++ join_str sep (y :: r).
Proof.
  destruct r as [|z r]; [reflexivity|].
  cbn [join_str]. rewrite <- !app_assoc. reflexivity.
Qed.

Lemma posix_join_loop_eq (l : list str) (acc : str) :
  Posix.join_loop (map VStr l) acc
  = Ok (join_str (lit "/") (filter non_empty (acc :: l))).
Proof.
  revert acc; induction l as [|s l IH]; intros acc.
  - destruct acc; reflexivity.
  - cbn [map Posix.join_loop]. rewrite as_string_VStr. cbn [bind].
    rewrite IH. destruct s as [|a s]; cbn [is_empty negb].
    + destruct acc; reflexivity.
    + destruct acc as [|b acc]; cbn [is_empty filter non_empty negb app].
      * reflexivity.
      * change ((b :: acc) ++ lit "/" ++ a :: s)
          with ((b :: acc) ++ lit "/" ++ (a :: s)).
        destruct (b :: acc ++ lit "/" ++ a :: s) eqn:E; [discriminate|].
        rewrite <- E.
        change (b :: acc ++ lit "/" ++ a :: s)
          with ((b :: acc) ++ lit "/" ++ (a :: s)).
        f_equal. apply join_str_glue.
Qed.

(** X5: POSIX [join] on strings joins the non-empty ones with "/" and
    normalizes the result. *)
Theorem posix_join_normalizes (paths : list str) :
  Posix.join (map VStr paths)
  = Ok (Posix.normalize (join_str (lit "/") (filter non_empty paths))).
Proof.
  unfold Posix.join. rewrite posix_join_loop_eq. reflexivity.
Qed.

(** ** POSIX [resolve] *)

Lemma segments_app (x y : str) :
  segments (x ++ lit "/" ++ y) = segments x ++ segments y.
Proof. unfold segments. simpl. rewrite split_chr_app, filter_app. reflexivity. Qed.

Lemma norm_segs_segments (allow : bool) (t : str) :
  norm_segs is_slash allow t = normalizeArray (segments t) allow.
Proof.
  unfold norm_segs, segments. rewrite normalizeArray_filter, split_chr_cls.
  reflexivity.
Qed.

Lemma resolve_scan_shape (cwd : str) (rp : list str) :
  exists X a, forall acc, resolve_scan cwd rp acc = (X ++ lit "/" ++ acc, a).
Proof.
  induction rp as [|p rp (X & a & IH)].
  - exists cwd, (starts_with "/" cwd). reflexivity.
  - cbn [resolve_scan]. destruct (starts_with "/" p).
    + exists p, true. reflexivity.
    + exists (X ++ lit "/" ++ p), a. intros acc. rewrite IH.
      rewrite <- !app_assoc. reflexivity.
Qed.

Lemma resolve_scan_absolute (cwd : str) (rp : list str) (acc : str) :
  snd (resolve_scan cwd rp acc)
  = existsb Posix.isAbsolute rp || Posix.isAbsolute cwd.
Proof.
  revert acc; induction rp as [|p rp IH]; intros acc; [reflexivity|].
  cbn [resolve_scan existsb]. unfold Posix.isAbsolute at 1.
  destruct (starts_with "/" p); [reflexivity | apply IH].
Qed.

Lemma posix_resolve_eq (cwd : str) (l : list str) :
  Posix.resolve cwd (map VStr l)
  = Ok ((if snd (resolve_scan cwd (rev l) []) then lit "/" else [])
        ++ norm_path is_slash "/" (negb (snd (resolve_scan cwd (rev l) [])))
             (fst (resolve_scan cwd (rev l) []))).
Proof.
  unfold Posix.resolve. rewrite <- map_rev.
  destruct (posix_resolve_loop_scan cwd (rev l) [] [] eq_refl) as [acc [E S]].
  rewrite E. cbn [bind fst snd].
  destruct (resolve_scan cwd (rev l) []) as [acc_s absolute].
  cbn [fst snd] in *. unfold norm_path. rewrite norm_segs_segments, <- S.
  unfold segments. rewrite normalizeArray_filter.
  change (join_str ["/"%char]) with (join_str (lit "/")).
  set (j := join_str (lit "/") _).
  destruct absolute; cbn [negb]; [rewrite andb_false_r; reflexivity|].
  rewrite andb_true_r. unfold or_str. reflexivity.
Qed.

Lemma posix_resolved_fixed (a : bool) (S : str) :
  Posix.normalize ((if a then lit "/" else []) ++ norm_path is_slash "/" (negb a) S)
  = (if a then lit "/" else []) ++ norm_path is_slash "/" (negb a) S.
Proof.
  assert (SS : is_slash "/" = true) by reflexivity.
  assert (DS : is_slash "." = false) by reflexivity.
  rewrite posix_normalize_eq.
  destruct a; cbn [negb app lit list_ascii_of_string].
  - change (Posix.isAbsolute ("/"%char :: _)) with true.
    cbn [negb is_empty andb app]. f_equal.
    transitivity (norm_tail is_slash "/" false false S); [|apply norm_tail_false].
    apply (norm_tail_again is_slash "/").
    + rewrite norm_segs_leading_sep by exact SS.
      apply (norm_segs_norm_path is_slash "/" SS DS).
    + intros N.
      change (ends_with "/" ?s) with (ends_with_cls is_slash s).
      change ("/"%char :: ?s) with (["/"%char] ++ s).
      rewrite ends_with_cls_app by exact N.
      apply (norm_path_end is_slash "/"); assumption.
  - pose proof (norm_path_relative_non_empty is_slash "/" S) as N.
    change (Posix.isAbsolute ?s) with (starts_with_cls is_slash s).
    rewrite (norm_path_start is_slash "/" DS). cbn [negb app].
    transitivity (norm_tail is_slash "/" true false S); [|apply norm_tail_false].
    apply (norm_tail_again is_slash "/").
    + apply (norm_segs_norm_path is_slash "/" SS DS).
    + intros _. rewrite (is_empty_false _ N). cbn [negb andb].
      change (ends_with "/" ?s) with (ends_with_cls is_slash s).
      apply (norm_path_end is_slash "/"); assumption.
Qed.

(** X6: POSIX [resolve] on strings returns a path that [normalize] leaves as it
    is, and that is absolute exactly when one of the arguments or [cwd]
    is. *)
Theorem posix_resolve_normalized (cwd : str) (paths : list str) :
  exists r,
    Posix.resolve cwd (map VStr paths) = Ok r
    /\ Posix.normalize r = r
    /\ Posix.isAbsolute r = existsb Posix.isAbsolute (paths ++ [cwd]).
Proof.
  rewrite posix_resolve_eq. eexists. split; [reflexivity|].
  split; [apply posix_resolved_fixed|].
  rewrite resolve_scan_absolute, existsb_rev, existsb_app.
  cbn [existsb]. rewrite orb_false_r.
  destruct (existsb Posix.isAbsolute paths || Posix.isAbsolute cwd);
    cbn [negb app]; [reflexivity|].
  change (Posix.isAbsolute ?s) with (starts_with_cls is_slash s).
  apply norm_path_start. reflexivity.
Qed.

Lemma filter_non_empty_id (l : list str) :
  Forall (fun w => w <> []) l -> filter non_empty l = l.
Proof.
  induction 1 as [|x l X _ IH]; [reflexivity|].
  cbn [filter].
  replace (non_empty x) with true
    by (unfold non_empty; rewrite (is_empty_false x X); reflexivity).
  rewrite IH. reflexivity.
Qed.

Lemma segments_join (l : list str) :
  Forall (free_of is_slash) l -> Forall (fun w => w <> []) l ->
  segments (join_str (lit "/") l) = l.
Proof.
  intros F N. destruct l as [|x l]; [reflexivity|].
  unfold segments. rewrite split_chr_cls.
  change (lit "/") with ["/"%char].
  rewrite (split_cls_join is_slash "/") by (reflexivity || discriminate || exact F).
  apply filter_non_empty_id, N.
Qed.

Lemma parts_join (l : list str) :
  Forall (free_of is_slash) l -> Forall (fun w => w <> []) l ->
  trimArray (split_chr "/" (join_str (lit "/") l)) = l.
Proof.
  intros F N. destruct l as [|x l]; [reflexivity|].
  rewrite split_chr_cls. change (lit "/") with ["/"%char].
  rewrite (split_cls_join is_slash "/") by (reflexivity || discriminate || exact F).
  apply trimArray_id, N.
Qed.

Lemma normal_false_names (l : list str) : normal false l -> Forall is_name l.
Proof.
  intros (k & names & -> & N & K). rewrite (K eq_refl). exact N.
Qed.

Lemma segments_trailing (X : str) : segments (X ++ lit "/") = segments X.
Proof.
  pose proof (segments_app X []) as H. rewrite app_nil_r in H.
  rewrite H. apply app_nil_r.
Qed.

Lemma posix_resolved_segments (X : str) :
  normalizeArray (segments (lit "/" ++ norm_path is_slash "/" false (X ++ lit "/"))) false
  = normalizeArray (segments X) false.
Proof.
  rewrite <- !norm_segs_segments.
  change (lit "/" ++ ?s) with ("/"%char :: s).
  rewrite norm_segs_leading_sep by reflexivity.
  rewrite (norm_segs_norm_path is_slash "/") by reflexivity.
  rewrite !norm_segs_segments, segments_trailing. reflexivity.
Qed.

(** X7: When the result of POSIX [resolve] on some paths is absolute, it can
    stand for them in front of further paths: [resolve(a..., b...)] is
    [resolve(resolve(a...), b...)]. *)
Theorem posix_resolve_prefix (cwd : str) (l1 l2 : list str) (r1 : str) :
  Posix.resolve cwd (map VStr l1) = Ok r1 ->
  Posix.isAbsolute r1 = true ->
  Posix.resolve cwd (map VStr (l1 ++ l2)) = Posix.resolve cwd (map VStr (r1 :: l2)).
Proof.
  intros R A. rewrite posix_resolve_eq in R. injection R as R.
  destruct (resolve_scan_shape cwd (rev l1)) as (X & a & Sh).
  rewrite Sh in R. cbn [fst snd] in R.
  destruct a.
  2:{ cbn [negb app] in R. subst r1.
      change (Posix.isAbsolute ?s) with (starts_with_cls is_slash s) in A.
      rewrite norm_path_start in A by reflexivity. discriminate A. }
  cbn [negb] in R. rewrite app_nil_r in R.
  assert (G : forall rp2 acc,
             snd (resolve_scan cwd (rp2 ++ rev l1) acc) = true
             /\ snd (resolve_scan cwd (rp2 ++ [r1]) acc) = true
             /\ norm_segs is_slash false (fst (resolve_scan cwd (rp2 ++ rev l1) acc))
                = norm_segs is_slash false (fst (resolve_scan cwd (rp2 ++ [r1]) acc))).
  { induction rp2 as [|p rp2 IH]; intros acc.
    - cbn [app resolve_scan]. rewrite Sh.
      change (starts_with "/" r1) with (Posix.isAbsolute r1). rewrite A.
      cbn [fst snd]. split; [reflexivity|]. split; [reflexivity|].
      rewrite !norm_segs_segments, !segments_app, !normalizeArray_app.
      f_equal. subst r1. symmetry. apply posix_resolved_segments.
    - cbn [app resolve_scan]. destruct (starts_with "/" p); [|apply IH].
      cbn [fst snd]. auto. }
  rewrite !posix_resolve_eq. rewrite rev_app_distr. cbn [rev].
  destruct (G (rev l2) []) as (S1 & S2 & N).
  rewrite S1, S2. cbn [negb]. unfold norm_path. rewrite N. reflexivity.
Qed.

(** X7 at a concrete input. *)
Lemma posix_resolve_prefix_witness :
  Posix.resolve (lit "/home") (map VStr [lit "a"; lit "../b"]) = Ok (lit "/home/b")
  /\ Posix.isAbsolute (lit "/home/b") = true
  /\ Posix.resolve (lit "/home") (map VStr ([lit "a"; lit "../b"] ++ [lit "c"]))
     = Posix.resolve (lit "/home") (map VStr [lit "/home/b"; lit "c"]).
Proof.
  split; [reflexivity|]. split; [reflexivity|].
  apply (posix_resolve_prefix (lit "/home") [lit "a"; lit "../b"] [lit "c"]
           (lit "/home/b")); reflexivity.
Defined.

(** ** POSIX [relative] *)

Lemma common_prefix_firstn (a b : list str) :
  firstn (common_prefix a b) a = firstn (common_prefix a b) b.
Proof.
  revert b; induction a as [|x a IH]; intros [|y b]; try reflexivity.
  simpl. destruct (str_eqb_spec x y) as [->|]; [|reflexivity].
  simpl. rewrite IH. reflexivity.
Qed.

Lemma common_prefix_le (a b : list str) :
  common_prefix a b <= length a /\ common_prefix a b <= length b.
Proof.
  revert b; induction a as [|x a IH]; intros [|y b]; simpl; try lia.
  destruct (str_eqb x y); simpl; [|lia]. specialize (IH b). lia.
Qed.

Lemma common_prefix_refl (a : list str) : common_prefix a a = length a.
Proof.
  induction a as [|x a IH]; [reflexivity|].
  simpl. rewrite str_eqb_refl, IH. reflexivity.
Qed.

Lemma posix_samePartsLength_common (a b pa pb : list str) :
  length pa = length pb ->
  Posix.samePartsLength (Nat.min (length a) (length b)) (length pa) (pa ++ a) (pb ++ b)
  = length pa + common_prefix a b.
Proof.
  revert b pa pb; induction a as [|x a IH]; intros b pa pb L.
  - simpl. lia.
  - destruct b as [|y b]; [simpl; lia|].
    cbn [length Nat.min Posix.samePartsLength common_prefix].
    rewrite nth_middle. rewrite L at 1. rewrite nth_middle.
    destruct (str_eqb x y); cbn [negb]; [|lia].
    specialize (IH b (pa ++ [x]) (pb ++ [y])).
    rewrite !length_app in IH. cbn [length] in IH.
    rewrite <- !app_assoc in IH. cbn [app] in IH.
    replace (S (length pa)) with (length pa + 1) by lia.
    rewrite IH by lia. lia.
Qed.

Lemma posix_relative_eq (cwd from to f t : str) :
  Posix.resolve cwd [VStr from] = Ok f ->
  Posix.resolve cwd [VStr to] = Ok t ->
  Posix.relative cwd from to
  = Ok (let fp := trimArray (split_chr "/" (skipn 1 f)) in
        let tp := trimArray (split_chr "/" (skipn 1 t)) in
        join_str (lit "/")
          (repeat (lit "..") (length fp - common_prefix fp tp)
           ++ skipn (common_prefix fp tp) tp)).
Proof.
  intros F T. unfold Posix.relative. rewrite F. cbn [bind]. rewrite T. cbn [bind].
  set (fp := trimArray (split_chr "/" (skipn 1 f))).
  set (tp := trimArray (split_chr "/" (skipn 1 t))).
  pose proof (posix_samePartsLength_common fp tp [] [] eq_refl) as S.
  cbn [app length Nat.add] in S. rewrite S. reflexivity.
Qed.

(** X8: POSIX [relative] returns the empty string for two paths that resolve
    to the same path, in particular for a path and itself. *)
Theorem posix_relative_same (cwd from to : str) :
  Posix.resolve cwd [VStr from] = Posix.resolve cwd [VStr to] ->
  Posix.relative cwd from to = Ok [].
Proof.
  intros H.
  pose proof (posix_resolve_eq cwd [to]) as T. cbn [map] in T.
  rewrite (posix_relative_eq cwd from to _ _ (eq_trans H T) T).
  cbv zeta. rewrite common_prefix_refl, Nat.sub_diag, skipn_all. reflexivity.
Qed.

(** X8 at a concrete input. *)
Lemma posix_relative_same_witness :
  Posix.resolve (lit "/home") [VStr (lit "a/b/..")]
  = Posix.resolve (lit "/home") [VStr (lit "/home/a")]
  /\ Posix.relative (lit "/home") (lit "a/b/..") (lit "/home/a") = Ok [].
Proof.
  split; [reflexivity|].
  apply (posix_relative_same (lit "/home") (lit "a/b/..") (lit "/home/a")).
  reflexivity.
Defined.

Lemma fold_normalizeArray_pop (allow : bool) (m : nat) (F : list str) :
  Forall is_name F -> m <= length F ->
  fold_left (normalizeArray_step allow) (repeat (lit "..") m) F
  = firstn (length F - m) F.
Proof.
  revert F; induction m as [|m IH]; intros F N L.
  - rewrite Nat.sub_0_r, firstn_all. reflexivity.
  - destruct F as [|x0 F0] eqn:EF; [simpl in L; lia|].
    destruct (exists_last (l := x0 :: F0)) as (F' & x & E); [discriminate|].
    rewrite E in *. clear EF E x0 F0.
    apply Forall_app in N. destruct N as [N' Nx]. inversion Nx as [|? ? X _]; subst.
    rewrite length_app in *. cbn [length] in *.
    cbn [repeat fold_left]. rewrite normalizeArray_step_dotdot.
    rewrite length_app. cbn [length].
    replace (length F' + 1 =? 0) with false by (symmetry; apply Nat.eqb_neq; lia).
    rewrite last_snoc.
    rewrite (str_eqb_neq x (lit "..")) by apply X.
    cbn [negb andb]. rewrite removelast_last.
    rewrite IH by (assumption || lia).
    rewrite firstn_app.
    replace (length F' + 1 - S m - length F') with 0 by lia.
    cbn [firstn]. rewrite app_nil_r. f_equal. lia.
Qed.

Lemma Forall_repeat {A} (P : A -> Prop) (x : A) (k : nat) :
  P x -> Forall P (repeat x k).
Proof. intros H. induction k; simpl; auto. Qed.

Lemma Forall_skipn' {A} (P : A -> Prop) (k : nat) (l : list A) :
  Forall P l -> Forall P (skipn k l).
Proof.
  revert l; induction k as [|k IH]; intros l H; [exact H|].
  destruct l; [exact H|]. inversion H; subst. simpl. auto.
Qed.

Lemma resolve_scan_relative (cwd p : str) (ps : list str) (acc : str) :
  starts_with_cls is_slash p = false ->
  resolve_scan cwd (p :: ps) acc = resolve_scan cwd ps (p ++ lit "/" ++ acc).
Proof.
  intros H. cbn [resolve_scan].
  change (starts_with "/" p) with (starts_with_cls is_slash p). rewrite H.
  reflexivity.
Qed.

Lemma Forall_firstn' {A} (P : A -> Prop) (k : nat) (l : list A) :
  Forall P l -> Forall P (firstn k l).
Proof.
  revert l; induction k as [|k IH]; intros l H; [constructor|].
  destruct l; [exact H|]. inversion H; subst. simpl. auto.
Qed.

(** X9: With an absolute [cwd], POSIX [relative] returns a relative path that
    leads from [from] to [to]: resolving it against [from] gives the
    resolved [to]. *)
Theorem posix_relative_round_trip (cwd from to : str) :
  Posix.isAbsolute cwd = true ->
  exists rel,
    Posix.relative cwd from to = Ok rel
    /\ Posix.isAbsolute rel = false
    /\ Posix.resolve cwd [VStr from; VStr rel] = Posix.resolve cwd [VStr to].
Proof.
  intros C.
  assert (SS : is_slash "/" = true) by reflexivity.
  assert (DS : is_slash "." = false) by reflexivity.
  destruct (resolve_scan_shape cwd [from]) as (Xf & af & Shf).
  destruct (resolve_scan_shape cwd [to]) as (Xt & at_ & Sht).
  assert (Af : af = true).
  { pose proof (resolve_scan_absolute cwd [from] []) as H.
    rewrite Shf, C, orb_true_r in H. exact H. }
  assert (At : at_ = true).
  { pose proof (resolve_scan_absolute cwd [to] []) as H.
    rewrite Sht, C, orb_true_r in H. exact H. }
  subst af at_.
  set (F := norm_segs is_slash false (Xf ++ lit "/" ++ [])).
  set (T := norm_segs is_slash false (Xt ++ lit "/" ++ [])).
  assert (RF : Posix.resolve cwd [VStr from] = Ok (lit "/" ++ join_str (lit "/") F)).
  { change [VStr from] with (map VStr [from]). rewrite posix_resolve_eq.
    cbn [rev app]. rewrite Shf. cbn [fst snd negb]. unfold norm_path.
    rewrite andb_false_r. reflexivity. }
  assert (RT : Posix.resolve cwd [VStr to] = Ok (lit "/" ++ join_str (lit "/") T)).
  { change [VStr to] with (map VStr [to]). rewrite posix_resolve_eq.
    cbn [rev app]. rewrite Sht. cbn [fst snd negb]. unfold norm_path.
    rewrite andb_false_r. reflexivity. }
  assert (FF : Forall (free_of is_slash) F) by (apply norm_segs_free; reflexivity).
  assert (FT : Forall (free_of is_slash) T) by (apply norm_segs_free; reflexivity).
  assert (NF : Forall (fun w => w <> []) F) by apply norm_segs_non_empty.
  assert (NT : Forall (fun w => w <> []) T) by apply norm_segs_non_empty.
  assert (MF : Forall is_name F)
    by (apply normal_false_names, normalizeArray_normal).
  assert (MT : Forall is_name T)
    by (apply normal_false_names, normalizeArray_normal).
  rewrite (posix_relative_eq cwd from to _ _ RF RT).
  cbn [lit list_ascii_of_string app skipn]. 
  change (join_str ["/"%char]) with (join_str (lit "/")).
  rewrite !parts_join by assumption.
  set (k := common_prefix F T).
  set (R := repeat (lit "..") (length F - k) ++ skipn k T).
  exists (join_str (lit "/") R). split; [reflexivity|].
  assert (FR : Forall (free_of is_slash) R).
  { apply Forall_app. split.
    - apply Forall_repeat. apply (dotdot_free is_slash). exact DS.
    - apply Forall_skipn', FT. }
  assert (NR : Forall (fun w => w <> []) R).
  { apply Forall_app. split.
    - apply Forall_repeat. discriminate.
    - apply Forall_skipn', NT. }
  split; [apply (join_str_start is_slash "/"); assumption|].
  change [VStr from; VStr (join_str (lit "/") R)]
    with (map VStr [from; join_str (lit "/") R]).
  rewrite posix_resolve_eq, RT. cbn [rev app].
  rewrite resolve_scan_relative
    by (apply (join_str_start is_slash "/"); assumption).
  rewrite Shf. cbn [fst snd negb]. f_equal. f_equal.
  unfold norm_path. rewrite !andb_false_r. f_equal.
  rewrite norm_segs_segments, !segments_app.
  change (segments []) with (@nil (list ascii)). rewrite app_nil_r.
  rewrite segments_join by assumption.
  rewrite normalizeArray_app.
  assert (EF : normalizeArray (segments Xf) false = F).
  { unfold F. rewrite norm_segs_segments, segments_app.
    change (segments []) with (@nil (list ascii)). rewrite app_nil_r. reflexivity. }
  rewrite EF. unfold R. rewrite fold_left_app.
  pose proof (common_prefix_le F T) as [KF KT]. fold k in KF, KT.
  rewrite fold_normalizeArray_pop by (assumption || lia).
  replace (length F - (length F - k)) with k by lia.
  rewrite fold_normalizeArray_names by (apply Forall_skipn', MT).
  unfold k. rewrite common_prefix_firstn. apply firstn_skipn.
Qed.

(** X9 at a concrete input. *)
Lemma posix_relative_round_trip_witness :
  Posix.isAbsolute (lit "/home") = true
  /\ exists rel,
       Posix.relative (lit "/home") (lit "a/b") (lit "/usr/c") = Ok rel
       /\ Posix.isAbsolute rel = false
       /\ Posix.resolve (lit "/home") [VStr (lit "a/b"); VStr rel]
          = Posix.resolve (lit "/home") [VStr (lit "/usr/c")].
Proof.
  split; [reflexivity|].
  apply (posix_relative_round_trip (lit "/home") (lit "a/b") (lit "/usr/c")).
  reflexivity.
Defined.

(** ** The extension that the patterns capture *)

Lemma find_app {A} (g : A -> bool) (l1 l2 : list A) :
  find g (l1 ++ l2)
  = match find g l1 with Some x => Some x | None => find g l2 end.
Proof.
  induction l1 as [|x l1 IH]; [reflexivity|].
  simpl. destruct (g x); [reflexivity | exact IH].
Qed.

Lemma find_seq_first (g : nat -> bool) (a len l : nat) :
  a <= l < a + len -> g l = true ->
  (forall k, a <= k < l -> g k = false) ->
  find g (seq a len) = Some l.
Proof.
  revert a; induction len as [|len IH]; intros a R G B; [lia|].
  cbn [seq find]. destruct (Nat.eq_dec a l) as [->|N].
  - rewrite G. reflexivity.
  - rewrite B by lia. apply IH; [lia | exact G |]. intros k K. apply B. lia.
Qed.

Lemma hd_flat_map_find {A B} (f : A -> list B) (g : A -> bool) (l : list A) :
  (forall x, In x l -> g x = false -> f x = []) ->
  (forall x, In x l -> g x = true -> f x <> []) ->
  hd_error (flat_map f l)
  = match find g l with Some x => hd_error (f x) | None => None end.
Proof.
  induction l as [|x l IH]; intros N P; [reflexivity|].
  cbn [flat_map find]. destruct (g x) eqn:G.
  - specialize (P x (or_introl eq_refl) G). destruct (f x); [congruence | reflexivity].
  - rewrite (N x (or_introl eq_refl) G). cbn [app].
    apply IH; intros y Hy; [apply N | apply P]; right; exact Hy.
Qed.

Lemma In_skipn {A} (x : A) (k : nat) (l : list A) : In x (skipn k l) -> In x l.
Proof.
  intros H. rewrite <- (firstn_skipn k l). apply in_or_app. right. exact H.
Qed.

Lemma is_dot_eq (a : ascii) : is_dot a = true -> a = "."%char.
Proof. unfold is_dot, is_chr. apply Ascii.eqb_eq. Qed.

Lemma dot_free_no_ext (b : str) (k : nat) :
  forallb (non is_dot) b = true -> is_dot_ext (skipn k b) = false.
Proof.
  intros F. destruct (skipn k b) as [|c w] eqn:E; [reflexivity|].
  assert (I : In c b) by (apply (In_skipn c k); rewrite E; left; reflexivity).
  rewrite forallb_forall in F. specialize (F c I). unfold non in F.
  cbn [is_dot_ext]. destruct (is_dot c); [discriminate F | reflexivity].
Qed.

Lemma is_dot_ext_later (b : str) (k k' : nat) :
  is_dot_ext (skipn k b) = true -> k < k' -> is_dot_ext (skipn k' b) = false.
Proof.
  intros H L. destruct (skipn k b) as [|a w] eqn:E; [discriminate H|].
  cbn [is_dot_ext] in H. apply andb_true_iff in H. destruct H as [_ F].
  replace k' with ((k' - S k) + S k) by lia. rewrite <- skipn_skipn.
  replace (skipn (S k) b) with w.
  - apply dot_free_no_ext, F.
  - replace (S k) with (1 + k) by lia. rewrite <- skipn_skipn, E. reflexivity.
Qed.

Lemma is_dot_ext_unique (b : str) (k k' : nat) :
  is_dot_ext (skipn k b) = true -> is_dot_ext (skipn k' b) = true -> k = k'.
Proof.
  intros H H'. destruct (Nat.lt_trichotomy k k') as [L|[E|L]]; [|exact E|].
  - rewrite (is_dot_ext_later b k k' H L) in H'. discriminate H'.
  - rewrite (is_dot_ext_later b k' k H' L) in H. discriminate H.
Qed.

Lemma ext_scan_spec (b : str) :
  match ext_scan b with
  | Some e => exists l, l < length b /\ e = skipn l b /\ is_dot_ext e = true
  | None => forallb (non is_dot) b = true
  end.
Proof.
  induction b as [|a b IH]; [reflexivity|].
  cbn [ext_scan]. destruct (ext_scan b) as [e|].
  - destruct IH as (l & L & E & D). exists (S l). cbn [length skipn].
    split; [lia | auto].
  - destruct (is_dot a) eqn:A.
    + exists 0. cbn [length skipn is_dot_ext]. rewrite A, IH.
      split; [lia | auto].
    + cbn [forallb]. unfold non at 1. rewrite A, IH. reflexivity.
Qed.

Lemma two_dots (b : str) :
  length b = 2 -> span is_dot b = 2 -> b = lit "..".
Proof.
  destruct b as [|x [|y [|z b]]]; try discriminate. intros _.
  cbn [span]. destruct (is_dot x) eqn:X; [|discriminate].
  destruct (is_dot y) eqn:Y; [|discriminate].
  apply is_dot_eq in X, Y. subst. reflexivity.
Qed.

(** The first length at which the base group can stop leaves the extension
    of the base. *)
Lemma first_ext_at (b : str) :
  exists k1,
    find (ext_at b)
      (rev (seq 1 (Nat.min 2 (span is_dot b))) ++ seq 1 (length b) ++ [0])
    = Some k1
    /\ skipn k1 b = ext_of b.
Proof.
  destruct b as [|a b'] eqn:EB; [exists 0; split; reflexivity|].
  rewrite <- EB.
  set (n := length b). set (d := span is_dot b).
  set (ks1 := rev (seq 1 (Nat.min 2 d))).
  assert (Dn : d <= n) by apply span_le.
  assert (K1 : forall k, In k ks1 -> 1 <= k <= Nat.min 2 d).
  { intros k Hk. unfold ks1 in Hk. apply in_rev, in_seq in Hk. lia. }
  assert (Gn : ext_at b n = true)
    by (unfold ext_at, n; rewrite Nat.eqb_refl; reflexivity).
  destruct (str_eqb_spec b (lit "..")) as [E2|N2].
  { exists 2. unfold ks1, d, n. rewrite E2. split; reflexivity. }
  assert (X : ext_of b = match ext_scan b' with Some e => e | None => [] end).
  { unfold ext_of. rewrite (str_eqb_neq b (lit "..") N2), EB. reflexivity. }
  assert (Sk : forall k, skipn (S k) b = skipn k b') by (intros k; rewrite EB; reflexivity).
  assert (Ln : n = S (length b')) by (unfold n; rewrite EB; reflexivity).
  pose proof (ext_scan_spec b') as Sp.
  destruct (ext_scan b') as [e|].
  - destruct Sp as (l' & L' & Ee & De).
    assert (Gl : ext_at b (S l') = true).
    { unfold ext_at. rewrite Sk, <- Ee, De. apply orb_true_r. }
    assert (Only : forall k, ext_at b k = true -> k = n \/ k = S l').
    { intros k G. unfold ext_at in G. apply orb_true_iff in G.
      destruct G as [G|G]; [left; apply Nat.eqb_eq, G|]. right.
      apply (is_dot_ext_unique b); [exact G|]. rewrite Sk, <- Ee. exact De. }
    exists (S l'). split; [|rewrite Sk, X; symmetry; exact Ee].
    rewrite find_app. destruct (find (ext_at b) ks1) as [k|] eqn:F1.
    + apply find_some in F1. destruct F1 as [I G].
      apply K1 in I. destruct (Only k G) as [Kn|Kl]; [|congruence].
      exfalso. apply N2, two_dots; [fold n; lia | fold d; lia].
    + rewrite find_app.
      rewrite (find_seq_first (ext_at b) 1 n (S l')); [reflexivity | lia | exact Gl |].
      intros k K. destruct (ext_at b k) eqn:G; [|reflexivity].
      destruct (Only k G); lia.
  - assert (Bad : forall k, 1 <= k < n -> ext_at b k = false).
    { intros k K. unfold ext_at. fold n.
      replace (k =? n) with false by (symmetry; apply Nat.eqb_neq; lia).
      destruct k as [|k]; [lia|]. rewrite Sk. apply dot_free_no_ext, Sp. }
    exists n. split; [|rewrite X; apply skipn_all].
    rewrite find_app. destruct (find (ext_at b) ks1) as [k|] eqn:F1.
    + apply find_some in F1. destruct F1 as [I G]. apply K1 in I.
      destruct (Nat.eq_dec k n) as [->|Nk]; [reflexivity|].
      rewrite Bad in G by lia. discriminate G.
    + rewrite find_app.
      rewrite (find_seq_first (ext_at b) 1 n n); [reflexivity | lia | exact Gn |].
      intros k K. apply Bad. lia.
Qed.

Lemma flat_map_map_arg {A B C} (f : A -> B) (G : B -> list C) (l : list A) :
  flat_map G (map f l) = flat_map (fun x => G (f x)) l.
Proof.
  induction l as [|x l IH]; [reflexivity|]. simpl. rewrite IH. reflexivity.
Qed.

Lemma flat_map_through {A B C D} (T : C -> list D) (c : B -> C) (G : A -> list B)
      (l : list A) :
  flat_map T (map c (flat_map G l))
  = flat_map (fun x => flat_map T (map c (G x))) l.
Proof.
  induction l as [|x l IH]; [reflexivity|].
  simpl. rewrite map_app, flat_map_app, IH. reflexivity.
Qed.

(** The base pattern tries the lengths of [base_counts] in order. *)
Lemma matches_base_pat_counts (sepc extc : ascii -> bool) (gb ge : nat) (st1 : mstate) :
  matches (base_pat sepc extc gb ge) st1
  = flat_map (base_from sepc extc gb ge st1) (base_counts sepc (rest st1)).
Proof.
  change (matches (base_pat sepc extc gb ge) st1)
    with (flat_map (matches (Star sepc +> Eol)%re)
            (map (close gb st1)
               (flat_map (matches (ext_pat extc ge))
                  (map (advance st1) (counts 1 (Some 2) true (span is_dot (rest st1)))
                   ++ map (advance st1)
                        (counts 1 None false (span (non sepc) (rest st1)))
                   ++ [st1])))).
  unfold counts, base_counts.
  replace (S (Nat.min 2 (span is_dot (rest st1))) - 1)
    with (Nat.min 2 (span is_dot (rest st1))) by lia.
  replace (S (span (non sepc) (rest st1)) - 1)
    with (span (non sepc) (rest st1)) by lia.
  replace [st1] with (map (advance st1) [0])
    by (cbn [map]; rewrite advance_0; reflexivity).
  rewrite <- !map_app.
  rewrite (flat_map_map_arg (advance st1) (matches (ext_pat extc ge))).
  rewrite flat_map_through. reflexivity.
Qed.

(** Separators up to the end of the input. *)
Lemma matches_sep_end (sepc : ascii -> bool) (z : mstate) :
  matches (Star sepc +> Eol)%re z
  = if span sepc (rest z) =? length (rest z)
    then [advance z (length (rest z))] else [].
Proof.
  rewrite matches_seq. unfold Star. rewrite matches_rep. unfold counts.
  rewrite Nat.sub_0_r, seq_S, rev_app_distr.
  cbn [rev app map flat_map Nat.add].
  rewrite flat_map_nil.
  - rewrite app_nil_r. cbn [matches rest advance].
    pose proof (span_le sepc (rest z)) as L.
    destruct (Nat.eqb_spec (span sepc (rest z)) (length (rest z))) as [E|N].
    + rewrite E, skipn_all. reflexivity.
    + destruct (skipn (span sepc (rest z)) (rest z)) eqn:K; [|reflexivity].
      apply skipn_nil_length in K. lia.
  - intros x Hx. apply in_map_iff in Hx. destruct Hx as [k [<- Hk]].
    apply in_rev, in_seq in Hk. cbn [matches rest advance].
    pose proof (span_le sepc (rest z)) as L.
    destruct (skipn k (rest z)) eqn:K; [|reflexivity].
    apply skipn_nil_length in K. lia.
Qed.

Lemma span_app_ge (c : ascii -> bool) (w r : str) :
  Forall (fun a => c a = true) w -> length w <= span c (w ++ r).
Proof.
  induction 1 as [|a w A _ IH]; simpl; [lia|]. rewrite A. lia.
Qed.

Lemma span_firstn_span (c c' : ascii -> bool) (r : str) :
  (forall a, c a = true -> c' a = true) ->
  span c (firstn (span c' r) r) = span c r.
Proof.
  intros Sub. induction r as [|a r IH]; [reflexivity|].
  cbn [span]. destruct (c' a) eqn:C'.
  - cbn [firstn span]. rewrite IH. reflexivity.
  - cbn [firstn span]. destruct (c a) eqn:C; [|reflexivity].
    rewrite (Sub a C) in C'. discriminate C'.
Qed.

Lemma skipn_firstn_rest {A} (k n : nat) (l : list A) :
  k <= n -> n <= length l ->
  skipn k l = skipn k (firstn n l) ++ skipn n l.
Proof.
  intros K N. rewrite <- (firstn_skipn n l) at 1.
  rewrite skipn_app, length_firstn.
  replace (k - Nat.min n (length l)) with 0 by lia. reflexivity.
Qed.

Section ExtPattern.

Variable sepc extc : ascii -> bool.
Variable gb ge : nat.
Hypothesis dot_not_sep : sepc "." = false.
Hypothesis ext_def : forall a, extc a = negb (is_dot a || sepc a).
Hypothesis gb_ge : gb <> ge.

Variable st1 : mstate.
Hypothesis Sh : shape sepc (rest st1) = true.

Lemma base_end (p : nat) :
  p <= span (non sepc) (rest st1) ->
  span sepc (skipn p (rest st1)) = length (skipn p (rest st1)) ->
  p = span (non sepc) (rest st1).
Proof.
  intros L E.
  destruct (Nat.eq_dec p (span (non sepc) (rest st1))) as [|N]; [assumption|].
  assert (Lt : p < span (non sepc) (rest st1)) by lia.
  rewrite (span_other_zero (non sepc) sepc (rest st1) p) in E;
    [|intros a; unfold non; destruct (sepc a); [discriminate | reflexivity] | exact Lt].
  destruct (span_skipn_lt _ _ _ Lt) as (a & s' & K & _).
  rewrite K in E. discriminate E.
Qed.

Lemma base_end_ok :
  span sepc (skipn (span (non sepc) (rest st1)) (rest st1))
  = length (skipn (span (non sepc) (rest st1)) (rest st1)).
Proof. unfold shape in Sh. apply Nat.eqb_eq, Sh. Qed.

Lemma ext_chr_name (a : ascii) : extc a = true -> non sepc a = true.
Proof.
  rewrite ext_def. unfold non. intros H. apply negb_true_iff, orb_false_iff in H.
  destruct H as [_ ->]. reflexivity.
Qed.

Lemma ext_chr_not_dot (a : ascii) : extc a = true -> non is_dot a = true.
Proof.
  rewrite ext_def. unfold non. intros H. apply negb_true_iff, orb_false_iff in H.
  destruct H as [-> _]. reflexivity.
Qed.

Lemma dot_name (a : ascii) : is_dot a = true -> non sepc a = true.
Proof.
  intros H. apply is_dot_eq in H. subst a. unfold non. rewrite dot_not_sep.
  reflexivity.
Qed.

Lemma ext_pat_only : only (non sepc) (ext_pat extc ge).
Proof. simpl. repeat split; auto using dot_name, ext_chr_name. Qed.

(** What a match that stops the part before the ext group after [k]
    characters captures in the ext group. *)
Lemma base_from_inv (k : nat) (y : mstate) :
  k <= span (non sepc) (rest st1) ->
  In y (base_from sepc extc gb ge st1 k) ->
  caps y ge
  = Some (skipn k (firstn (span (non sepc) (rest st1)) (rest st1)))
  /\ ext_at (firstn (span (non sepc) (rest st1)) (rest st1)) k = true.
Proof.
  intros K H. unfold base_from in H.
  set (n := span (non sepc) (rest st1)) in *.
  apply in_flat_map in H. destruct H as (z0 & Hz0 & Hy).
  apply in_map_iff in Hz0. destruct Hz0 as (z & <- & Hz).
  assert (Cy : caps y ge = caps z ge).
  { rewrite (matches_keeps_caps ge (Star sepc +> Eol)%re _ y eq_refl Hy).
    cbn [caps close]. unfold set_cap.
    replace (ge =? gb) with false by (symmetry; apply Nat.eqb_neq; congruence).
    reflexivity. }
  rewrite matches_sep_end in Hy. cbn [rest close] in Hy.
  destruct (Nat.eqb_spec (span sepc (rest z)) (length (rest z))) as [Ez|]; [|destruct Hy].
  clear Hy.
  destruct (matches_only (non sepc) _ _ _ ext_pat_only Hz) as (q & Q & Pz & Rz).
  cbn [rest pos advance] in Q, Pz, Rz.
  rewrite span_skipn_le in Q by exact K. fold n in Q.
  rewrite Rz, skipn_skipn in Ez.
  assert (KQ : q + k = n) by (apply base_end; [fold n; lia | exact Ez]).
  assert (Ln : length (firstn n (rest st1)) = n) by apply firstn_span_length.
  assert (Cz : caps z ge = Some (skipn k (firstn n (rest st1)))).
  { unfold ext_pat in Hz. apply in_matches_grp_inv in Hz.
    destruct Hz as (z' & _ & ->). cbn [caps close pos rest advance] in *.
    unfold set_cap. rewrite Nat.eqb_refl. f_equal.
    replace (pos z' - (pos st1 + k)) with q by lia.
    rewrite <- KQ. rewrite Nat.add_comm. apply firstn_skipn_comm. }
  rewrite Cy. split; [exact Cz|].
  unfold ext_at. rewrite Ln.
  destruct (Nat.eqb_spec k n) as [|Nk]; [reflexivity|]. cbn [orb].
  unfold ext_pat in Hz. apply in_matches_grp_inv in Hz.
  destruct Hz as (z' & Hz' & ->).
  rewrite matches_alt in Hz'. apply in_app_or in Hz'.
  destruct Hz' as [Hd|He].
  2:{ destruct He as [<-|[]]. cbn [pos close advance] in Pz. lia. }
  apply in_matches_seq_inv in Hd. destruct Hd as (x1 & H1 & H2).
  apply in_matches_rep_inv in H1. destruct H1 as (k1 & -> & L1 & U1 & V1).
  apply in_matches_rep_inv in H2. destruct H2 as (j & -> & _ & U2 & _).
  cbn [rest advance pos close] in *.
  assert (k1 = 1) by lia. subst k1.
  assert (q = 1 + j) by lia. subst q.
  assert (Eb : skipn k (firstn n (rest st1)) = firstn (1 + j) (skipn k (rest st1))).
  { rewrite <- KQ. rewrite (Nat.add_comm (1 + j) k). symmetry. apply firstn_skipn_comm. }
  rewrite Eb.
  destruct (skipn k (rest st1)) as [|a r] eqn:Er; [simpl in U1; lia|].
  cbn [span] in U1. destruct (is_dot a) eqn:A; [|lia].
  cbn [Nat.add firstn is_dot_ext]. rewrite A. cbn [andb skipn] in *.
  apply forallb_forall. intros c Hc.
  assert (F : Forall (fun a => extc a = true) (firstn j r)).
  { replace (firstn j r) with (firstn j (firstn (span extc r) r)).
    - apply Forall_firstn', span_prefix_all.
    - rewrite firstn_firstn. f_equal. lia. }
  rewrite Forall_forall in F. apply ext_chr_not_dot, F, Hc.
Qed.

(** A length at which the base group can stop gives a match. *)
Lemma base_from_exists (k : nat) :
  k <= span (non sepc) (rest st1) ->
  ext_at (firstn (span (non sepc) (rest st1)) (rest st1)) k = true ->
  base_from sepc extc gb ge st1 k <> [].
Proof.
  intros K G.
  set (n := span (non sepc) (rest st1)) in *.
  assert (Ln : length (firstn n (rest st1)) = n) by apply firstn_span_length.
  pose proof (span_le (non sepc) (rest st1)) as Nl. fold n in Nl.
  assert (Ex : exists z,
             In z (matches (ext_pat extc ge) (advance st1 k))
             /\ rest z = skipn n (rest st1)).
  { unfold ext_at in G. rewrite Ln in G.
    destruct (Nat.eqb_spec k n) as [->|Nk].
    - eexists. split.
      + apply in_matches_grp, in_matches_alt_r, in_matches_eps.
      + reflexivity.
    - cbn [orb] in G.
      destruct (skipn k (firstn n (rest st1))) as [|a w] eqn:E; [discriminate G|].
      cbn [is_dot_ext] in G. apply andb_true_iff in G. destruct G as [A W].
      assert (NB : Forall (fun c => non sepc c = true) (a :: w)).
      { rewrite <- E. apply Forall_skipn', span_prefix_all. }
      inversion NB as [|? ? _ NW]; subst.
      assert (EW : Forall (fun c => extc c = true) w).
      { rewrite Forall_forall in *. intros c Hc. rewrite ext_def.
        rewrite forallb_forall in W. specialize (W c Hc). specialize (NW c Hc).
        unfold non in W, NW. apply negb_true_iff in W, NW. rewrite W, NW.
        reflexivity. }
      assert (R : skipn k (rest st1) = a :: w ++ skipn n (rest st1)).
      { rewrite (skipn_firstn_rest k n) by lia. rewrite E. reflexivity. }
      exists (close ge (advance st1 k) (advance (advance (advance st1 k) 1) (length w))).
      split.
      + apply in_matches_grp, in_matches_alt_l.
        eapply in_matches_seq.
        * apply (in_matches_rep is_dot 1 (Some 1) true _ 1); [lia | | lia].
          cbn [rest advance]. rewrite R. cbn [span]. rewrite A. lia.
        * apply (in_matches_rep extc 0 None true _ (length w)); [lia | | exact I].
          cbn [rest advance]. rewrite R. cbn [skipn].
          apply span_app_ge, EW.
      + cbn [rest close advance]. rewrite R. cbn [skipn].
        rewrite skipn_app, skipn_all, Nat.sub_diag. reflexivity. }
  destruct Ex as (z & Hz & Rz).
  unfold base_from. intros E.
  assert (H : In (advance (close gb st1 z) (length (rest (close gb st1 z))))
                (flat_map (matches (Star sepc +> Eol)%re)
                   (map (close gb st1) (matches (ext_pat extc ge) (advance st1 k))))).
  { apply in_flat_map. exists (close gb st1 z). split; [apply in_map, Hz|].
    pose proof base_end_ok as BE. fold n in BE.
    rewrite matches_sep_end. cbn [rest close]. rewrite Rz, BE.
    rewrite Nat.eqb_refl. left. reflexivity. }
  rewrite E in H. destruct H.
Qed.

(** The first match of the base pattern captures the extension of the
    base in the ext group. *)
Lemma hd_base_pat_ext :
  exists y,
    hd_error (matches (base_pat sepc extc gb ge) st1) = Some y
    /\ caps y ge
       = Some (ext_of (firstn (span (non sepc) (rest st1)) (rest st1))).
Proof.
  set (n := span (non sepc) (rest st1)).
  set (b := firstn n (rest st1)).
  assert (Ln : length b = n) by apply firstn_span_length.
  assert (Db : span is_dot b = span is_dot (rest st1))
    by (apply span_firstn_span; intros a; apply dot_name).
  assert (Dn : span is_dot (rest st1) <= n)
    by (apply span_mono; intros a; apply dot_name).
  assert (In_n : forall k, In k (base_counts sepc (rest st1)) -> k <= n).
  { intros k Hk. unfold base_counts in Hk. fold n in Hk.
    apply in_app_or in Hk. destruct Hk as [Hk|Hk].
    - apply in_rev, in_seq in Hk. lia.
    - apply in_app_or in Hk. destruct Hk as [Hk|[<-|[]]]; [|lia].
      apply in_seq in Hk. lia. }
  rewrite matches_base_pat_counts.
  rewrite (hd_flat_map_find _ (ext_at b)).
  - destruct (first_ext_at b) as (k1 & F & E).
    rewrite Ln, Db in F. fold n in F.
    unfold base_counts. fold n. rewrite F.
    assert (K1 : k1 <= n).
    { apply find_some in F. destruct F as [I _]. apply In_n. exact I. }
    assert (G1 : ext_at b k1 = true) by (apply find_some in F; apply F).
    pose proof (base_from_exists k1 K1 G1) as N.
    destruct (base_from sepc extc gb ge st1 k1) as [|y l] eqn:B; [congruence|].
    exists y. split; [reflexivity|].
    assert (Hy : In y (base_from sepc extc gb ge st1 k1))
      by (rewrite B; left; reflexivity).
    destruct (base_from_inv k1 y K1 Hy) as [C _].
    rewrite C. fold n. fold b. rewrite E. reflexivity.
  - intros k Hk G.
    destruct (base_from sepc extc gb ge st1 k) as [|y l] eqn:B; [reflexivity|].
    assert (Hy : In y (base_from sepc extc gb ge st1 k))
      by (rewrite B; left; reflexivity).
    destruct (base_from_inv k y (In_n k Hk) Hy) as [_ G'].
    fold n in G'. fold b in G'. congruence.
  - intros k Hk G. apply base_from_exists; [apply In_n, Hk | exact G].
Qed.

End ExtPattern.

Section TailExt.

Variable sepc extc : ascii -> bool.
Variable gd gb ge : nat.
Hypothesis dot_not_sep : sepc "." = false.
Hypothesis ext_def : forall a, extc a = negb (is_dot a || sepc a).
Hypothesis gd_gb : gd <> gb.
Hypothesis gd_ge : gd <> ge.
Hypothesis gb_ge : gb <> ge.

Lemma ext_chr_not_sep (a : ascii) : extc a = true -> sepc a = false.
Proof.
  rewrite ext_def. intros H. apply negb_true_iff, orb_false_iff in H. apply H.
Qed.

(** The lazy dir group stops at the first index from which the base
    pattern matches. *)
Lemma hd_tail_pat_base (st : mstate) :
  hd_error (matches (tail_pat sepc extc gd gb ge) st)
  = hd_error (matches (base_pat sepc extc gb ge)
                (close gd st (advance st (dir_len sepc (rest st))))).
Proof.
  destruct (dir_len_spec sepc (rest st)) as (L & Sh & M).
  set (k0 := dir_len sepc (rest st)) in *.
  set (at_ := fun k => close gd st (advance st k)).
  assert (E : matches (tail_pat sepc extc gd gb ge) st
              = matches (base_pat sepc extc gb ge) (at_ k0)
                ++ flat_map (matches (base_pat sepc extc gb ge))
                     (map at_ (seq (S k0) (length (rest st) - k0)))).
  { unfold tail_pat. rewrite matches_seq, matches_grp. unfold LazyStar.
    rewrite matches_rep. unfold counts. rewrite span_any, Nat.sub_0_r, map_map.
    fold at_.
    replace (S (length (rest st))) with (k0 + S (length (rest st) - k0)) by lia.
    rewrite seq_app, map_app, flat_map_app. cbn [Nat.add seq map flat_map].
    rewrite flat_map_nil; [reflexivity|].
    intros x Hx. apply in_map_iff in Hx. destruct Hx as [k [<- Hk]].
    apply in_seq in Hk.
    destruct (matches (base_pat sepc extc gb ge) (at_ k)) as [|y l] eqn:Y;
      [reflexivity|].
    assert (Hy : In y (matches (base_pat sepc extc gb ge) (at_ k)))
      by (rewrite Y; left; reflexivity).
    apply (base_pat_inv sepc extc gd gb ge dot_not_sep ext_chr_not_sep
             gd_gb gd_ge gb_ge) in Hy.
    destruct Hy as [Sk _].
    simpl in Sk. rewrite M in Sk by lia. discriminate Sk. }
  rewrite E.
  destruct (base_pat_exists sepc extc gd gb ge gd_gb gd_ge gb_ge (at_ k0) Sh)
    as [y0 Hy0].
  fold (at_ k0).
  destruct (matches (base_pat sepc extc gb ge) (at_ k0)); [destruct Hy0|].
  reflexivity.
Qed.

(** The first match of the pattern from the dir group on captures the
    extension of the base in the ext group. *)
Lemma hd_tail_pat_ext (st : mstate) :
  exists st',
    hd_error (matches (tail_pat sepc extc gd gb ge) st) = Some st'
    /\ caps st' ge = Some (ext_of (base_of sepc (rest st))).
Proof.
  rewrite hd_tail_pat_base.
  destruct (dir_len_spec sepc (rest st)) as (_ & Sh & _).
  apply (hd_base_pat_ext sepc extc gb ge dot_not_sep ext_def gb_ge
           (close gd st (advance st (dir_len sepc (rest st)))) Sh).
Qed.

End TailExt.

(** [splitPath] read directly: the four components of a path. *)
Lemma posix_splitPath_ext (s : str) :
  Posix.splitPath s
  = Ok [Some (posix_root s); Some (dirBody_of is_slash (posix_rest s));
        Some (base_of is_slash (posix_rest s));
        Some (ext_of (base_of is_slash (posix_rest s)))].
Proof.
  destruct (hd_posix_splitPathRe s) as (st' & e & H & C1 & C2 & C3 & C4).
  assert (E4 : e = ext_of (base_of is_slash (posix_rest s))).
  { revert H.
    change (body Posix.splitPathRe)
      with (Bol +> Grp 1 (Rep is_slash 0 (Some 1) true </> Eps)
            +> tail_pat is_slash ext_chr_posix 2 3 4)%re.
    rewrite matches_seq. cbn [matches pos start Nat.eqb flat_map]. rewrite app_nil_r.
    change (flat_map ?f ?l) with
      (matches (Grp 1 (Rep is_slash 0 (Some 1) true </> Eps)
                +> tail_pat is_slash ext_chr_posix 2 3 4)%re (start 0 s)).
    rewrite matches_seq, hd_flat_map_total by apply tail_pat_total.
    rewrite matches_grp, matches_alt, matches_rep, !map_app, !map_map.
    set (n := span is_slash (rest (start 0 s))).
    assert (C : exists l, counts 0 (Some 1) true n = Nat.min 1 n :: l).
    { unfold counts. rewrite Nat.sub_0_r, seq_S, rev_app_distr. simpl. eauto. }
    destruct C as [l ->]. cbn [map app hd_error].
    set (st1 := close 1 (start 0 s) (advance (start 0 s) (Nat.min 1 n))).
    assert (R1 : rest st1 = posix_rest s).
    { unfold posix_rest. rewrite posix_root_len, length_firstn.
      unfold st1, n. cbn [rest close advance start]. f_equal.
      pose proof (span_le is_slash s). lia. }
    destruct (hd_tail_pat_ext is_slash ext_chr_posix 2 3 4) with (st := st1)
      as (st2 & H2 & Ce); try reflexivity; try discriminate.
    rewrite H2, R1 in *. intros H. injection H as <-. congruence. }
  subst e. unfold Posix.splitPath, exec.
  assert (E : exec_at Posix.splitPathRe 0 s
              = Some (RMatch 0 (firstn (pos st' - 0) s) (map (caps st') (seq 1 4)))).
  { destruct s; cbn [exec_at]; rewrite H; reflexivity. }
  rewrite E. cbn [groups seq map]. rewrite C1, C2, C3, C4. reflexivity.
Qed.

Lemma win32_splitPath_ext (s : str) :
  Win32.splitPath s
  = Ok [device_of s ++ slash_of s; dirBody_of is_sep (tail_of s);
        base_of is_sep (tail_of s); ext_of (base_of is_sep (tail_of s))].
Proof.
  destruct (exec_splitDeviceRe s) as [m (E & G1 & G2 & G3)].
  destruct (hd_win32_splitTailRe (tail_of s)) as (st' & e & H & C1 & C2 & C3).
  assert (E3 : e = ext_of (base_of is_sep (tail_of s))).
  { revert H.
    change (body Win32.splitTailRe)
      with (Bol +> tail_pat is_sep ext_chr_win32 1 2 3)%re.
    rewrite matches_seq. cbn [matches pos start Nat.eqb flat_map]. rewrite app_nil_r.
    change (flat_map ?f ?l) with
      (matches (tail_pat is_sep ext_chr_win32 1 2 3) (start 0 (tail_of s))).
    destruct (hd_tail_pat_ext is_sep ext_chr_win32 1 2 3) with (st := start 0 (tail_of s))
      as (st2 & H2 & Ce); try reflexivity; try discriminate.
    rewrite H2. intros H. injection H as <-. cbn [rest start] in Ce. congruence. }
  subst e. unfold Win32.splitPath. rewrite E, G1, G2, G3. unfold exec.
  assert (E2 : exec_at Win32.splitTailRe 0 (tail_of s)
               = Some (RMatch 0 (firstn (pos st' - 0) (tail_of s))
                         (map (caps st') (seq 1 3)))).
  { destruct (tail_of s); cbn [exec_at]; rewrite H; reflexivity. }
  rewrite E2. unfold group. cbn [groups seq map nth Nat.sub].
  rewrite C1, C2, C3. reflexivity.
Qed.

(** ** [parse], [dirname], [basename] and [extname] *)

Lemma ext_of_suffix (b : str) :
  exists x, b = x ++ ext_of b.
Proof.
  destruct (first_ext_at b) as (k & _ & E).
  exists (firstn k b). rewrite <- E. symmetry. apply firstn_skipn.
Qed.

Lemma posix_parse_ext (p : str) :
  exists x,
    base_of is_slash (posix_rest p) = x ++ ext_of (base_of is_slash (posix_rest p))
    /\ Posix.parse (VStr p)
       = Ok (mkPathInfo (posix_root p)
               (posix_root p ++ removelast (dirBody_of is_slash (posix_rest p)))
               (base_of is_slash (posix_rest p))
               (ext_of (base_of is_slash (posix_rest p)))
               x).
Proof.
  destruct (ext_of_suffix (base_of is_slash (posix_rest p))) as [x X].
  exists x. split; [exact X|].
  unfold Posix.parse. change (isString (VStr p)) with true. cbn [negb].
  rewrite posix_splitPath_ext. cbn [bind length Nat.eqb negb nth or_empty].
  rewrite slice0_removelast. f_equal. f_equal.
  remember (base_of is_slash (posix_rest p)) as b eqn:Hb. clear Hb.
  remember (ext_of b) as e eqn:He. clear He. subst b.
  apply slice0_drop_suffix.
Qed.

Lemma win32_parse_ext (p : str) :
  exists x,
    base_of is_sep (tail_of p) = x ++ ext_of (base_of is_sep (tail_of p))
    /\ Win32.parse (VStr p)
       = Ok (mkPathInfo (device_of p ++ slash_of p)
               ((device_of p ++ slash_of p)
                ++ removelast (dirBody_of is_sep (tail_of p)))
               (base_of is_sep (tail_of p))
               (ext_of (base_of is_sep (tail_of p)))
               x).
Proof.
  destruct (ext_of_suffix (base_of is_sep (tail_of p))) as [x X].
  exists x. split; [exact X|].
  unfold Win32.parse. change (isString (VStr p)) with true. cbn [negb].
  rewrite win32_splitPath_ext. cbn [bind length Nat.eqb negb nth].
  rewrite slice0_removelast. f_equal. f_equal.
  remember (base_of is_sep (tail_of p)) as b eqn:Hb. clear Hb.
  remember (ext_of b) as e eqn:He. clear He. subst b.
  apply slice0_drop_suffix.
Qed.

Lemma dirname_body (sepc : ascii -> bool) (root t : str) :
  (root = [] -> starts_with_cls sepc t = false) ->
  (if is_empty root && is_empty (dirBody_of sepc t) then lit "."
   else root ++ (if negb (is_empty (dirBody_of sepc t))
                 then firstn (length (dirBody_of sepc t) - 1) (dirBody_of sepc t)
                 else dirBody_of sepc t))
  = or_str (root ++ removelast (dirBody_of sepc t)) (lit ".").
Proof.
  intros R.
  destruct (dir_split sepc t) as (trail & T & _ & _ & [D|(Y & c & D & C & _)]).
  - rewrite D. cbn [is_empty negb removelast]. rewrite app_nil_r, andb_true_r.
    unfold or_str. destruct root; reflexivity.
  - rewrite D, removelast_last, length_app. cbn [length].
    replace (length Y + 1 - 1) with (length Y) by lia.
    rewrite firstn_app, Nat.sub_diag, firstn_all. cbn [firstn]. rewrite app_nil_r.
    assert (N : is_empty (Y ++ [c]) = false) by (destruct Y; reflexivity).
    rewrite N, andb_false_r. cbn [negb].
    unfold or_str. destruct root as [|a root]; [|reflexivity].
    destruct Y as [|y Y]; [|reflexivity].
    exfalso. specialize (R eq_refl). rewrite T, D in R. cbn in R. congruence.
Qed.

Lemma posix_dirname_eq (p : str) :
  Posix.dirname p
  = Ok (or_str (posix_root p ++ removelast (dirBody_of is_slash (posix_rest p)))
          (lit ".")).
Proof.
  unfold Posix.dirname. rewrite posix_splitPath_ext. cbn [bind nth or_empty].
  rewrite <- dirname_body.
  - destruct (is_empty (posix_root p) && _); reflexivity.
  - intros R. destruct (posix_root_cases p) as [(_ & -> & S)|(E & _)].
    + exact S.
    + rewrite R in E. discriminate E.
Qed.

Lemma win32_dirname_eq (p : str) :
  Win32.dirname p
  = Ok (or_str ((device_of p ++ slash_of p)
                ++ removelast (dirBody_of is_sep (tail_of p)))
          (lit ".")).
Proof.
  unfold Win32.dirname. rewrite win32_splitPath_ext. cbn [bind nth].
  rewrite <- dirname_body.
  - destruct (is_empty (device_of p ++ slash_of p) && _); reflexivity.
  - intros R. destruct (path_parts p) as (_ & [(_ & S)|(z & Z & _)]).
    + exact S.
    + rewrite Z in R. destruct (device_of p); discriminate R.
Qed.

Lemma suffix_skipn {A} (x e : list A) :
  skipn (length (x ++ e) - length e) (x ++ e) = e.
Proof.
  rewrite length_app. replace (length x + length e - length e) with (length x) by lia.
  rewrite skipn_app, skipn_all, Nat.sub_diag. reflexivity.
Qed.

Lemma prefix_firstn {A} (x e : list A) :
  firstn (length (x ++ e) - length e) (x ++ e) = x.
Proof.
  rewrite length_app. replace (length x + length e - length e) with (length x) by lia.
  rewrite firstn_app, firstn_all, Nat.sub_diag. cbn [firstn]. apply app_nil_r.
Qed.

(** X10: The fields of [parse(p)] are what the other functions return for [p]:
    [dir] is [dirname(p)] unless it is empty, where [dirname] gives ".";
    [base] is [basename(p)]; [ext] is [extname(p)]; [name] is
    [basename(p, extname(p))].  So [dirname] never returns the empty
    string. *)
Theorem parse_fields_are_functions (p : str) :
  (exists info,
      Posix.parse (VStr p) = Ok info
      /\ Posix.dirname p = Ok (or_str (dir info) (lit "."))
      /\ Posix.basename p [] = Ok (base info)
      /\ Posix.extname p = Ok (ext info)
      /\ Posix.basename p (ext info) = Ok (name info))
  /\ (exists info,
         Win32.parse (VStr p) = Ok info
         /\ Win32.dirname p = Ok (or_str (dir info) (lit "."))
         /\ Win32.basename p [] = Ok (base info)
         /\ Win32.extname p = Ok (ext info)
         /\ Win32.basename p (ext info) = Ok (name info)).
Proof.
  split.
  - destruct (posix_parse_ext p) as (x & X & P).
    eexists. split; [exact P|]. cbn [dir base ext name].
    split; [apply posix_dirname_eq|].
    unfold Posix.basename, Posix.extname.
    rewrite posix_splitPath_ext. cbn [bind nth or_empty is_empty negb andb].
    split; [reflexivity|]. split; [reflexivity|].
    remember (base_of is_slash (posix_rest p)) as b eqn:Hb. clear Hb.
    remember (ext_of b) as e eqn:He. clear He. subst b.
    rewrite suffix_skipn, prefix_firstn, str_eqb_refl.
    destruct e; cbn [is_empty negb andb]; [rewrite app_nil_r|]; reflexivity.
  - destruct (win32_parse_ext p) as (x & X & P).
    eexists. split; [exact P|]. cbn [dir base ext name].
    split; [apply win32_dirname_eq|].
    unfold Win32.basename, Win32.extname.
    rewrite win32_splitPath_ext. cbn [bind nth is_empty negb andb].
    split; [reflexivity|]. split; [reflexivity|].
    remember (base_of is_sep (tail_of p)) as b eqn:Hb. clear Hb.
    remember (ext_of b) as e eqn:He. clear He. subst b.
    rewrite suffix_skipn, prefix_firstn, str_eqb_refl.
    destruct e; cbn [is_empty negb andb]; [rewrite app_nil_r|]; reflexivity.
Qed.
(** X11: [extname(p)] is the extension of [basename(p)]: the part of the base
    name from its last "." on, where a "." that is the first character of
    the base name does not count and ".." has no extension. *)
Theorem extname_of_basename (p : str) :
  (exists b, Posix.basename p [] = Ok b /\ Posix.extname p = Ok (ext_of b))
  /\ (exists b, Win32.basename p [] = Ok b /\ Win32.extname p = Ok (ext_of b)).
Proof.
  split.
  - unfold Posix.basename, Posix.extname. rewrite posix_splitPath_ext.
    eexists. split; reflexivity.
  - unfold Win32.basename, Win32.extname. rewrite win32_splitPath_ext.
    eexists. split; reflexivity.
Qed.

Lemma name_chars_free (sepc : ascii -> bool) (w : str) :
  Forall (fun a => non sepc a = true) w -> free_of sepc w.
Proof.
  unfold free_of. apply Forall_impl. intros a H. unfold non in H.
  apply negb_true_iff, H.
Qed.

(** X12: [basename] never returns a separator, with or without an extension to
    strip. *)
Theorem basename_has_no_separator (p ext : str) :
  (exists b, Posix.basename p ext = Ok b /\ free_of is_slash b)
  /\ (exists b, Win32.basename p ext = Ok b /\ free_of is_sep b).
Proof.
  split.
  - unfold Posix.basename. rewrite posix_splitPath_ext. cbn [bind nth or_empty].
    destruct (dir_split is_slash (posix_rest p)) as (_ & _ & _ & B & _).
    apply name_chars_free in B.
    destruct (_ && _); eexists; (split; [reflexivity|]); [|exact B].
    apply Forall_firstn', B.
  - unfold Win32.basename. rewrite win32_splitPath_ext. cbn [bind nth].
    destruct (dir_split is_sep (tail_of p)) as (_ & _ & _ & B & _).
    apply name_chars_free in B.
    destruct (_ && _); eexists; (split; [reflexivity|]); [|exact B].
    apply Forall_firstn', B.
Qed.

(** *** A separator at the end of a path *)

Lemma span_snoc_other (c : ascii -> bool) (r : str) (x : ascii) :
  c x = false -> span c (r ++ [x]) = span c r.
Proof.
  intros X. induction r as [|a r IH]; simpl; [rewrite X; reflexivity|].
  rewrite IH. reflexivity.
Qed.

Lemma span_snoc_same (c : ascii -> bool) (r : str) (x : ascii) :
  c x = true ->
  span c (r ++ [x]) = if span c r =? length r then S (length r) else span c r.
Proof.
  intros X. induction r as [|a r IH]; simpl; [rewrite X; reflexivity|].
  destruct (c a); [|reflexivity]. rewrite IH.
  change (S (span c r) =? S (length r)) with (span c r =? length r).
  destruct (span c r =? length r); reflexivity.
Qed.

Lemma shape_snoc (sepc : ascii -> bool) (r : str) (x : ascii) :
  sepc x = true -> shape sepc (r ++ [x]) = shape sepc r.
Proof.
  intros X. unfold shape.
  assert (NX : non sepc x = false) by (unfold non; rewrite X; reflexivity).
  rewrite (span_snoc_other _ _ _ NX).
  pose proof (span_le (non sepc) r) as L.
  rewrite skipn_app. replace (span (non sepc) r - length r) with 0 by lia.
  cbn [skipn]. rewrite (span_snoc_same _ _ _ X), length_app. cbn [length].
  set (s := skipn (span (non sepc) r) r).
  pose proof (span_le sepc s).
  destruct (Nat.eqb_spec (span sepc s) (length s)) as [E|N].
  - apply Nat.eqb_eq. lia.
  - apply Nat.eqb_neq. lia.
Qed.

Lemma dir_len_snoc (sepc : ascii -> bool) (t : str) (x : ascii) :
  sepc x = true -> dir_len sepc (t ++ [x]) = dir_len sepc t.
Proof.
  intros X. induction t as [|a t IH].
  - pose proof (shape_snoc sepc [] x X) as H. cbn [app] in H.
    cbn [app dir_len]. rewrite H. reflexivity.
  - change ((a :: t) ++ [x]) with (a :: (t ++ [x])).
    cbn [dir_len].
    change (a :: (t ++ [x])) with ((a :: t) ++ [x]).
    rewrite (shape_snoc sepc (a :: t) x X), IH. reflexivity.
Qed.

Lemma base_of_snoc (sepc : ascii -> bool) (t : str) (x : ascii) :
  sepc x = true ->
  base_of sepc (t ++ [x]) = base_of sepc t
  /\ dirBody_of sepc (t ++ [x]) = dirBody_of sepc t.
Proof.
  intros X. unfold base_of, dirBody_of. rewrite (dir_len_snoc sepc t x X).
  destruct (dir_len_spec sepc t) as (L & _ & _).
  assert (NX : non sepc x = false) by (unfold non; rewrite X; reflexivity).
  split.
  - rewrite skipn_app. replace (dir_len sepc t - length t) with 0 by lia.
    cbn [skipn]. rewrite (span_snoc_other _ _ _ NX).
    rewrite firstn_app.
    pose proof (span_le (non sepc) (skipn (dir_len sepc t) t)).
    replace (span (non sepc) (skipn (dir_len sepc t) t)
             - length (skipn (dir_len sepc t) t)) with 0 by lia.
    cbn [firstn]. apply app_nil_r.
  - rewrite firstn_app. replace (dir_len sepc t - length t) with 0 by lia.
    cbn [firstn]. apply app_nil_r.
Qed.

Lemma posix_rest_snoc (p : str) :
  base_of is_slash (posix_rest (p ++ lit "/")) = base_of is_slash (posix_rest p).
Proof.
  destruct p as [|a p]; [reflexivity|].
  assert (E : posix_rest ((a :: p) ++ lit "/") = posix_rest (a :: p) ++ lit "/").
  { unfold posix_rest, posix_root. cbn [app starts_with].
    destruct (Ascii.eqb a "/"); reflexivity. }
  rewrite E. apply (base_of_snoc is_slash). reflexivity.
Qed.

(** *** [join] of [dirname] and [basename] *)

Lemma posix_normalize_dot_slash (s : str) :
  s <> [] -> starts_with "/" s = false ->
  Posix.normalize (lit "./" ++ s) = Posix.normalize s.
Proof.
  intros N S. destruct s as [|a s]; [congruence|].
  unfold Posix.normalize.
  change (Posix.isAbsolute (lit "./" ++ a :: s)) with false.
  change (Posix.isAbsolute (a :: s)) with (starts_with "/" (a :: s)). rewrite S.
  change (is_empty (lit "./" ++ a :: s)) with false.
  cbn [is_empty negb andb].
  assert (E : ends_with "/" (lit "./" ++ a :: s) = ends_with "/" (a :: s)).
  { change (ends_with "/" ?x) with (ends_with_cls is_slash x).
    apply ends_with_cls_app. discriminate. }
  rewrite E.
  assert (Sp : split_chr "/" (lit "./" ++ a :: s) = lit "." :: split_chr "/" (a :: s)).
  { change (lit "./" ++ a :: s) with (lit "." ++ "/"%char :: a :: s).
    rewrite !split_chr_cls.
    rewrite (split_cls_app is_slash) by reflexivity. reflexivity. }
  rewrite Sp. reflexivity.
Qed.

(** X13: For a path that does not end with "/", POSIX [join] puts back together
    what [dirname] and [basename] take apart: the result is the normalized
    path. *)
Theorem posix_join_dirname_basename (p d b : str) :
  ends_with "/" p = false ->
  Posix.dirname p = Ok d ->
  Posix.basename p [] = Ok b ->
  Posix.join [VStr d; VStr b] = Ok (Posix.normalize p).
Proof.
  intros E D B.
  destruct (posix_parse_ext p) as (x & _ & P).
  destruct (posix_round_trip p _ P (or_introl E)) as (f & F & N).
  rewrite posix_format_obj in F. cbn [dir base] in F. injection F as F.
  rewrite posix_dirname_eq in D. injection D as D.
  unfold Posix.basename in B. rewrite posix_splitPath_ext in B.
  cbn [bind nth or_empty is_empty negb andb] in B. injection B as B.
  change [VStr d; VStr b] with (map VStr [d; b]).
  unfold Posix.join. rewrite posix_join_loop_eq. cbn [bind]. f_equal.
  rewrite <- N, <- F, <- D, <- B.
  set (dir := posix_root p ++ removelast (dirBody_of is_slash (posix_rest p))).
  set (base := base_of is_slash (posix_rest p)).
  assert (BF : starts_with "/" base = false).
  { destruct (dir_split is_slash (posix_rest p)) as (_ & _ & _ & Bn & _).
    fold base in Bn. destruct Bn as [|a w A _]; [reflexivity|].
    unfold non in A. apply negb_true_iff in A. exact A. }
  destruct dir as [|c dir'] eqn:Ed.
  - cbn [or_str is_empty negb app filter non_empty].
    destruct base as [|a w] eqn:Eb; [reflexivity|].
    cbn [is_empty negb non_empty filter join_str].
    change (lit "." ++ lit "/" ++ a :: w) with (lit "./" ++ a :: w).
    apply posix_normalize_dot_slash; [discriminate | exact BF].
  - cbn [or_str is_empty negb filter non_empty].
    destruct base as [|a w] eqn:Eb.
    + cbn [is_empty negb non_empty filter join_str]. rewrite app_nil_r.
      destruct (dir_split is_slash (posix_rest p))
        as (_ & _ & _ & _ & [Dn|(Y & z & _ & _ & Bn)]).
      * unfold dir in Ed. rewrite Dn in Ed. cbn [removelast] in Ed.
        rewrite app_nil_r in Ed.
        destruct (posix_root_cases p) as [(R & _)|(R & _)]; rewrite R in Ed.
        -- discriminate Ed.
        -- injection Ed as <- <-. reflexivity.
      * fold base in Bn. rewrite Eb in Bn. congruence.
    + cbn [is_empty negb non_empty filter join_str].
      rewrite <- app_assoc. reflexivity.
Qed.

(** X13 at a concrete input. *)
Lemma posix_join_dirname_basename_witness :
  ends_with "/" (lit "/a/../b/c.txt") = false
  /\ Posix.dirname (lit "/a/../b/c.txt") = Ok (lit "/a/../b")
  /\ Posix.basename (lit "/a/../b/c.txt") [] = Ok (lit "c.txt")
  /\ Posix.join [VStr (lit "/a/../b"); VStr (lit "c.txt")]
     = Ok (Posix.normalize (lit "/a/../b/c.txt")).
Proof.
  split; [reflexivity|]. split; [reflexivity|]. split; [reflexivity|].
  apply (posix_join_dirname_basename (lit "/a/../b/c.txt")); reflexivity.
Defined.

Lemma has_drive_snoc (p : str) (c : ascii) :
  is_sep c = true -> has_drive (p ++ [c]) = has_drive p.
Proof.
  intros C. destruct p as [|a [|b p]]; try reflexivity.
  cbn [app has_drive]. unfold is_sep in C.
  destruct (Ascii.eqb_spec c ":") as [->|]; [discriminate C|].
  apply andb_false_r.
Qed.

Lemma unc_len_snoc (p : str) (c : ascii) :
  is_sep c = true -> unc_len (p ++ [c]) = unc_len p.
Proof.
  intros C.
  assert (NC : non is_sep c = false) by (unfold non; rewrite C; reflexivity).
  destruct p as [|a [|b s2]]; [reflexivity | |].
  - cbn [app unc_len span skipn]. rewrite !andb_false_r. reflexivity.
  - cbn [app unc_len].
    rewrite (span_snoc_other _ s2 c NC).
    set (n1 := span (non is_sep) s2).
    pose proof (span_le (non is_sep) s2) as L1. fold n1 in L1.
    rewrite skipn_app. replace (n1 - length s2) with 0 by lia. cbn [skipn].
    set (Y := skipn n1 s2).
    rewrite (span_snoc_same _ Y c C).
    pose proof (span_le is_sep Y) as L2.
    destruct (Nat.eqb_spec (span is_sep Y) (length Y)) as [E|N].
    + rewrite E.
      rewrite (skipn_all2 (n := S (length Y)) (Y ++ [c]))
        by (rewrite length_app; cbn [length]; lia).
      rewrite skipn_all. cbn [span Nat.leb].
      rewrite !andb_false_r. reflexivity.
    + rewrite skipn_app. replace (span is_sep Y - length Y) with 0 by lia.
      cbn [skipn]. rewrite (span_snoc_other _ _ c NC). reflexivity.
Qed.

Lemma device_len_le (p : str) : device_len p <= length p.
Proof.
  unfold device_len. destruct (has_drive p) eqn:H.
  - destruct p as [|a [|b p]]; try discriminate H. simpl. lia.
  - destruct p as [|a [|b s2]]; [simpl; lia | simpl; lia |].
    cbn [unc_len].
    pose proof (span_le (non is_sep) s2) as L1.
    pose proof (span_le is_sep (skipn (span (non is_sep) s2) s2)) as L2.
    pose proof (span_le (non is_sep)
                  (skipn (span is_sep (skipn (span (non is_sep) s2) s2))
                     (skipn (span (non is_sep) s2) s2))) as L3.
    rewrite !length_skipn in L3. rewrite length_skipn in L2.
    destruct (_ && _); cbn [length]; lia.
Qed.

Lemma win32_base_snoc (p : str) (c : ascii) :
  is_sep c = true ->
  base_of is_sep (tail_of (p ++ [c])) = base_of is_sep (tail_of p).
Proof.
  intros C.
  assert (D : device_len (p ++ [c]) = device_len p).
  { unfold device_len. rewrite has_drive_snoc, unc_len_snoc by exact C. reflexivity. }
  pose proof (device_len_le p) as L.
  assert (A : after_device (p ++ [c]) = after_device p ++ [c]).
  { unfold after_device. rewrite D, skipn_app.
    replace (device_len p - length p) with 0 by lia. reflexivity. }
  unfold tail_of. rewrite A.
  destruct (after_device p) as [|a r]; cbn [app].
  - rewrite C. reflexivity.
  - destruct (is_sep a).
    + apply (base_of_snoc is_sep r c C).
    + apply (base_of_snoc is_sep (a :: r) c C).
Qed.

(** X14: A separator added at the end of a path changes neither its [basename]
    nor its [extname], on either driver. *)
Theorem trailing_separator_ignored (p ext : str) :
  (Posix.basename (p ++ lit "/") ext = Posix.basename p ext
   /\ Posix.extname (p ++ lit "/") = Posix.extname p)
  /\ (Win32.basename (p ++ lit "\") ext = Win32.basename p ext
      /\ Win32.extname (p ++ lit "\") = Win32.extname p)
  /\ (Win32.basename (p ++ lit "/") ext = Win32.basename p ext
      /\ Win32.extname (p ++ lit "/") = Win32.extname p).
Proof.
  split; [|split].
  - unfold Posix.basename, Posix.extname. rewrite !posix_splitPath_ext.
    cbn [bind nth or_empty]. rewrite posix_rest_snoc. split; reflexivity.
  - unfold Win32.basename, Win32.extname. rewrite !win32_splitPath_ext.
    cbn [bind nth]. change (lit "\") with ["\"%char].
    rewrite (win32_base_snoc p "\" eq_refl). split; reflexivity.
  - unfold Win32.basename, Win32.extname. rewrite !win32_splitPath_ext.
    cbn [bind nth]. change (lit "/") with ["/"%char].
    rewrite (win32_base_snoc p "/" eq_refl). split; reflexivity.
Qed.

(** ** [format] after [parse] *)

(** Separators at the end of a path. *)

Lemma base_of_seps (sepc : ascii -> bool) (t : str) :
  Forall (fun a => sepc a = true) t -> base_of sepc t = [].
Proof.
  intros F. unfold base_of.
  assert (N : span (non sepc) t = 0).
  { destruct F as [|a t A _]; [reflexivity|]. simpl. unfold non. rewrite A. reflexivity. }
  assert (S : shape sepc t = true).
  { unfold shape. rewrite N. cbn [skipn]. apply Nat.eqb_eq.
    clear N. induction F as [|a t A _ IH]; [reflexivity|]. simpl. rewrite A, IH.
    reflexivity. }
  assert (D : dir_len sepc t = 0) by (destruct t; cbn [dir_len]; rewrite S; reflexivity).
  rewrite D. cbn [skipn]. rewrite N. reflexivity.
Qed.

Lemma posix_parse_snoc (p : str) :
  p <> [] -> Posix.parse (VStr (p ++ lit "/")) = Posix.parse (VStr p).
Proof.
  intros N. destruct p as [|a p]; [contradiction|].
  assert (R : posix_root ((a :: p) ++ lit "/") = posix_root (a :: p)) by reflexivity.
  assert (E : posix_rest ((a :: p) ++ lit "/") = posix_rest (a :: p) ++ lit "/").
  { unfold posix_rest, posix_root. cbn [app starts_with].
    destruct (Ascii.eqb a "/"); reflexivity. }
  destruct (base_of_snoc is_slash (posix_rest (a :: p)) "/" eq_refl) as (B & D).
  change ["/"%char] with (lit "/") in B, D.
  destruct (posix_parse_ext ((a :: p) ++ lit "/")) as (x & X & ->).
  destruct (posix_parse_ext (a :: p)) as (y & Y & ->).
  rewrite R, E, B, D in *.
  assert (x = y) by (apply (app_inv_tail (ext_of (base_of is_slash (posix_rest (a :: p)))));
                     congruence).
  subst y. reflexivity.
Qed.

Lemma posix_parse_trail (q trail : str) :
  q <> [] -> Forall (fun a => is_slash a = true) trail ->
  Posix.parse (VStr (q ++ trail)) = Posix.parse (VStr q).
Proof.
  intros N F. revert q N; induction F as [|c trail C _ IH]; intros q N.
  - rewrite app_nil_r. reflexivity.
  - apply is_slash_eq in C. subst c.
    change (q ++ "/"%char :: trail) with (q ++ lit "/" ++ trail).
    rewrite app_assoc, IH by (destruct q; discriminate).
    apply posix_parse_snoc, N.
Qed.

Lemma posix_base_of_seps (trail : str) :
  Forall (fun a => is_slash a = true) trail ->
  base_of is_slash (posix_rest trail) = [].
Proof.
  intros F. apply base_of_seps. unfold posix_rest, posix_root.
  destruct F as [|a t A F]; [constructor|].
  apply is_slash_eq in A. subst a. exact F.
Qed.

Lemma posix_round_trip_trail (q trail : str) (info : PathInfo) :
  Forall (fun a => is_slash a = true) trail ->
  ends_with "/" q = false ->
  Posix.parse (VStr (q ++ trail)) = Ok info ->
  base info <> [] ->
  exists x, Posix.format (obj_of info) = Ok x
            /\ Posix.normalize x = Posix.normalize q.
Proof.
  intros F EW P B.
  destruct q as [|a q].
  - exfalso. apply B. cbn [app] in P.
    destruct (posix_parse_eq trail) as (e & n & E). rewrite E in P.
    injection P as <-. cbn [base]. apply posix_base_of_seps, F.
  - rewrite posix_parse_trail in P by (discriminate || exact F).
    apply (posix_round_trip (a :: q) info P). left. exact EW.
Qed.

Lemma device_len_snoc (p : str) (c : ascii) :
  is_sep c = true -> device_len (p ++ [c]) = device_len p.
Proof.
  intros C. unfold device_len. rewrite has_drive_snoc, unc_len_snoc by exact C.
  reflexivity.
Qed.

Lemma after_device_snoc (p : str) (c : ascii) :
  is_sep c = true ->
  device_of (p ++ [c]) = device_of p
  /\ after_device (p ++ [c]) = after_device p ++ [c].
Proof.
  intros C. pose proof (device_len_le p) as L.
  unfold device_of, after_device. rewrite (device_len_snoc p c C).
  rewrite firstn_app, skipn_app.
  replace (device_len p - length p) with 0 by lia.
  cbn [firstn skipn]. rewrite app_nil_r. split; reflexivity.
Qed.

Lemma win32_parse_snoc (p : str) (c : ascii) :
  is_sep c = true -> after_device p <> [] ->
  Win32.parse (VStr (p ++ [c])) = Win32.parse (VStr p)
  /\ after_device (p ++ [c]) <> [].
Proof.
  intros C N. destruct (after_device_snoc p c C) as (Dv & A).
  split; [|rewrite A; destruct (after_device p); discriminate].
  assert (S : slash_of (p ++ [c]) = slash_of p).
  { unfold slash_of. rewrite A. destruct (after_device p); [contradiction | reflexivity]. }
  assert (T : tail_of (p ++ [c]) = tail_of p ++ [c]).
  { unfold tail_of. rewrite A. destruct (after_device p) as [|a r]; [contradiction|].
    cbn [app]. destruct (is_sep a); reflexivity. }
  destruct (base_of_snoc is_sep (tail_of p) c C) as (B & D).
  destruct (win32_parse_ext (p ++ [c])) as (x & X & ->).
  destruct (win32_parse_ext p) as (y & Y & ->).
  rewrite Dv, S, T, B, D in *.
  assert (x = y) by (apply (app_inv_tail (ext_of (base_of is_sep (tail_of p))));
                     congruence).
  subst y. reflexivity.
Qed.

Lemma win32_parse_trail (q trail : str) :
  after_device q <> [] -> Forall (fun a => is_sep a = true) trail ->
  Win32.parse (VStr (q ++ trail)) = Win32.parse (VStr q).
Proof.
  intros N F. revert q N; induction F as [|c trail C _ IH]; intros q N.
  - rewrite app_nil_r. reflexivity.
  - destruct (win32_parse_snoc q c C N) as (P & N').
    change (q ++ c :: trail) with (q ++ [c] ++ trail).
    rewrite app_assoc, (IH _ N'). exact P.
Qed.

Lemma after_device_trail (q trail : str) :
  Forall (fun a => is_sep a = true) trail ->
  after_device (q ++ trail) = after_device q ++ trail.
Proof.
  intros F. revert q; induction F as [|c trail C _ IH]; intros q.
  - rewrite !app_nil_r. reflexivity.
  - change (q ++ c :: trail) with (q ++ [c] ++ trail).
    rewrite app_assoc, IH. destruct (after_device_snoc q c C) as (_ & ->).
    rewrite <- app_assoc. reflexivity.
Qed.

Lemma win32_round_trip_trail (q trail : str) (info : PathInfo) :
  Forall (fun a => is_sep a = true) trail ->
  ends_with_sep q = false ->
  Win32.parse (VStr (q ++ trail)) = Ok info ->
  base info <> [] ->
  is_bare_drive (dir info) = false ->
  exists x, Win32.format (obj_of info) = Ok x
            /\ Win32.normalize x = Win32.normalize q.
Proof.
  intros F EW P B NB.
  destruct (after_device q) as [|a r] eqn:A.
  - exfalso. apply B.
    destruct (win32_parse_eq (q ++ trail)) as (e & n & E). rewrite E in P.
    injection P as <-. cbn [base]. apply base_of_seps.
    unfold tail_of. rewrite (after_device_trail q trail F), A. cbn [app].
    destruct F as [|c t C F]; [constructor|]. rewrite C. exact F.
  - rewrite win32_parse_trail in P by (rewrite ?A; discriminate || exact F).
    apply (win32_round_trip q info P); [left; exact EW | exact NB].
Qed.

(** C2 (as amended): for every string [p] that does not end with a
    separator, or whose parsed base is empty, [format(parse(p))] is a path
    with the normal form of [p] on the POSIX driver; on the Windows driver
    the same holds when the [dir] of [parse(p)] is not a bare drive (a
    letter and a colon).  Separators after a base that is not empty are
    dropped by [parse]: for [p] made of [q], which does not end with a
    separator, and of separators after it, [format(parse(p))] has the
    normal form of [q], on Windows again unless [dir] is a bare drive. *)
Theorem C2_format_parse_round_trip :
  (forall (p : str) (info : PathInfo),
      Posix.parse (VStr p) = Ok info ->
      ends_with "/" p = false \/ base info = [] ->
      exists x, Posix.format (obj_of info) = Ok x
                /\ Posix.normalize x = Posix.normalize p)
  /\ (forall (p : str) (info : PathInfo),
         Win32.parse (VStr p) = Ok info ->
         ends_with_sep p = false \/ base info = [] ->
         is_bare_drive (dir info) = false ->
         exists x, Win32.format (obj_of info) = Ok x
                   /\ Win32.normalize x = Win32.normalize p)
  /\ (forall (q trail : str) (info : PathInfo),
         Forall (fun a => is_slash a = true) trail ->
         ends_with "/" q = false ->
         Posix.parse (VStr (q ++ trail)) = Ok info ->
         base info <> [] ->
         exists x, Posix.format (obj_of info) = Ok x
                   /\ Posix.normalize x = Posix.normalize q)
  /\ (forall (q trail : str) (info : PathInfo),
         Forall (fun a => is_sep a = true) trail ->
         ends_with_sep q = false ->
         Win32.parse (VStr (q ++ trail)) = Ok info ->
         base info <> [] ->
         is_bare_drive (dir info) = false ->
         exists x, Win32.format (obj_of info) = Ok x
                   /\ Win32.normalize x = Win32.normalize q).
Proof.
  split; [exact posix_round_trip|]. split; [exact win32_round_trip|].
  split; [exact posix_round_trip_trail | exact win32_round_trip_trail].
Qed.

(** C2 at a POSIX path and at a Windows path, both with a doubled
    separator before the base, and at two paths with separators after the
    base. *)
Lemma C2_format_parse_round_trip_witness :
  (Posix.parse (VStr (lit "/a//b.txt"))
   = Ok (mkPathInfo (lit "/") (lit "/a/") (lit "b.txt") (lit ".txt") (lit "b"))
   /\ ends_with "/" (lit "/a//b.txt") = false
   /\ exists x,
       Posix.format
         (obj_of (mkPathInfo (lit "/") (lit "/a/") (lit "b.txt") (lit ".txt") (lit "b")))
       = Ok x
       /\ Posix.normalize x = Posix.normalize (lit "/a//b.txt"))
  /\ (Win32.parse (VStr (lit "C:/a\\b.txt"))
      = Ok (mkPathInfo (lit "C:/") (lit "C:/a\") (lit "b.txt") (lit ".txt") (lit "b"))
      /\ ends_with_sep (lit "C:/a\\b.txt") = false
      /\ is_bare_drive (lit "C:/a\") = false
      /\ exists x,
          Win32.format
            (obj_of (mkPathInfo (lit "C:/") (lit "C:/a\") (lit "b.txt") (lit ".txt")
                       (lit "b")))
          = Ok x
          /\ Win32.normalize x = Win32.normalize (lit "C:/a\\b.txt"))
  /\ (Forall (fun a => is_slash a = true) (lit "/")
      /\ ends_with "/" (lit "/..") = false
      /\ Posix.parse (VStr (lit "/.." ++ lit "/"))
         = Ok (mkPathInfo (lit "/") (lit "/") (lit "..") [] (lit ".."))
      /\ lit ".." <> []
      /\ exists x,
          Posix.format (obj_of (mkPathInfo (lit "/") (lit "/") (lit "..") [] (lit "..")))
          = Ok x
          /\ Posix.normalize x = Posix.normalize (lit "/.."))
  /\ (Forall (fun a => is_sep a = true) (lit "\/")
      /\ ends_with_sep (lit "C:\a\b.txt") = false
      /\ Win32.parse (VStr (lit "C:\a\b.txt" ++ lit "\/"))
         = Ok (mkPathInfo (lit "C:\") (lit "C:\a") (lit "b.txt") (lit ".txt") (lit "b"))
      /\ lit "b.txt" <> []
      /\ is_bare_drive (lit "C:\a") = false
      /\ exists x,
          Win32.format
            (obj_of (mkPathInfo (lit "C:\") (lit "C:\a") (lit "b.txt") (lit ".txt")
                       (lit "b")))
          = Ok x
          /\ Win32.normalize x = Win32.normalize (lit "C:\a\b.txt")).
Proof.
  assert (F1 : Forall (fun a => is_slash a = true) (lit "/"))
    by (repeat constructor).
  assert (F2 : Forall (fun a => is_sep a = true) (lit "\/"))
    by (repeat constructor).
  split; [|split; [|split]].
  - split; [reflexivity|]. split; [reflexivity|].
    exact (proj1 C2_format_parse_round_trip (lit "/a//b.txt") _ eq_refl
             (or_introl eq_refl)).
  - split; [reflexivity|]. split; [reflexivity|]. split; [reflexivity|].
    exact (proj1 (proj2 C2_format_parse_round_trip) (lit "C:/a\\b.txt") _ eq_refl
             (or_introl eq_refl) eq_refl).
  - split; [exact F1|]. split; [reflexivity|]. split; [reflexivity|].
    split; [discriminate|].
    apply (proj1 (proj2 (proj2 C2_format_parse_round_trip)) (lit "/..") (lit "/") _ F1
             eq_refl eq_refl).
    discriminate.
  - split; [exact F2|]. split; [reflexivity|]. split; [reflexivity|].
    split; [discriminate|]. split; [reflexivity|].
    apply (proj2 (proj2 (proj2 C2_format_parse_round_trip)) (lit "C:\a\b.txt")
             (lit "\/") _ F2 eq_refl eq_refl); [discriminate | reflexivity].
Defined.

(** C2 as stated fails: [parse] drops a trailing separator that
    [normalize] keeps, and Windows [format] puts a separator after a bare
    drive. *)
Lemma C2_round_trip_fails :
  (Posix.parse (VStr (lit "a/"))
   = Ok (mkPathInfo [] [] (lit "a") [] (lit "a"))
   /\ Posix.format (obj_of (mkPathInfo [] [] (lit "a") [] (lit "a"))) = Ok (lit "a")
   /\ Posix.normalize (lit "a") = lit "a"
   /\ Posix.normalize (lit "a/") = lit "a/")
  /\ (Win32.parse (VStr (lit "C:a"))
      = Ok (mkPathInfo (lit "C:") (lit "C:") (lit "a") [] (lit "a"))
      /\ Win32.format (obj_of (mkPathInfo (lit "C:") (lit "C:") (lit "a") [] (lit "a")))
         = Ok (lit "C:\a")
      /\ Win32.normalize (lit "C:\a") = Ok (lit "C:\a")
      /\ Win32.normalize (lit "C:a") = Ok (lit "C:a")).
Proof. repeat split. Qed.

(** ** The Windows driver *)

(** X15: Windows [isAbsolute]: a path is absolute exactly when, after its
    drive (a letter and a colon) if it has one, it starts with a
    separator. *)
Theorem win32_isAbsolute_cases (p : str) :
  Win32.isAbsolute p
  = Ok (starts_with_cls is_sep (if has_drive p then skipn 2 p else p)).
Proof.
  unfold Win32.isAbsolute. rewrite statPath_eq. cbn [bind Win32.stat_isAbsolute].
  f_equal. unfold abs_of, unc_of, after_device, device_len.
  destruct (has_drive p) eqn:H; [reflexivity|]. cbn [negb andb].
  destruct (Nat.eqb_spec (unc_len p) 0) as [E|N].
  - rewrite E. reflexivity.
  - cbn [negb orb].
    destruct (unc_parts_full p N) as (a & b & host & seps & share & R & E & _ & A & _).
    rewrite E. cbn [app starts_with_cls]. rewrite A. reflexivity.
Qed.

Lemma sep_free_slash (w : str) : free_of is_sep w -> free_of is_slash w.
Proof.
  unfold free_of. apply Forall_impl. intros a H. unfold is_sep in H.
  apply orb_false_iff in H. apply H.
Qed.

Lemma join_str_free (c : ascii -> bool) (sep : str) (l : list str) :
  free_of c sep -> Forall (free_of c) l -> free_of c (join_str sep l).
Proof.
  intros S. induction 1 as [|x l X L IH]; [constructor|].
  destruct l as [|y l]; [exact X|].
  change (join_str sep (x :: y :: l)) with (x ++ sep ++ join_str sep (y :: l)).
  unfold free_of in *. rewrite !Forall_app. auto.
Qed.

Lemma letter_not_sep (a : ascii) : is_letter a = true -> is_sep a = false.
Proof.
  intros L. unfold is_sep.
  destruct (Ascii.eqb_spec a "\") as [->|]; [discriminate L|].
  destruct (Ascii.eqb_spec a "/") as [->|]; [discriminate L|]. reflexivity.
Qed.

Lemma win32_device_free (p : str) :
  free_of is_slash
    (if unc_of p then Win32.normalizeUNCRoot (device_of p) else device_of p).
Proof.
  unfold unc_of, device_of, device_len.
  destruct (device_len_cases p) as [(H & _ & a & b & r & E & L & B)|(H & _)];
    rewrite H; cbn [negb andb].
  - rewrite E. cbn [firstn]. subst b. apply sep_free_slash.
    repeat constructor. apply letter_not_sep, L.
  - destruct (Nat.eqb_spec (unc_len p) 0) as [Z|N]; cbn [negb].
    + rewrite Z. constructor.
    + destruct (unc_parts p N)
        as (a & b & host & seps & share & E & A & B & Hh & Hn & Hs & Sn & Hsh & _).
      rewrite E, (normalizeUNCRoot_parts a b host seps share) by assumption.
      apply name_chars_free, sep_free_slash in Hh, Hsh.
      unfold free_of in *. rewrite !Forall_app.
      split; [repeat constructor|]. split; [exact Hh|].
      split; [repeat constructor | exact Hsh].
Qed.

(** X16: Windows [normalize] returns for every string, never the empty string,
    and its result holds no forward slash. *)
Theorem win32_normalize_backslashes (p : str) :
  exists q, Win32.normalize p = Ok q /\ q <> [] /\ free_of is_slash q.
Proof.
  rewrite win32_normalize_eq. eexists. split; [reflexivity|].
  set (tr := ends_with_sep (tail_of p)).
  assert (T : free_of is_slash
                (norm_tail is_sep "\" (negb (abs_of p)) tr (tail_of p))).
  { unfold norm_tail, norm_path.
    assert (J : free_of is_slash
                  (join_str ["\"%char] (norm_segs is_sep (negb (abs_of p)) (tail_of p)))).
    { apply join_str_free; [repeat constructor|].
      pose proof (norm_segs_free is_sep eq_refl (negb (abs_of p)) (tail_of p)) as F.
      revert F. apply Forall_impl. intros w. apply sep_free_slash. }
    set (j := join_str ["\"%char] _) in *.
    assert (P : free_of is_slash
                  (if is_empty j && negb (abs_of p) then lit "." else j)).
    { destruct (is_empty j && negb (abs_of p)); [repeat constructor | exact J]. }
    destruct (negb (is_empty _) && tr); [|exact P].
    unfold free_of in *. rewrite Forall_app. split; [exact P | repeat constructor]. }
  split.
  - destruct (abs_of p) eqn:A; cbn [negb] in *.
    + destruct (if unc_of p then _ else _); discriminate.
    + pose proof (norm_tail_non_empty is_sep "\" true tr (tail_of p)
                    (norm_path_relative_non_empty is_sep "\" (tail_of p))) as N.
      destruct (norm_tail is_sep "\" true tr (tail_of p)); [congruence|].
      destruct (if unc_of p then _ else _); discriminate.
  - unfold free_of in *. rewrite !Forall_app. split; [apply win32_device_free|].
    split; [|exact T]. destruct (abs_of p); repeat constructor.
Qed.
(** ** Windows [resolve] and [_makeLong] *)

(** X17: Windows [resolve] returns for all string arguments, whatever [cwd] and
    the environment hold, and never the empty string. *)
Theorem win32_resolve_returns (cwd : str) (env : str -> option str) (paths : list str) :
  exists r, Win32.resolve cwd env (map VStr paths) = Ok r /\ r <> [].
Proof.
  destruct (win32_resolve_total cwd env paths) as [r R].
  exists r. split; [exact R|].
  unfold Win32.resolve in R.
  destruct (Win32.resolve_loop cwd env _ _) as [st|]; [|discriminate R].
  cbn [bind] in R. injection R as <-.
  unfold or_str. destruct (is_empty _) eqn:E; [discriminate|].
  intros N. rewrite N in E. discriminate E.
Qed.

Lemma test_cls3 (re : regexp) (c1 c2 c3 : ascii -> bool) (s : str) :
  body re = (Bol +> Cls c1 +> Cls c2 +> Cls c3)%re ->
  test re s
  = match s with
    | a :: b :: c :: _ => c1 a && c2 b && c3 c
    | _ => false
    end.
Proof.
  intros B. unfold test. rewrite (exec_anchored re _ s B).
  destruct s as [|a [|b [|c s]]]; simpl;
    try (destruct (c1 a); simpl; [|reflexivity]);
    try (destruct (c2 b); simpl; [|reflexivity]);
    try (destruct (c3 c); simpl);
    reflexivity.
Qed.

Lemma test_driveRootRe (s : str) : test Win32.driveRootRe s = drive_rooted s.
Proof. apply (test_cls3 Win32.driveRootRe). reflexivity. Qed.

Lemma test_uncStartRe (s : str) : test Win32.uncStartRe s = unc_started s.
Proof. apply (test_cls3 Win32.uncStartRe). reflexivity. Qed.

(** A single path that has a device and is absolute resolves by itself. *)
Lemma win32_resolve_absolute_device (cwd : str) (env : str -> option str) (q : str) :
  device_of q <> [] -> abs_of q = true ->
  Win32.resolve cwd env [VStr q]
  = Ok ((if unc_of q then Win32.normalizeUNCRoot (device_of q) else device_of q)
        ++ lit "\"
        ++ join_str (lit "\")
             (normalizeArray (split_re Win32.sepsRe (tail_of q ++ lit "\")) false)).
Proof.
  intros D A.
  assert (Q : is_empty q = false) by (destruct q; [exfalso; auto | reflexivity]).
  assert (DE : is_empty (device_of q) = false) by (apply is_empty_false, D).
  unfold Win32.resolve. cbn [rev app Win32.resolve_loop Win32.resolve_path].
  unfold Win32.resolve_visit. rewrite as_string_VStr. cbn [bind]. rewrite Q.
  rewrite statPath_eq.
  cbn [bind Win32.device Win32.tail Win32.isUnc Win32.stat_isAbsolute
       Win32.resolvedDevice Win32.resolvedTail Win32.resolvedAbsolute Win32.r_isUnc
       is_empty negb andb].
  rewrite DE, A. cbn [negb andb bind Win32.resolvedDevice Win32.resolvedTail
                      Win32.resolvedAbsolute Win32.r_isUnc app].
  f_equal. unfold or_str.
  destruct (if unc_of q then _ else _) eqn:E; [|reflexivity].
  reflexivity.
Qed.

Lemma has_drive_backslash (s : str) : has_drive ("\"%char :: s) = false.
Proof. destruct s; reflexivity. Qed.

(** A path that starts with [\\?\], a name and a backslash is its own
    long form. *)
Lemma makeLong_long (cwd : str) (env : str -> option str) (share rest : str) :
  Forall (fun x => non is_sep x = true) share -> share <> [] ->
  Win32._makeLong cwd env (VStr (lit "\\?\" ++ share ++ "\"%char :: rest))
  = Ok (VStr (lit "\\?\" ++ share ++ "\"%char :: rest)).
Proof.
  intros Sf Sn.
  set (q := lit "\\?\" ++ share ++ "\"%char :: rest).
  assert (U : unc_len q = 2 + 1 + 1 + length share).
  { apply (unc_len_canonical (lit "?") share ("\"%char :: rest));
      [repeat constructor | discriminate | exact Sf | exact Sn | reflexivity]. }
  assert (H : has_drive q = false) by apply has_drive_backslash.
  assert (DL : device_len q = length (lit "\\?\" ++ share)).
  { unfold device_len. rewrite H, U, length_app. reflexivity. }
  destruct (stat_of_parts q (lit "\\?\" ++ share) (lit "\") rest DL) as (Dv & Tl & _).
  { unfold q. rewrite <- app_assoc. reflexivity. }
  { right. exists "\"%char. split; reflexivity. }
  assert (Un : unc_of q = true).
  { unfold unc_of. rewrite H, U. reflexivity. }
  assert (Ab : abs_of q = true) by (unfold abs_of; rewrite Un; reflexivity).
  assert (Dn : device_of q <> []) by (rewrite Dv; discriminate).
  unfold Win32._makeLong. change (isString (VStr q)) with true.
  change (is_empty q) with false. cbn [negb].
  rewrite (win32_resolve_absolute_device cwd env q Dn Ab). cbn [bind].
  rewrite Un, Dv.
  change (lit "\\?\" ++ share) with ("\"%char :: "\"%char :: lit "?" ++ lit "\" ++ share).
  rewrite (normalizeUNCRoot_parts "\" "\" (lit "?") (lit "\") share)
    by (reflexivity || discriminate || exact Sf || (repeat constructor)).
  rewrite test_driveRootRe, test_uncStartRe. reflexivity.
Qed.

Lemma makeLong_string (cwd : str) (env : str -> option str) (a : ascii) (p r : str) :
  Win32.resolve cwd env [VStr (a :: p)] = Ok r ->
  Win32._makeLong cwd env (VStr (a :: p))
  = Ok (VStr (if drive_rooted r then lit "\\?\" ++ r
              else if unc_started r then lit "\\?\UNC\" ++ skipn 2 r
                   else a :: p)).
Proof.
  intros R. unfold Win32._makeLong. change (isString (VStr (a :: p))) with true.
  cbn [negb is_empty]. rewrite R. cbn [bind].
  rewrite test_driveRootRe, test_uncStartRe.
  destruct (drive_rooted r); [reflexivity|].
  destruct (unc_started r); reflexivity.
Qed.

(** X18: Windows [_makeLong] returns for every value, and what it returns is its
    own long form: a second pass changes nothing. *)
Theorem win32_makeLong_idempotent (cwd : str) (env : str -> option str) (v : value) :
  exists q,
    Win32._makeLong cwd env v = Ok q
    /\ Win32._makeLong cwd env q = Ok q.
Proof.
  destruct v as [| |b|n|p|r d b];
    try (eexists; split; reflexivity).
  destruct p as [|a p].
  { exists (VStr []). split; reflexivity. }
  destruct (win32_resolve_total cwd env [a :: p]) as [r R]. cbn [map] in R.
  rewrite (makeLong_string cwd env a p r R).
  eexists. split; [reflexivity|].
  destruct (drive_rooted r) eqn:D.
  - destruct r as [|x [|y [|z r]]]; try discriminate D.
    cbn [drive_rooted] in D. apply andb_true_iff in D. destruct D as [D Z].
    apply andb_true_iff in D. destruct D as [X Y].
    apply Ascii.eqb_eq in Y, Z. subst y z.
    apply (makeLong_long cwd env [x; ":"%char] r); [|discriminate].
    repeat constructor. unfold non. rewrite (letter_not_sep x X). reflexivity.
  - destruct (unc_started r) eqn:U.
    + destruct r as [|x [|y [|z r]]]; try discriminate U.
      cbn [skipn].
      apply (makeLong_long cwd env (lit "UNC") (z :: r));
        [repeat constructor | discriminate].
    + rewrite (makeLong_string cwd env a p r R), D, U. reflexivity.
Qed.

(** ** Windows [relative] on one path *)

Lemma common_prefix_ci_refl (a : list str) : common_prefix_ci a a = length a.
Proof.
  induction a as [|x a IH]; [reflexivity|].
  simpl. rewrite str_eqb_refl, IH. reflexivity.
Qed.

Lemma drop_empty_split_run (c : ascii) (r : str) :
  forallb (is_chr c) r = true -> drop_empty (split_chr c r) = [].
Proof.
  induction r as [|a r IH]; [reflexivity|].
  cbn [forallb split_chr]. unfold is_chr at 1. intros H.
  apply andb_true_iff in H. destruct H as [A H]. rewrite A.
  cbn [drop_empty is_empty]. apply IH, H.
Qed.

Lemma drop_empty_split_other (c : ascii) (r : str) :
  forallb (is_chr c) r = false -> drop_empty (split_chr c r) <> [].
Proof.
  induction r as [|a r IH]; [discriminate|].
  cbn [forallb split_chr]. unfold is_chr at 1.
  destruct (Ascii.eqb a c); cbn [andb].
  - cbn [drop_empty is_empty]. exact IH.
  - intros _. destruct (split_chr c r); discriminate.
Qed.

Lemma trimArray_split_length (c : ascii) (r : str) :
  (length (trimArray (split_chr c r)) =? 0) = forallb (is_chr c) r.
Proof.
  rewrite trimArray_eq. destruct (forallb (is_chr c) r) eqn:F.
  - rewrite (drop_empty_split_run c r F). reflexivity.
  - pose proof (drop_empty_split_other c r F) as N.
    destruct (drop_empty (split_chr c r)) as [|x d] eqn:E; [congruence|].
    pose proof (drop_empty_head _ _ _ E) as X.
    pose proof (drop_empty_snoc (rev d) x X) as M.
    cbn [rev]. rewrite length_rev.
    destruct (drop_empty (rev d ++ [x])); [congruence | reflexivity].
Qed.

(** X19: For two paths that resolve to the same path, Windows [relative]
    returns the empty string, unless that path is made of backslashes
    only: then no segment is shared and [relative] returns the path. *)
Theorem win32_relative_same (cwd : str) (env : str -> option str) (from to r : str) :
  Win32.resolve cwd env [VStr from] = Ok r ->
  Win32.resolve cwd env [VStr to] = Ok r ->
  Win32.relative cwd env from to
  = Ok (if forallb (is_chr "\") r then r else []).
Proof.
  intros F T. unfold Win32.relative. rewrite F. cbn [bind]. rewrite T. cbn [bind].
  rewrite !split_chr_lower, !trimArray_map_lower, !length_map.
  set (tp := trimArray (split_chr "\" r)).
  pose proof (samePartsLength_common tp tp [] [] eq_refl) as S.
  cbn [app length Nat.add] in S. rewrite S, common_prefix_ci_refl.
  pose proof (trimArray_split_length "\" r) as L. fold tp in L. rewrite L.
  destruct (forallb (is_chr "\") r); [reflexivity|].
  rewrite Nat.sub_diag, skipn_all. reflexivity.
Qed.

(** X19 at a concrete input. *)
Lemma win32_relative_same_witness :
  Win32.resolve (lit "C:\work") (fun _ => None) [VStr (lit "a\..\b")]
  = Ok (lit "C:\work\b")
  /\ Win32.resolve (lit "C:\work") (fun _ => None) [VStr (lit "C:/work/./b")]
     = Ok (lit "C:\work\b")
  /\ Win32.relative (lit "C:\work") (fun _ => None) (lit "a\..\b") (lit "C:/work/./b")
     = Ok (if forallb (is_chr "\") (lit "C:\work\b") then lit "C:\work\b" else []).
Proof.
  split; [reflexivity|]. split; [reflexivity|].
  apply (win32_relative_same (lit "C:\work") (fun _ => None)
           (lit "a\..\b") (lit "C:/work/./b") (lit "C:\work\b")); reflexivity.
Defined.

(** ** [format] and the root *)

(** X20: [format] only checks the root of its argument and never puts it in the
    result: a root that is truthy and not a string is an invalid argument,
    and any other root gives what an object without root gives. *)
Theorem format_checks_root_only (r : value) (d b : option str) :
  Posix.format (VObj r d b)
  = (if truthy r && negb (isString r)
     then Throw (TypeError ([dq] ++ lit "pathObject.root" ++ [dq]
                            ++ lit " must be a string or undefined, not " ++ typeof r))
     else Posix.format (VObj VUndefined d b))
  /\ Win32.format (VObj r d b)
     = (if truthy r && negb (isString r)
        then Throw (TypeError ([dq] ++ lit "pathObject.root" ++ [dq]
                               ++ lit " must be a string or undefined, not " ++ typeof r))
        else Win32.format (VObj VUndefined d b)).
Proof.
  destruct r as [| |x|n|s|r' d' b']; try (split; reflexivity).
  - destruct x; split; reflexivity.
  - unfold Posix.format, Win32.format. cbn [isObject typeof get_root bind truthy].
    change (str_eqb (lit "object") (lit "object")) with true. cbn [negb].
    destruct (n =? 0)%Z; split; reflexivity.
  - destruct s; split; reflexivity.
Qed.

(** ** POSIX [resolve] and the arguments before an absolute path *)

(** X21: POSIX [resolve] never reads what stands before an absolute path: the
    arguments on its left, whatever they are, and [cwd] do not change the
    result. *)
Theorem posix_resolve_ignores_left (cwd cwd' : str) (pre pre' : list value)
        (p : str) (post : list str) :
  Posix.isAbsolute p = true ->
  Posix.resolve cwd (pre ++ VStr p :: map VStr post)
  = Posix.resolve cwd' (pre' ++ VStr p :: map VStr post).
Proof.
  intros A. unfold Posix.resolve.
  rewrite !rev_app_distr. cbn [rev]. rewrite <- !app_assoc, <- map_rev.
  cbn [app].
  rewrite (posix_resolve_loop_stops cwd cwd' (rev post) p (rev pre) (rev pre') _ A).
  reflexivity.
Qed.

(** X21 at a concrete input. *)
Lemma posix_resolve_ignores_left_witness :
  Posix.isAbsolute (lit "/srv") = true
  /\ Posix.resolve (lit "/home") ([VNum 42; VStr (lit "x")] ++ VStr (lit "/srv")
                                   :: map VStr [lit "a"; lit "../b"])
     = Posix.resolve [] ([] ++ VStr (lit "/srv") :: map VStr [lit "a"; lit "../b"]).
Proof.
  split; [reflexivity|].
  apply (posix_resolve_ignores_left (lit "/home") [] [VNum 42; VStr (lit "x")] []
           (lit "/srv") [lit "a"; lit "../b"]).
  reflexivity.
Defined.

(** ** Windows [resolve] of an absolute path with a device *)

Lemma resolved_tail_segments (t : str) (allow : bool) :
  normalizeArray (split_re Win32.sepsRe (t ++ lit "\")) allow
  = norm_segs is_sep allow t.
Proof.
  unfold norm_segs.
  rewrite <- (normalizeArray_filter allow (split_re _ _)), split_re_sepsRe.
  rewrite (filter_split_cls_trail is_sep t (lit "\")) by (repeat constructor).
  apply normalizeArray_filter.
Qed.

(** X22: A single path that has a device and is absolute resolves to the same
    path whatever [cwd] and the environment hold, and [normalize] gives
    that path, with a backslash after it when it keeps the one at the end
    of its argument. *)
Theorem win32_resolve_absolute_path (q : str) (st : Win32.PathStat) :
  Win32.statPath q = Ok st ->
  Win32.device st <> [] ->
  Win32.stat_isAbsolute st = true ->
  exists r,
    (forall cwd env, Win32.resolve cwd env [VStr q] = Ok r)
    /\ (Win32.normalize q = Ok r \/ Win32.normalize q = Ok (r ++ lit "\")).
Proof.
  rewrite statPath_eq. intros E D A. injection E as <-.
  cbn [Win32.device Win32.stat_isAbsolute] in D, A.
  eexists. split.
  - intros cwd env. apply (win32_resolve_absolute_device cwd env q D A).
  - rewrite win32_normalize_eq, A, resolved_tail_segments. cbn [negb].
    unfold norm_tail, norm_path. rewrite andb_false_r.
    change (join_str ["\"%char]) with (join_str (lit "\")).
    destruct (negb (is_empty _) && ends_with_sep (tail_of q)); [right | left].
    + rewrite <- !app_assoc. reflexivity.
    + reflexivity.
Qed.

(** X22 at a concrete input. *)
Lemma win32_resolve_absolute_path_witness :
  Win32.statPath (lit "c:/a/../b/")
  = Ok (Win32.mkPathStat (lit "c:") (lit "a/../b/") false true)
  /\ lit "c:" <> []
  /\ exists r,
       (forall cwd env, Win32.resolve cwd env [VStr (lit "c:/a/../b/")] = Ok r)
       /\ (Win32.normalize (lit "c:/a/../b/") = Ok r
           \/ Win32.normalize (lit "c:/a/../b/") = Ok (r ++ lit "\")).
Proof.
  split; [reflexivity|]. split; [discriminate|].
  apply (win32_resolve_absolute_path (lit "c:/a/../b/")
           (Win32.mkPathStat (lit "c:") (lit "a/../b/") false true));
    [reflexivity | discriminate | reflexivity].
Defined.

(** ** [normalizeUNCRoot] *)

Lemma squash_seps_again (s : str) :
  (forall b, squash_seps false (squash_seps b s) = squash_seps b s)
  /\ squash_seps true (squash_seps true s) = squash_seps true s.
Proof.
  induction s as [|a s [IH1 IH2]]; [split; [intros b|]; reflexivity|].
  split; [intros b|]; cbn [squash_seps]; destruct (is_sep a) eqn:A.
  - destruct b; [apply IH1|].
    cbn [squash_seps]. change (is_sep "\") with true. cbn [squash_seps].
    rewrite IH2. reflexivity.
  - cbn [squash_seps]. rewrite A, IH1. reflexivity.
  - apply IH2.
  - cbn [squash_seps]. rewrite A, IH1. reflexivity.
Qed.

Lemma squash_seps_start (s : str) :
  span is_sep s = 0 -> span is_sep (squash_seps false s) = 0.
Proof.
  destruct s as [|a s]; [reflexivity|]. cbn [span squash_seps].
  destruct (is_sep a) eqn:A; [discriminate|]. intros _. cbn [span].
  rewrite A. reflexivity.
Qed.

(** X23: [normalizeUNCRoot] returns two backslashes and its argument without
    its leading separators, each run of separators replaced by one
    backslash; applied to its own result it changes nothing. *)
Theorem normalizeUNCRoot_idempotent (device : str) :
  Win32.normalizeUNCRoot device
  = lit "\\" ++ squash_seps false (skipn (span is_sep device) device)
  /\ Win32.normalizeUNCRoot (Win32.normalizeUNCRoot device)
     = Win32.normalizeUNCRoot device.
Proof.
  split; [apply normalizeUNCRoot_eq|].
  rewrite (normalizeUNCRoot_eq device).
  set (X := squash_seps false (skipn (span is_sep device) device)).
  rewrite normalizeUNCRoot_eq.
  assert (S0 : span is_sep X = 0) by apply squash_seps_start, span_skipn_span.
  change (span is_sep (lit "\\" ++ X)) with (S (S (span is_sep X))).
  rewrite S0. cbn [skipn app lit list_ascii_of_string].
  destruct (squash_seps_again (skipn (span is_sep device) device)) as [H _].
  fold X. f_equal. f_equal. unfold X. apply H.
Qed.

(** ** Windows [resolve] and the cwd of a drive *)

Lemma lower_chr_is_backslash (a : ascii) : lower_chr a = "\"%char -> a = "\"%char.
Proof.
  destruct a as [[|] [|] [|] [|] [|] [|] [|] [|]]; intros H;
    try discriminate H; reflexivity.
Qed.

(** The cwd of a drive, when it starts with a letter and a colon, is a
    path on that drive, and absolute. *)
Lemma drive_cwd_stat (env : str -> option str) (l : ascii) :
  is_letter l = true ->
  has_drive (drive_cwd env [l; ":"%char]) = true ->
  exists x rest,
    drive_cwd env [l; ":"%char] = x :: ":"%char :: "\"%char :: rest
    /\ is_letter x = true
    /\ lower_chr x = lower_chr l.
Proof.
  intros L. unfold drive_cwd. intros HD. revert HD.
  destruct (env (lit "=" ++ [l; ":"%char])) as [e|];
    [|exists l, []; auto].
  destruct (is_empty e || negb (str_eqb (toLowerCase (firstn 3 e))
                                  (toLowerCase [l; ":"%char] ++ lit "\"))) eqn:V;
    [exists l, []; auto|].
  intros HD.
  apply orb_false_iff in V. destruct V as [_ V]. apply negb_false_iff in V.
  destruct (str_eqb_spec (toLowerCase (firstn 3 e))
              (toLowerCase [l; ":"%char] ++ lit "\")) as [E|]; [|discriminate V].
  destruct e as [|x [|y [|z e]]]; try discriminate E.
  cbn in E. injection E as X Y Z.
  cbn [has_drive] in HD. apply andb_true_iff in HD. destruct HD as [LX C].
  apply Ascii.eqb_eq in C. apply lower_chr_is_backslash in Z. subst y z.
  exists x, e. auto.
Qed.

Lemma drive_path_stat (x : ascii) (rest : str) :
  is_letter x = true ->
  Win32.statPath (x :: ":"%char :: "\"%char :: rest)
  = Ok (Win32.mkPathStat [x; ":"%char] rest false true).
Proof.
  intros X. rewrite statPath_eq.
  assert (H : has_drive (x :: ":"%char :: "\"%char :: rest) = true)
    by (cbn [has_drive]; rewrite X; reflexivity).
  unfold device_of, tail_of, abs_of, after_device, device_len, unc_of.
  rewrite !H. reflexivity.
Qed.

Lemma resolve_path_drive (cwd : str) (env : str -> option str) (st : Win32.rstate) :
  is_empty (Win32.resolvedDevice st) = false ->
  Win32.resolve_path cwd env None st
  = VStr (drive_cwd env (Win32.resolvedDevice st)).
Proof.
  intros H. unfold Win32.resolve_path, drive_cwd. rewrite H.
  destruct (env _) as [e|]; [|reflexivity].
  destruct (is_empty e || _); reflexivity.
Qed.

Lemma resolve_visit_drive_path (l : ascii) (p : str) :
  is_letter l = true ->
  Win32.resolve_visit (VStr (l :: ":"%char :: p)) (Win32.mkRState [] [] false false)
  = let st := Win32.mkRState [l; ":"%char] (tail_of (l :: ":"%char :: p) ++ lit "\")
                (abs_of (l :: ":"%char :: p)) false in
    Ok (if abs_of (l :: ":"%char :: p) then Win32.Break st else Win32.Next st).
Proof.
  intros L. unfold Win32.resolve_visit. rewrite as_string_VStr. cbn [bind is_empty].
  rewrite statPath_eq.
  assert (HD : has_drive (l :: ":"%char :: p) = true)
    by (cbn [has_drive]; rewrite L; reflexivity).
  assert (Dv : device_of (l :: ":"%char :: p) = [l; ":"%char]).
  { unfold device_of, device_len. rewrite HD. reflexivity. }
  assert (Un : unc_of (l :: ":"%char :: p) = false)
    by (unfold unc_of; rewrite HD; reflexivity).
  cbn [bind Win32.device Win32.tail Win32.isUnc Win32.stat_isAbsolute
       Win32.resolvedDevice Win32.resolvedTail Win32.resolvedAbsolute Win32.r_isUnc
       is_empty negb andb].
  rewrite Dv, Un. cbn [is_empty negb andb app]. rewrite app_nil_r.
  destruct (abs_of (l :: ":"%char :: p)); reflexivity.
Qed.

Lemma resolve_visit_drive_cwd (env : str -> option str) (l : ascii) (t : str) :
  is_letter l = true ->
  has_drive (drive_cwd env [l; ":"%char]) = true ->
  exists st,
    Win32.resolve_visit (VStr (drive_cwd env [l; ":"%char]))
      (Win32.mkRState [l; ":"%char] t false false)
    = Ok (Win32.Break st).
Proof.
  intros L HD. destruct (drive_cwd_stat env l L HD) as (x & rest & -> & X & XL).
  unfold Win32.resolve_visit. rewrite as_string_VStr. cbn [bind is_empty].
  rewrite (drive_path_stat x rest X).
  cbn [bind Win32.device Win32.tail Win32.isUnc Win32.stat_isAbsolute
       Win32.resolvedDevice Win32.resolvedTail Win32.resolvedAbsolute Win32.r_isUnc
       is_empty negb andb toLowerCase map].
  rewrite XL, str_eqb_refl. cbn [negb andb]. eexists. reflexivity.
Qed.

(** X24: A path with a drive is resolved against the cwd of that drive,
    the value of ["=" + drive] in the environment or the root of the
    drive, and never against [cwd]: when the cwd of the drive itself
    starts with a letter and a colon, [resolve] gives what it gives with
    that cwd written out as a first argument.  (The check of line 160
    compares lower cases only, so the condition is not redundant for
    strings of wider characters, where a character that is no letter can
    have a letter for its lower case.) *)
Theorem win32_resolve_uses_drive_cwd (cwd cwd' : str) (env : str -> option str)
        (p : str) :
  has_drive p = true ->
  has_drive (drive_cwd env (firstn 2 p)) = true ->
  Win32.resolve cwd env [VStr p]
  = Win32.resolve cwd' env [VStr (drive_cwd env (firstn 2 p)); VStr p].
Proof.
  intros H HC.
  destruct p as [|l [|c p']]; try discriminate H.
  cbn [has_drive] in H. apply andb_true_iff in H. destruct H as [L C].
  apply Ascii.eqb_eq in C. subst c. cbn [firstn] in HC |- *.
  unfold Win32.resolve. cbn [rev app Win32.resolve_loop].
  change (Win32.resolve_path cwd env (Some ?v) ?s) with v.
  change (Win32.resolve_path cwd' env (Some ?v) ?s) with v.
  rewrite !(resolve_visit_drive_path l p' L). cbv zeta.
  destruct (abs_of (l :: ":"%char :: p')); cbn [bind]; [reflexivity|].
  rewrite resolve_path_drive by reflexivity. cbn [Win32.resolvedDevice].
  destruct (resolve_visit_drive_cwd env l
              (tail_of (l :: ":"%char :: p') ++ lit "\") L HC) as [st E].
  rewrite E. reflexivity.
Qed.

(** X24 at a concrete input. *)
Lemma win32_resolve_uses_drive_cwd_witness :
  has_drive (lit "d:docs\..\a.txt") = true
  /\ has_drive
       (drive_cwd
          (fun k => if str_eqb k (lit "=d:") then Some (lit "D:\Data") else None)
          (firstn 2 (lit "d:docs\..\a.txt"))) = true
  /\ Win32.resolve (lit "C:\work")
       (fun k => if str_eqb k (lit "=d:") then Some (lit "D:\Data") else None)
       [VStr (lit "d:docs\..\a.txt")]
     = Win32.resolve []
         (fun k => if str_eqb k (lit "=d:") then Some (lit "D:\Data") else None)
         [VStr (drive_cwd
                  (fun k => if str_eqb k (lit "=d:") then Some (lit "D:\Data") else None)
                  (firstn 2 (lit "d:docs\..\a.txt")));
          VStr (lit "d:docs\..\a.txt")].
Proof.
  split; [reflexivity|]. split; [reflexivity|].
  apply (win32_resolve_uses_drive_cwd (lit "C:\work") []); reflexivity.
Defined.

(** ** What [parse] keeps of a path *)

Lemma path_of_parts (sepc : ascii -> bool) (root t : str) :
  exists mid trail,
    root ++ t
    = (root ++ removelast (dirBody_of sepc t)) ++ mid ++ base_of sepc t ++ trail
    /\ length mid <= 1
    /\ Forall (fun a => sepc a = true) (mid ++ trail).
Proof.
  destruct (dir_split sepc t) as (trail & T & Ft & _ & [D|(Y & c & D & C & _)]).
  - exists [], trail. rewrite D in *. cbn [removelast app] in *.
    rewrite app_nil_r. split; [congruence|]. split; [simpl; lia | exact Ft].
  - exists [c], trail. rewrite D, removelast_last in *.
    split; [|split; [simpl; lia | constructor; assumption]].
    rewrite T at 1. rewrite <- !app_assoc. reflexivity.
Qed.

(** X25: [parse] loses nothing of a path but separators: the path is the [dir]
    field, at most one separator, the [base] field and the separators at
    the end of the path, in this order. *)
Theorem parse_keeps_dir_and_base (p : str) :
  (exists info mid trail,
      Posix.parse (VStr p) = Ok info
      /\ p = dir info ++ mid ++ base info ++ trail
      /\ length mid <= 1
      /\ Forall (fun a => is_slash a = true) (mid ++ trail))
  /\ (exists info mid trail,
         Win32.parse (VStr p) = Ok info
         /\ p = dir info ++ mid ++ base info ++ trail
         /\ length mid <= 1
         /\ Forall (fun a => is_sep a = true) (mid ++ trail)).
Proof.
  split.
  - destruct (posix_parse_ext p) as (x & _ & P).
    destruct (path_of_parts is_slash (posix_root p) (posix_rest p))
      as (mid & trail & E & M & F).
    eexists _, mid, trail. split; [exact P|]. cbn [dir base].
    split; [|auto]. rewrite <- E.
    destruct (posix_root_cases p) as [(R & Rs & _)|(R & Pe)].
    + rewrite R, Rs. reflexivity.
    + rewrite R. exact Pe.
  - destruct (win32_parse_ext p) as (x & _ & P).
    destruct (path_of_parts is_sep (device_of p ++ slash_of p) (tail_of p))
      as (mid & trail & E & M & F).
    eexists _, mid, trail. split; [exact P|]. cbn [dir base].
    split; [|auto]. rewrite <- E, <- app_assoc.
    apply (path_parts p).
Qed.

(** ** Windows [resolve] and the arguments before an absolute path *)

Lemma win32_resolve_loop_stops (cwd cwd' : str) (env env' : str -> option str)
      (rp : list str) (q : str) (rest rest' : list value) (st : Win32.rstate) :
  Forall (fun s => device_of s = []) rp ->
  device_of q <> [] -> abs_of q = true ->
  Win32.resolvedDevice st = [] ->
  Win32.resolve_loop cwd env (map VStr rp ++ VStr q :: rest) st
  = Win32.resolve_loop cwd' env' (map VStr rp ++ VStr q :: rest') st.
Proof.
  intros F D A. revert st; induction F as [|x rp X F IH]; intros st R.
  - cbn [map app Win32.resolve_loop Win32.resolve_path].
    unfold Win32.resolve_visit. rewrite as_string_VStr. cbn [bind].
    destruct q as [|c q]; [exfalso; apply D; reflexivity|]. cbn [is_empty].
    rewrite statPath_eq. cbn [bind Win32.device Win32.stat_isAbsolute
      Win32.resolvedDevice Win32.resolvedAbsolute Win32.resolvedTail Win32.r_isUnc
      Win32.isUnc Win32.tail].
    rewrite R, A. cbn [is_empty negb andb].
    destruct (device_of (c :: q)) as [|d ds] eqn:E; [exfalso; apply D; reflexivity|].
    cbn [is_empty negb andb].
    destruct (Win32.resolvedAbsolute st); reflexivity.
  - cbn [map app Win32.resolve_loop Win32.resolve_path].
    unfold Win32.resolve_visit. rewrite as_string_VStr. cbn [bind].
    destruct (is_empty x); [apply IH; exact R|].
    rewrite statPath_eq. cbn [bind Win32.device Win32.stat_isAbsolute
      Win32.resolvedDevice Win32.resolvedAbsolute Win32.resolvedTail Win32.r_isUnc
      Win32.isUnc Win32.tail].
    rewrite R, X. cbn [is_empty negb andb]. apply IH. reflexivity.
Qed.

(** X26: Windows [resolve] never reads what stands before an absolute path that
    names a device, when no argument after it names one: the arguments on
    its left, [cwd] and the environment do not change the result. *)
Theorem win32_resolve_ignores_left (cwd cwd' : str) (env env' : str -> option str)
        (pre pre' : list value) (q : str) (stq : Win32.PathStat) (post : list str) :
  Win32.statPath q = Ok stq ->
  Win32.device stq <> [] ->
  Win32.stat_isAbsolute stq = true ->
  Forall (fun s => exists st, Win32.statPath s = Ok st /\ Win32.device st = []) post ->
  Win32.resolve cwd env (pre ++ VStr q :: map VStr post)
  = Win32.resolve cwd' env' (pre' ++ VStr q :: map VStr post).
Proof.
  rewrite statPath_eq. intros E D A F. injection E as <-.
  cbn [Win32.device Win32.stat_isAbsolute] in D, A.
  assert (F' : Forall (fun s => device_of s = []) (rev post)).
  { apply Forall_rev. revert F. apply Forall_impl. intros s (st & S & Ds).
    rewrite statPath_eq in S. injection S as <-. exact Ds. }
  unfold Win32.resolve.
  rewrite !rev_app_distr. cbn [rev]. rewrite <- !app_assoc, <- map_rev.
  cbn [app].
  rewrite (win32_resolve_loop_stops cwd cwd' env env' (rev post) q (rev pre) (rev pre')
             (Win32.mkRState [] [] false false) F' D A eq_refl).
  reflexivity.
Qed.

(** X26 at a concrete input. *)
Lemma win32_resolve_ignores_left_witness :
  Win32.statPath (lit "d:\srv") = Ok (Win32.mkPathStat (lit "d:") (lit "srv") false true)
  /\ lit "d:" <> []
  /\ Forall (fun s => exists st, Win32.statPath s = Ok st /\ Win32.device st = [])
            [lit "a"; lit "..\b"]
  /\ Win32.resolve (lit "c:\home") (fun _ => None)
       ([VNum 42; VStr (lit "x")] ++ VStr (lit "d:\srv") :: map VStr [lit "a"; lit "..\b"])
     = Win32.resolve [] (fun _ => Some (lit "e:\"))
         ([] ++ VStr (lit "d:\srv") :: map VStr [lit "a"; lit "..\b"]).
Proof.
  assert (F : Forall (fun s => exists st, Win32.statPath s = Ok st /\ Win32.device st = [])
                     [lit "a"; lit "..\b"]).
  { repeat constructor; eexists; (split; [reflexivity|reflexivity]). }
  split; [reflexivity|]. split; [discriminate|]. split; [exact F|].
  apply (win32_resolve_ignores_left (lit "c:\home") [] (fun _ => None)
           (fun _ => Some (lit "e:\")) [VNum 42; VStr (lit "x")] []
           (lit "d:\srv") (Win32.mkPathStat (lit "d:") (lit "srv") false true)
           [lit "a"; lit "..\b"]);
    [reflexivity | discriminate | reflexivity | exact F].
Defined.

(** ** Windows [resolve] and a path on another device *)

Lemma resolve_visit_same_resolved (x : str) (a b : Win32.rstate) :
  same_resolved a b -> x <> [] ->
  Win32.resolve_visit (VStr x) a = Win32.resolve_visit (VStr x) b.
Proof.
  intros (D & T & A) X. unfold Win32.resolve_visit.
  rewrite as_string_VStr. cbn [bind]. rewrite (is_empty_false x X).
  rewrite statPath_eq. cbn [bind Win32.device Win32.stat_isAbsolute
    Win32.resolvedDevice Win32.resolvedAbsolute Win32.resolvedTail Win32.r_isUnc
    Win32.isUnc Win32.tail].
  rewrite D, T, A. reflexivity.
Qed.

Lemma resolve_path_none_string (cwd : str) (env : str -> option str)
      (a : Win32.rstate) :
  Win32.resolvedDevice a <> [] ->
  exists x, Win32.resolve_path cwd env None a = VStr x /\ x <> [].
Proof.
  intros D. unfold Win32.resolve_path. rewrite (is_empty_false _ D).
  destruct (env _) as [p|].
  - destruct (is_empty p) eqn:P; cbn [orb].
    + eexists; split; [reflexivity|]. destruct (Win32.resolvedDevice a); discriminate.
    + destruct (negb _).
      * eexists; split; [reflexivity|]. destruct (Win32.resolvedDevice a); discriminate.
      * exists p; split; [reflexivity|]. destruct p; discriminate.
  - eexists; split; [reflexivity|]. destruct (Win32.resolvedDevice a); discriminate.
Qed.

Lemma resolve_loop_same_resolved (cwd : str) (env : str -> option str)
      (l : list value) (a b : Win32.rstate) :
  same_resolved a b -> Win32.resolvedDevice a <> [] ->
  Win32.resolve_loop cwd env l a = Win32.resolve_loop cwd env l b.
Proof.
  revert a b; induction l as [|v l IH]; intros a b S D.
  - cbn [Win32.resolve_loop].
    destruct (resolve_path_none_string cwd env a D) as (x & E & X).
    assert (E' : Win32.resolve_path cwd env None b = VStr x).
    { rewrite <- E. unfold Win32.resolve_path. destruct S as (-> & _). reflexivity. }
    rewrite E, E', (resolve_visit_same_resolved x a b S X). reflexivity.
  - cbn [Win32.resolve_loop Win32.resolve_path].
    destruct v as [| |bv|n|x|r d bs]; try reflexivity.
    destruct x as [|c x].
    + unfold Win32.resolve_visit. rewrite as_string_VStr. cbn [bind is_empty].
      apply IH; assumption.
    + rewrite (resolve_visit_same_resolved (c :: x) a b S) by discriminate.
      reflexivity.
Qed.

(** X27: In Windows [resolve], an argument that names another device than the
    argument after it is skipped: the result is the one without it. *)
Theorem win32_resolve_skips_other_device (cwd : str) (env : str -> option str)
        (pre : list value) (q p : str) (sq sp : Win32.PathStat) :
  Win32.statPath q = Ok sq ->
  Win32.statPath p = Ok sp ->
  Win32.device sq <> [] ->
  Win32.device sp <> [] ->
  toLowerCase (Win32.device sq) <> toLowerCase (Win32.device sp) ->
  Win32.resolve cwd env (pre ++ [VStr q; VStr p])
  = Win32.resolve cwd env (pre ++ [VStr p]).
Proof.
  rewrite !statPath_eq. intros Eq Ep Dq Dp N.
  injection Eq as <-. injection Ep as <-.
  cbn [Win32.device] in Dq, Dp, N.
  assert (Qn : q <> []) by (intros ->; apply Dq; reflexivity).
  assert (Pn : p <> []) by (intros ->; apply Dp; reflexivity).
  unfold Win32.resolve. rewrite !rev_app_distr. cbn [rev app].
  cbn [Win32.resolve_loop Win32.resolve_path].
  unfold Win32.resolve_visit at 1 3. rewrite !as_string_VStr. cbn [bind].
  rewrite (is_empty_false p Pn), statPath_eq.
  cbn [bind Win32.device Win32.stat_isAbsolute
    Win32.resolvedDevice Win32.resolvedAbsolute Win32.resolvedTail Win32.r_isUnc
    Win32.isUnc Win32.tail is_empty negb andb].
  rewrite (is_empty_false _ Dp). cbn [negb andb].
  destruct (abs_of p); [reflexivity|].
  unfold Win32.resolve_visit at 1. rewrite as_string_VStr. cbn [bind].
  rewrite (is_empty_false q Qn), statPath_eq.
  cbn [bind Win32.device Win32.stat_isAbsolute
    Win32.resolvedDevice Win32.resolvedAbsolute Win32.resolvedTail Win32.r_isUnc
    Win32.isUnc Win32.tail].
  rewrite (is_empty_false _ Dp), (is_empty_false _ Dq), (str_eqb_neq _ _ N).
  cbn [negb andb].
  match goal with
  | |- bind ?x _ = bind ?y _ => assert (E : x = y); [|rewrite E; reflexivity]
  end.
  apply resolve_loop_same_resolved; [repeat split | exact Dp].
Qed.

(** X27 at a concrete input. *)
Lemma win32_resolve_skips_other_device_witness :
  Win32.statPath (lit "\\srv\data\x")
  = Ok (Win32.mkPathStat (lit "\\srv\data") (lit "x") true true)
  /\ Win32.statPath (lit "c:a\b") = Ok (Win32.mkPathStat (lit "c:") (lit "a\b") false false)
  /\ toLowerCase (lit "\\srv\data") <> toLowerCase (lit "c:")
  /\ Win32.resolve (lit "d:\home") (fun _ => None)
       ([VStr (lit "C:\top")] ++ [VStr (lit "\\srv\data\x"); VStr (lit "c:a\b")])
     = Win32.resolve (lit "d:\home") (fun _ => None)
         ([VStr (lit "C:\top")] ++ [VStr (lit "c:a\b")]).
Proof.
  split; [reflexivity|]. split; [reflexivity|]. split; [discriminate|].
  apply (win32_resolve_skips_other_device (lit "d:\home") (fun _ => None)
           [VStr (lit "C:\top")] (lit "\\srv\data\x") (lit "c:a\b")
           (Win32.mkPathStat (lit "\\srv\data") (lit "x") true true)
           (Win32.mkPathStat (lit "c:") (lit "a\b") false false));
    [reflexivity | reflexivity | discriminate | discriminate | discriminate].
Defined.

(** ** POSIX [resolve] and [join] *)

Lemma segments_join_all (l : list str) :
  segments (join_str (lit "/") l) = flat_map segments l.
Proof.
  induction l as [|x [|y l] IH]; [reflexivity | symmetry; apply app_nil_r |].
  change (join_str (lit "/") (x :: y :: l))
    with (x ++ lit "/" ++ join_str (lit "/") (y :: l)).
  rewrite segments_app, IH. reflexivity.
Qed.

Lemma flat_map_segments_filter (l : list str) :
  flat_map segments (filter non_empty l) = flat_map segments l.
Proof.
  induction l as [|[|c x] l IH]; [reflexivity | exact IH |].
  cbn [filter non_empty is_empty negb flat_map]. rewrite IH. reflexivity.
Qed.

Lemma resolve_scan_from_absolute (cwd a : str) (rp more : list str) (acc : str) :
  Posix.isAbsolute a = true ->
  Forall (fun s => Posix.isAbsolute s = false) rp ->
  exists X,
    resolve_scan cwd (rp ++ a :: more) acc = (X, true)
    /\ segments X = segments a ++ flat_map segments (rev rp) ++ segments acc.
Proof.
  intros A F. revert acc; induction F as [|p rp P F IH]; intros acc.
  - cbn [app resolve_scan]. change (starts_with "/" a) with (Posix.isAbsolute a).
    rewrite A. eexists; split; [reflexivity|]. apply segments_app.
  - cbn [app resolve_scan]. change (starts_with "/" p) with (Posix.isAbsolute p).
    rewrite P. destruct (IH (p ++ lit "/" ++ acc)) as (X & E & S).
    exists X; split; [exact E|]. rewrite S, segments_app.
    cbn [rev]. rewrite flat_map_app. cbn [flat_map].
    rewrite app_nil_r, <- !app_assoc. reflexivity.
Qed.

(** X28: After an absolute path, POSIX [resolve] and [join] agree on relative
    paths, but for the "/" that [join] keeps at the end. *)
Theorem posix_resolve_like_join (cwd a : str) (others : list str) :
  Posix.isAbsolute a = true ->
  Forall (fun s => Posix.isAbsolute s = false) others ->
  exists r,
    Posix.resolve cwd (map VStr (a :: others)) = Ok r
    /\ (Posix.join (map VStr (a :: others)) = Ok r
        \/ Posix.join (map VStr (a :: others)) = Ok (r ++ lit "/")).
Proof.
  intros A F.
  assert (F' : Forall (fun s => Posix.isAbsolute s = false) (rev others))
    by (apply Forall_rev, F).
  destruct (resolve_scan_from_absolute cwd a (rev others) [] [] A F') as (X & E & S).
  rewrite rev_involutive, app_nil_r in S.
  rewrite posix_resolve_eq. unfold Posix.join. rewrite posix_join_loop_eq.
  change (filter non_empty ([] :: a :: others))
    with (filter non_empty (a :: others)).
  cbn [bind rev]. rewrite E.
  cbn [fst snd negb]. eexists; split; [reflexivity|].
  set (J := join_str (lit "/") (filter non_empty (a :: others))).
  assert (SJ : segments J = segments X).
  { unfold J. rewrite segments_join_all, flat_map_segments_filter, S. reflexivity. }
  assert (AJ : Posix.isAbsolute J = true).
  { unfold J. destruct a as [|c a]; [discriminate A|].
    cbn [filter non_empty is_empty negb].
    destruct (filter non_empty others); exact A. }
  rewrite posix_normalize_eq, AJ. cbn [negb].
  unfold norm_tail.
  assert (N : norm_path is_slash "/" false J = norm_path is_slash "/" false X).
  { unfold norm_path. rewrite !norm_segs_segments, SJ. reflexivity. }
  rewrite N.
  destruct (negb (is_empty (norm_path is_slash "/" false X)) && _); [right | left].
  - rewrite <- app_assoc. reflexivity.
  - reflexivity.
Qed.

(** X28 at a concrete input. *)
Lemma posix_resolve_like_join_witness :
  Posix.isAbsolute (lit "/srv/www") = true
  /\ Forall (fun s => Posix.isAbsolute s = false) [lit "../a"; []; lit "b/"]
  /\ exists r,
       Posix.resolve (lit "/home") (map VStr (lit "/srv/www" :: [lit "../a"; []; lit "b/"]))
       = Ok r
       /\ (Posix.join (map VStr (lit "/srv/www" :: [lit "../a"; []; lit "b/"])) = Ok r
           \/ Posix.join (map VStr (lit "/srv/www" :: [lit "../a"; []; lit "b/"]))
              = Ok (r ++ lit "/")).
Proof.
  assert (F : Forall (fun s => Posix.isAbsolute s = false) [lit "../a"; []; lit "b/"])
    by (repeat constructor).
  split; [reflexivity|]. split; [exact F|].
  apply (posix_resolve_like_join (lit "/home") (lit "/srv/www")
           [lit "../a"; []; lit "b/"]); [reflexivity | exact F].
Defined.
